(** * jump_list: a skip-list based ordered container (include/jump_list.h)

    The container is a graph of heap nodes linked by raw pointers.  The
    development models the heap as a finite map from addresses to node
    objects, translates the member functions of [jump_list] into functions
    over that heap, and proves the properties of the specification against
    a representation invariant that ties the heap to the ordered list of
    stored elements.

    Conventions of the embedding:
    - a [Node*] is an [option positive]; [None] is [nullptr];
    - dereferencing [nullptr] or an address that holds no live node, reading
      the payload of the header, and indexing a vector out of range are
      undefined behaviour in C++; the model returns [None] there;
    - [while] loops over pointers take a [fuel] bound; running out of fuel
      is [None] as well, and the theorems show which fuel suffices;
    - [int level] ranges over [0..MAX_LEVEL] and is a [nat];
      [size_t size_] is an [N] with its wrap-around modulo [2^64];
    - the random source is the position [rng] in a sequence [draws] of
      outcomes of the test [uniform(0,1)(rng) < P];
    - the allocator is an oracle: each call of [insert] is told whether
      node creation succeeds and at which address. *)

From stdpp Require Import gmap list option sorting.
From Stdlib Require Import ZArith NArith Lia.

Abbreviation addr := positive (only parsing).
Abbreviation ptr := (option positive) (only parsing).

(** [static constexpr int MAX_LEVEL = 32;] *)
Definition MAX_LEVEL : nat := 32.

(** Range of [size_t]. *)
Definition SIZE_MOD : N := (2 ^ 64)%N.

(** [++size_] and [--size_] on [size_t]. *)
Definition size_incr (n : N) : N := ((n + 1) mod SIZE_MOD)%N.
Definition size_decr (n : N) : N := ((n + SIZE_MOD - 1) mod SIZE_MOD)%N.

(** The data members of [jump_list] other than the comparator and the
    allocator: [Node* header; int level; size_t size_; std::mt19937 rng]. *)
Record jump_list := JumpList {
  header : addr;
  level : nat;
  size_ : N;
  rng : nat
}.

(** [class iterator] / [class const_iterator]: [Node* node; Node* header]. *)
Record iterator := Iterator {
  node : ptr;
  it_header : ptr
}.

(** [operator==] of iterators compares the [node] members only. *)
Definition iterator_eq (a b : iterator) : bool := bool_decide (node a = node b).

(** How a call that may raise an exception leaves. *)
Inductive completion (A : Type) : Type :=
| Normal (r : A)
| BadAlloc.
Arguments Normal {A} r.
Arguments BadAlloc {A}.

(** What the allocator does on the next [createNode]:
    [allocate] throws; [allocate] returns [a] but [construct] throws;
    or both succeed and the node lives at [a]. *)
Inductive alloc_outcome : Type :=
| AllocFails
| ConstructFails (a : addr)
| AllocOk (a : addr).

(** [v[i] = x] on a [std::vector]; out of range is undefined. *)
Definition vec_set {A} (v : list A) (i : nat) (x : A) : option (list A) :=
  if decide (i < length v) then Some (<[i:=x]> v) else None.

(** [for (int i = start; i < start + count; ++i) body(i)] *)
Fixpoint for_up {St} (body : nat → St → option St) (start count : nat) (s : St)
  : option St :=
  match count with
  | O => Some s
  | S count' => s' ← body start s; for_up body (S start) count' s'
  end.

Section JumpList.
Context {T : Type}.
Variable comp : T → T → bool.
Variable draws : nat → bool.

(** [struct Node { T data; std::vector<Node*> forward; Node* backward; }].
    The header is built by [Node(int level)], which constructs no payload:
    its [data] is [None]. *)
Record Node := mkNode {
  data : option T;
  forward : list ptr;
  backward : ptr
}.

(** [Node(const T& value, int level)] *)
Definition Node_value (value : T) (lvl : nat) : Node :=
  mkNode (Some value) (replicate (lvl + 1) None) None.

(** [Node(int level)] *)
Definition Node_header (lvl : nat) : Node :=
  mkNode None (replicate (lvl + 1) None) None.

Abbreviation mem := (gmap positive Node) (only parsing).

(** [p->forward[i]] *)
Definition get_forward (m : mem) (p : addr) (i : nat) : option ptr :=
  nd ← m !! p; forward nd !! i.

(** [p->forward[i] = q] *)
Definition set_forward (m : mem) (p : addr) (i : nat) (q : ptr) : option mem :=
  nd ← m !! p;
  fw ← vec_set (forward nd) i q;
  Some (<[p := mkNode (data nd) fw (backward nd)]> m).

(** [p->data] *)
Definition get_data (m : mem) (p : addr) : option T :=
  nd ← m !! p; data nd.

(** [p->backward] *)
Definition get_backward (m : mem) (p : addr) : option ptr :=
  nd ← m !! p; Some (backward nd).

(** [p->backward = q] *)
Definition set_backward (m : mem) (p : addr) (q : ptr) : option mem :=
  nd ← m !! p;
  Some (<[p := mkNode (data nd) (forward nd) q]> m).

(** ** Level generator *)

(** [while (uniform(0,1)(rng) < P && lvl < MAX_LEVEL) lvl++;]
    Every evaluation of the condition consumes one draw. *)
Fixpoint randomLevel_loop (fuel : nat) (lvl : nat) (g : nat) : option (nat * nat) :=
  match fuel with
  | O => None
  | S fuel' =>
    let d := draws g in
    let g := S g in
    if d && bool_decide (lvl < MAX_LEVEL)
    then randomLevel_loop fuel' (S lvl) g
    else Some (lvl, g)
  end.

Definition randomLevel (fuel : nat) (g : nat) : option (nat * nat) :=
  randomLevel_loop fuel 0 g.

(** ** Node creation and destruction *)

Definition createNode (m : mem) (value : T) (lvl : nat) (oc : alloc_outcome)
  : mem * completion addr :=
  match oc with
  | AllocFails => (m, BadAlloc)
  | ConstructFails a =>
    (* allocate(a); construct throws; deallocate(a); throw; *)
    (m, BadAlloc)
  | AllocOk a => (<[a := Node_value value lvl]> m, Normal a)
  end.

(** [if (node && node != header) { destroy; deallocate; }] *)
Definition destroyNode (m : mem) (hd : addr) (p : ptr) : mem :=
  match p with
  | Some a => if decide (a = hd) then m else delete a m
  | None => m
  end.

(** ** Traversal *)

(** [while (current->forward[i] && go(current->forward[i]->data))
       current = current->forward[i];]
    with [go x = comp(x, key)] or [go x = !comp(key, x)]. *)
Fixpoint walk (fuel : nat) (m : mem) (go : T → bool) (i : nat) (current : addr)
  : option addr :=
  match fuel with
  | O => None
  | S fuel' =>
    nx ← get_forward m current i;
    match nx with
    | None => Some current
    | Some n =>
      v ← get_data m n;
      if go v then walk fuel' m go i n else Some current
    end
  end.

(** [for (int i = level; i >= 0; --i) { walk; }] as in [find],
    [lower_bound] and [upper_bound]. *)
Fixpoint search (fuel : nat) (m : mem) (go : T → bool) (i : nat) (current : addr)
  : option addr :=
  current ← walk fuel m go i current;
  match i with
  | O => Some current
  | S i' => search fuel m go i' current
  end.

(** [for (int i = level; i >= 0; --i) { walk; update[i] = current; }]
    as in [insert] and [erase]. *)
Fixpoint search_update (fuel : nat) (m : mem) (go : T → bool) (i : nat)
    (current : addr) (update : list ptr) : option (list ptr * addr) :=
  current ← walk fuel m go i current;
  update ← vec_set update i (Some current);
  match i with
  | O => Some (update, current)
  | S i' => search_update fuel m go i' current update
  end.

(** [std::vector<Node*> update(MAX_LEVEL + 1);] *)
Definition update_init : list ptr := replicate (MAX_LEVEL + 1) None.

(** ** Iterators and capacity *)

Definition begin_ (m : mem) (j : jump_list) : option iterator :=
  p ← get_forward m (header j) 0;
  Some (Iterator p (Some (header j))).

Definition end_ (j : jump_list) : iterator := Iterator None (Some (header j)).

Definition size (j : jump_list) : N := size_ j.

(** [operator*] *)
Definition deref (m : mem) (it : iterator) : option T :=
  p ← node it; get_data m p.

(** [operator++]: [node = node->forward[0]] *)
Definition incr (m : mem) (it : iterator) : option iterator :=
  p ← node it;
  q ← get_forward m p 0;
  Some (Iterator q (it_header it)).

(** ** Constructor: [jump_list()] with the header allocated at [a]. *)
Definition construct (m : mem) (a : addr) : mem * jump_list :=
  (<[a := Node_header MAX_LEVEL]> m, JumpList a 0 0 0).

(** ** insert *)

(** Body of [for (int i = 0; i <= newLevel; ++i)]:
    [newNode->forward[i] = update[i]->forward[i];
     update[i]->forward[i] = newNode;] *)
Definition splice_level (update : list ptr) (newNode : addr) (i : nat) (m : mem)
  : option mem :=
  ui ← update !! i;
  u ← ui;
  nx ← get_forward m u i;
  m ← set_forward m newNode i nx;
  set_forward m u i (Some newNode).

Definition insert (fuel : nat) (m : mem) (j : jump_list) (value : T)
    (oc : alloc_outcome)
  : option (mem * jump_list * completion (iterator * bool)) :=
  '(update, current) ←
    search_update fuel m (λ x, comp x value) (level j) (header j) update_init;
  current ← get_forward m current 0;
  dup ← match current with
         | None => Some false
         | Some c =>
           v ← get_data m c;
           Some (negb (comp v value) && negb (comp value v))
         end;
  if (dup : bool)
  then Some (m, j, Normal (Iterator current (Some (header j)), false))
  else
    '(newLevel, g) ← randomLevel fuel (rng j);
    '(update, lvl) ←
      (if decide (level j < newLevel)
       then
         update ← for_up (λ i u, vec_set u i (Some (header j)))
                         (S (level j)) (newLevel - level j) update;
         Some (update, newLevel)
       else Some (update, level j));
    match createNode m value newLevel oc with
    | (m, BadAlloc) => Some (m, JumpList (header j) lvl (size_ j) g, BadAlloc)
    | (m, Normal newNode) =>
      m ← for_up (splice_level update newNode) 0 (S newLevel) m;
      u0 ← update !! 0;
      m ← set_backward m newNode u0;
      nx ← get_forward m newNode 0;
      m ← match nx with
           | Some n => set_backward m n (Some newNode)
           | None => set_backward m (header j) (Some newNode)
           end;
      Some (m, JumpList (header j) lvl (size_incr (size_ j)) g,
            Normal (Iterator (Some newNode) (Some (header j)), true))
    end.

(** ** Lookup *)

(** [find]: the traversal, then the equivalence test on the node reached. *)
Definition find (fuel : nat) (m : mem) (j : jump_list) (key : T)
  : option iterator :=
  current ← search fuel m (λ x, comp x key) (level j) (header j);
  current ← get_forward m current 0;
  match current with
  | None => Some (end_ j)
  | Some c =>
    v ← get_data m c;
    if negb (comp v key) && negb (comp key v)
    then Some (Iterator (Some c) (Some (header j)))
    else Some (end_ j)
  end.

(** [count]: [find(key) != end() ? 1 : 0] *)
Definition count (fuel : nat) (m : mem) (j : jump_list) (key : T) : option N :=
  it ← find fuel m j key;
  Some (if iterator_eq it (end_ j) then 0%N else 1%N).

(** [contains]: [find(key) != end()] *)
Definition contains (fuel : nat) (m : mem) (j : jump_list) (key : T)
  : option bool :=
  it ← find fuel m j key;
  Some (negb (iterator_eq it (end_ j))).

Definition lower_bound (fuel : nat) (m : mem) (j : jump_list) (key : T)
  : option iterator :=
  current ← search fuel m (λ x, comp x key) (level j) (header j);
  p ← get_forward m current 0;
  Some (Iterator p (Some (header j))).

Definition upper_bound (fuel : nat) (m : mem) (j : jump_list) (key : T)
  : option iterator :=
  current ← search fuel m (λ x, negb (comp key x)) (level j) (header j);
  p ← get_forward m current 0;
  Some (Iterator p (Some (header j))).

Definition equal_range (fuel : nat) (m : mem) (j : jump_list) (key : T)
  : option (iterator * iterator) :=
  it ← find fuel m j key;
  if iterator_eq it (end_ j)
  then Some (it, it)
  else
    next ← incr m it;
    Some (it, next).

(** ** erase *)

(** Body of [for (int i = 0; i <= level; ++i)]:
    [if (update[i]->forward[i] == current)
       update[i]->forward[i] = current->forward[i];] *)
Definition unsplice_level (update : list ptr) (current : addr) (i : nat) (m : mem)
  : option mem :=
  ui ← update !! i;
  u ← ui;
  nx ← get_forward m u i;
  if decide (nx = Some current)
  then
    cf ← get_forward m current i;
    set_forward m u i cf
  else Some m.

(** [while (level > 0 && !header->forward[level]) --level;] *)
Fixpoint shrink_level (m : mem) (hd : addr) (lvl : nat) : option nat :=
  match lvl with
  | O => Some O
  | S lvl' =>
    top ← get_forward m hd lvl;
    match top with
    | None => shrink_level m hd lvl'
    | Some _ => Some lvl
    end
  end.

(** [iterator erase(const_iterator pos)] *)
Definition erase (fuel : nat) (m : mem) (j : jump_list) (pos : iterator)
  : option (mem * jump_list * iterator) :=
  if iterator_eq pos (end_ j) then Some (m, j, end_ j) else
  value ← deref m pos;
  '(update, current) ←
    search_update fuel m (λ x, comp x value) (level j) (header j) update_init;
  current ← get_forward m current 0;
  match current with
  | None => Some (m, j, end_ j)
  | Some c =>
    v ← get_data m c;
    if comp v value || comp value v then Some (m, j, end_ j) else
    next_node ← get_forward m c 0;
    m ← for_up (unsplice_level update c) 0 (S (level j)) m;
    prev ← get_backward m c;
    m ← match next_node with
         | Some n => set_backward m n prev
         | None => set_backward m (header j) prev
         end;
    let m := destroyNode m (header j) (Some c) in
    lvl ← shrink_level m (header j) (level j);
    Some (m, JumpList (header j) lvl (size_decr (size_ j)) (rng j),
          Iterator next_node (Some (header j)))
  end.

(** [iterator erase(const_iterator first, const_iterator last)]:
    [while (first != last) { next = first; ++next; result = erase(first);
                              first = next; }] *)
Fixpoint erase_range_loop (fuel n : nat) (m : mem) (j : jump_list)
    (first last result : iterator) : option (mem * jump_list * iterator) :=
  match n with
  | O => None
  | S n' =>
    if iterator_eq first last then Some (m, j, result) else
    next ← incr m first;
    '(m, j, result) ← erase fuel m j first;
    erase_range_loop fuel n' m j next last result
  end.

Definition erase_range (fuel : nat) (m : mem) (j : jump_list)
    (first last : iterator) : option (mem * jump_list * iterator) :=
  erase_range_loop fuel fuel m j first last (end_ j).

(** [size_type erase(const T& key)] *)
Definition erase_key (fuel : nat) (m : mem) (j : jump_list) (key : T)
  : option (mem * jump_list * N) :=
  it ← find fuel m j key;
  if negb (iterator_eq it (end_ j))
  then
    '(m, j, _) ← erase fuel m j it;
    Some (m, j, 1%N)
  else Some (m, j, 0%N).

(** ** clear *)

(** [while (current) { next = current->forward[0]; destroyNode(current);
                       current = next; }] *)
Fixpoint clear_loop (fuel : nat) (m : mem) (hd : addr) (current : ptr)
  : option mem :=
  match fuel with
  | O => None
  | S fuel' =>
    match current with
    | None => Some m
    | Some c =>
      next ← get_forward m c 0;
      clear_loop fuel' (destroyNode m hd current) hd next
    end
  end.

Definition clear (fuel : nat) (m : mem) (j : jump_list)
  : option (mem * jump_list) :=
  current ← get_forward m (header j) 0;
  m ← clear_loop fuel m (header j) current;
  m ← for_up (λ i m, set_forward m (header j) i None) 0 (MAX_LEVEL + 1) m;
  m ← set_backward m (header j) None;
  Some (m, JumpList (header j) 0 0 (rng j)).

(** ** Iteration: [std::vector<T>(jl.begin(), jl.end())] *)

Fixpoint collect (fuel : nat) (m : mem) (first last : iterator)
  : option (list T) :=
  match fuel with
  | O => None
  | S fuel' =>
    if iterator_eq first last then Some [] else
    x ← deref m first;
    next ← incr m first;
    xs ← collect fuel' m next last;
    Some (x :: xs)
  end.

Definition elements (fuel : nat) (m : mem) (j : jump_list) : option (list T) :=
  b ← begin_ m j;
  collect fuel m b (end_ j).

(** ** Whole-container comparison

    [eqT] and [ltT] are [operator==] and [operator<] of the element type,
    which [std::equal] and [std::lexicographical_compare] apply. *)

Variable eqT : T → T → bool.
Variable ltT : T → T → bool.

(** [std::equal(first1, last1, first2)]:
    [for (; first1 != last1; ++first1, ++first2)
       if (not ( *first1 == *first2 )) return false;
     return true;] *)
Fixpoint std_equal (fuel : nat) (m : mem) (first1 last1 first2 : iterator)
  : option bool :=
  match fuel with
  | O => None
  | S fuel' =>
    if iterator_eq first1 last1 then Some true else
    x ← deref m first1;
    y ← deref m first2;
    if eqT x y
    then
      first1 ← incr m first1;
      first2 ← incr m first2;
      std_equal fuel' m first1 last1 first2
    else Some false
  end.

(** [std::lexicographical_compare(first1, last1, first2, last2)]:
    [for (; first1 != last1 && first2 != last2; ++first1, ++first2) {
       if ( *first1 < *first2 ) return true;
       if ( *first2 < *first1 ) return false; }
     return first1 == last1 && first2 != last2;] *)
Fixpoint std_lexicographical_compare (fuel : nat) (m : mem)
    (first1 last1 first2 last2 : iterator) : option bool :=
  match fuel with
  | O => None
  | S fuel' =>
    if negb (iterator_eq first1 last1) && negb (iterator_eq first2 last2)
    then
      x ← deref m first1;
      y ← deref m first2;
      if ltT x y then Some true
      else if ltT y x then Some false
      else
        first1 ← incr m first1;
        first2 ← incr m first2;
        std_lexicographical_compare fuel' m first1 last1 first2 last2
    else Some (iterator_eq first1 last1 && negb (iterator_eq first2 last2))
  end.

(** [lhs.size() == rhs.size() && std::equal(lhs.begin(), lhs.end(), rhs.begin())] *)
Definition operator_eq (fuel : nat) (m : mem) (lhs rhs : jump_list)
  : option bool :=
  if bool_decide (size lhs = size rhs)
  then
    b1 ← begin_ m lhs;
    b2 ← begin_ m rhs;
    std_equal fuel m b1 (end_ lhs) b2
  else Some false.

(** [std::lexicographical_compare(lhs.begin(), lhs.end(), rhs.begin(), rhs.end())] *)
Definition operator_lt (fuel : nat) (m : mem) (lhs rhs : jump_list)
  : option bool :=
  b1 ← begin_ m lhs;
  b2 ← begin_ m rhs;
  std_lexicographical_compare fuel m b1 (end_ lhs) b2 (end_ rhs).

(** [operator!=], [operator<=], [operator>] and [operator>=]:
    [!(lhs == rhs)], [!(rhs < lhs)], [rhs < lhs] and [!(lhs < rhs)]. *)
Definition operator_ne (fuel : nat) (m : mem) (lhs rhs : jump_list)
  : option bool :=
  negb <$> operator_eq fuel m lhs rhs.

Definition operator_le (fuel : nat) (m : mem) (lhs rhs : jump_list)
  : option bool :=
  negb <$> operator_lt fuel m rhs lhs.

Definition operator_gt (fuel : nat) (m : mem) (lhs rhs : jump_list)
  : option bool :=
  operator_lt fuel m rhs lhs.

Definition operator_ge (fuel : nat) (m : mem) (lhs rhs : jump_list)
  : option bool :=
  negb <$> operator_lt fuel m lhs rhs.

(** ** Capacity, decrement and reverse iteration *)

(** [bool empty() const { return size_ == 0; }] *)
Definition empty (j : jump_list) : bool := bool_decide (size_ j = 0%N).

(** [operator--]:
    [if (node) node = node->backward;
     else if (header) node = header->backward;] *)
Definition decr (m : mem) (it : iterator) : option iterator :=
  match node it with
  | Some p => q ← get_backward m p; Some (Iterator q (it_header it))
  | None =>
    match it_header it with
    | Some h => q ← get_backward m h; Some (Iterator q (it_header it))
    | None => Some it
    end
  end.

(** [std::reverse_iterator<iterator>] wraps a base iterator [current]:
    [*r] is [*--tmp] for a copy [tmp] of [current], [++r] is [--current],
    and two reverse iterators are equal when their bases are.  A reverse
    iterator is modelled by its base: [rbegin()] is
    [reverse_iterator(end())], [rend()] is [reverse_iterator(begin())]. *)
Definition rbegin (j : jump_list) : iterator := end_ j.

Definition rend (m : mem) (j : jump_list) : option iterator := begin_ m j.

Definition rderef (m : mem) (r : iterator) : option T :=
  tmp ← decr m r; deref m tmp.

(** [for (auto r = first; r != last; ++r) out.push_back( *r );] over
    reverse iterators. *)
Fixpoint rcollect (fuel : nat) (m : mem) (first last : iterator)
  : option (list T) :=
  match fuel with
  | O => None
  | S fuel' =>
    if iterator_eq first last then Some [] else
    x ← rderef m first;
    next ← decr m first;
    xs ← rcollect fuel' m next last;
    Some (x :: xs)
  end.

(** The elements met from [jl.rbegin()] to [jl.rend()]. *)
Definition relements (fuel : nat) (m : mem) (j : jump_list) : option (list T) :=
  e ← rend m j;
  rcollect fuel m (rbegin j) e.

(** ** Range insertion

    [template<class InputIt> void insert(InputIt first, InputIt last)]:
    [for (auto it = first; it != last; ++it) insert( *it );]
    [ocs k] is what the allocator does in the [k]-th call of [insert];
    an exception of that call leaves the loop. *)

(** The range is a sequence stored outside the container (an initializer
    list, an array, a vector). *)
Fixpoint insert_range (fuel : nat) (m : mem) (j : jump_list) (xs : list T)
    (ocs : nat → alloc_outcome) : option (mem * jump_list * completion unit) :=
  match xs with
  | [] => Some (m, j, Normal tt)
  | x :: xs' =>
    '(m, j, r) ← insert fuel m j x (ocs 0);
    match r with
    | BadAlloc => Some (m, j, BadAlloc)
    | Normal _ => insert_range fuel m j xs' (λ k, ocs (S k))
    end
  end.

(** The range is given by two iterators of a [jump_list] in the same
    memory; [n] bounds the number of tests of [it != last]. *)
Fixpoint insert_range_from (fuel n : nat) (m : mem) (j : jump_list)
    (first last : iterator) (ocs : nat → alloc_outcome)
  : option (mem * jump_list * completion unit) :=
  match n with
  | O => None
  | S n' =>
    if iterator_eq first last then Some (m, j, Normal tt) else
    x ← deref m first;
    '(m, j, r) ← insert fuel m j x (ocs 0);
    match r with
    | BadAlloc => Some (m, j, BadAlloc)
    | Normal _ =>
      first ← incr m first;
      insert_range_from fuel n' m j first last (λ k, ocs (S k))
    end
  end.

(** ** Construction, destruction and assignment *)

(** [~jump_list()]: [clear(); if (header) { destroy(header);
    deallocate(header); }] *)
Definition destroy (fuel : nat) (m : mem) (j : jump_list) : option mem :=
  '(m, j) ← clear fuel m j;
  Some (delete (header j) m).



(** [jump_list(jump_list&& other) noexcept]: the new object takes the
    members of [other], and [other] gets a new header, allocated at [a],
    level 0 and size 0.  The result is (memory, new object, [other]). *)
Definition construct_move (m : mem) (other : jump_list) (a : addr)
  : mem * jump_list * jump_list :=
  (<[a := Node_header MAX_LEVEL]> m,
   JumpList (header other) (level other) (size_ other) (rng other),
   JumpList a 0 0 (rng other)).

(** [operator=(const jump_list& other)] for [this != &other]:
    [clear(); comp = other.comp; insert(other.begin(), other.end());]
    (for [this == &other] the operator returns at once). *)
Definition assign_copy (fuel : nat) (m : mem) (this other : jump_list)
    (ocs : nat → alloc_outcome) : option (mem * jump_list * completion unit) :=
  '(m, this) ← clear fuel m this;
  b ← begin_ m other;
  insert_range_from fuel fuel m this b (end_ other) ocs.

(** [operator=(jump_list&& other) noexcept] for [this != &other]:
    [clear()], the header is destroyed and deallocated, the members of
    [other] are taken over, and [other] gets a new header, allocated at
    [a], level 0 and size 0.  The result is (memory, [*this], [other]). *)
Definition assign_move (fuel : nat) (m : mem) (this other : jump_list)
    (a : addr) : option (mem * jump_list * jump_list) :=
  '(m, this) ← clear fuel m this;
  let m := delete (header this) m in
  Some (<[a := Node_header MAX_LEVEL]> m,
        JumpList (header other) (level other) (size_ other) (rng other),
        JumpList a 0 0 (rng other)).

(** [operator=(std::initializer_list<T> init)]:
    [clear(); insert(init.begin(), init.end());] *)
Definition assign_list (fuel : nat) (m : mem) (this : jump_list) (xs : list T)
    (ocs : nat → alloc_outcome) : option (mem * jump_list * completion unit) :=
  '(m, this) ← clear fuel m this;
  insert_range fuel m this xs ocs.

(** * Representation

    The stored elements as the ordered list of their nodes: address,
    payload and height (the node's [forward] vector has [height + 1]
    slots). *)

Record tower := Tower {
  t_addr : addr;
  t_val : T;
  t_height : nat
}.

(** The first node of [l] that takes part in level [i]. *)
Fixpoint nxt (i : nat) (l : list tower) : ptr :=
  match l with
  | [] => None
  | t :: l' => if decide (i ≤ t_height t) then Some (t_addr t) else nxt i l'
  end.

(** The last node of [l] that takes part in level [i]; [d] when none does. *)
Fixpoint last_ge (i : nat) (d : addr) (l : list tower) : addr :=
  match l with
  | [] => d
  | t :: l' => last_ge i (if decide (i ≤ t_height t) then t_addr t else d) l'
  end.

(** The node of tower [t], with level-0 predecessor [prev] and followed by
    the towers [suffix]: at every level it takes part in, its forward link
    is the next tower of that level. *)
Definition node_at (m : mem) (prev : addr) (t : tower) (suffix : list tower)
  : Prop :=
  get_data m (t_addr t) = Some (t_val t) ∧
  get_backward m (t_addr t) = Some (Some prev) ∧
  ∀ i, get_forward m (t_addr t) i =
       if decide (i ≤ t_height t) then Some (nxt i suffix) else None.

Definition nodes_ok (m : mem) (hd : addr) (l : list tower) : Prop :=
  ∀ A t B, l = A ++ t :: B → node_at m (last_ge 0 hd A) t B.

(** The header: no payload, [MAX_LEVEL + 1] forward links, each to the
    first tower of its level, and the tail cached in [backward] (null, or
    the header itself, when the container is empty). *)
Definition header_at (m : mem) (hd : addr) (l : list tower) : Prop :=
  is_Some (m !! hd) ∧
  get_data m hd = None ∧
  (∀ i, get_forward m hd i =
        if decide (i ≤ MAX_LEVEL) then Some (nxt i l) else None) ∧
  (get_backward m hd = Some (Some (last_ge 0 hd l)) ∨
   (l = [] ∧ get_backward m hd = Some None)).

Definition ascending (l : list tower) : Prop :=
  StronglySorted (λ a b, comp (t_val a) (t_val b) = true) l.

(** The structural invariant of a container [j] in memory [m] that stores
    the towers [l]. *)
Record Inv (m : mem) (j : jump_list) (l : list tower) : Prop := {
  inv_header : header_at m (header j) l;
  inv_nodes : nodes_ok m (header j) l;
  inv_nodup : NoDup (header j :: map t_addr l);
  inv_heights : Forall (λ t, t_height t ≤ level j) l;
  inv_level : level j ≤ MAX_LEVEL;
  inv_sorted : ascending l
}.

(** [level] is the smallest value above which the header has no links. *)
Definition level_minimal (j : jump_list) (l : list tower) : Prop :=
  level j = 0 ∨ nxt (level j) l ≠ None.

(** [size_] counts the stored elements. *)
Definition size_ok (j : jump_list) (l : list tower) : Prop :=
  size_ j = N.of_nat (length l) ∧ (N.of_nat (length l) < SIZE_MOD)%N.

(** Comparator equivalence: neither is ordered before the other. *)
Definition equiv (x y : T) : Prop := comp x y = false ∧ comp y x = false.

(** The comparator is a strict weak ordering. *)
Class StrictWeakOrder : Prop := {
  swo_irrefl : ∀ x, comp x x = false;
  swo_trans : ∀ x y z, comp x y = true → comp y z = true → comp x z = true;
  swo_equiv_trans : ∀ x y z, equiv x y → equiv y z → equiv x z
}.

(** * Sequences of public operations

    A program drives a container by calls of its public mutators.  The
    allocator only hands out addresses that hold no live object; a call
    that raises the exception of a failed node creation leaves the
    container to the caller like a call that returns. *)

Inductive op : Type :=
| OpInsert (value : T) (oc : alloc_outcome)
| OpErase (pos : iterator)
| OpEraseRange (first last : iterator)
| OpEraseKey (key : T)
| OpClear.

Definition is_free (m : mem) (a : addr) : bool :=
  match m !! a with
  | None => true
  | Some _ => false
  end.

Definition alloc_fresh (m : mem) (oc : alloc_outcome) : bool :=
  match oc with
  | AllocFails => true
  | ConstructFails a => is_free m a
  | AllocOk a => is_free m a
  end.

Definition step (fuel : nat) (o : op) (s : mem * jump_list)
  : option (mem * jump_list) :=
  let '(m, j) := s in
  match o with
  | OpInsert value oc =>
    if alloc_fresh m oc
    then '(m', j', _) ← insert fuel m j value oc; Some (m', j')
    else None
  | OpErase pos =>
    '(m', j', _) ← erase fuel m j pos; Some (m', j')
  | OpEraseRange first last =>
    '(m', j', _) ← erase_range fuel m j first last; Some (m', j')
  | OpEraseKey key =>
    '(m', j', _) ← erase_key fuel m j key; Some (m', j')
  | OpClear => clear fuel m j
  end.

Fixpoint run (fuel : nat) (ops : list op) (s : mem * jump_list)
  : option (mem * jump_list) :=
  match ops with
  | [] => Some s
  | o :: ops' => s' ← step fuel o s; run fuel ops' s'
  end.

(** Draws that succeed in a row from position [g], at most [n]: the level
    the generator returns. *)
Fixpoint successes (n g : nat) : nat :=
  match n with
  | O => O
  | S n' => if draws g then S (successes n' (S g)) else O
  end.

(** The towers a comparison mode [go] of the traversal passes, and those
    it stops at. *)
Definition passes (go : T → bool) (A : list tower) : Prop :=
  Forall (λ t, go (t_val t) = true) A.
Definition stops (go : T → bool) (A : list tower) : Prop :=
  Forall (λ t, go (t_val t) = false) A.

(** A comparison mode is downward closed along the order. *)
Definition down_closed (go : T → bool) : Prop :=
  ∀ x y, comp x y = true → go y = true → go x = true.

(** The successor whose [backward] link a splice rewrites: the first tower
    of [rest], or the header when there is none. *)
Definition succ_of (hd : addr) (rest : list tower) : addr :=
  default hd (nxt 0 rest).

(** The invariants of the data model together. *)
Definition WF (m : mem) (j : jump_list) (l : list tower) : Prop :=
  Inv m j l ∧ level_minimal j l ∧ size_ok j l.

(** The level-0 chain from pointer [p]: the payloads met on the way to
    the null pointer. *)
Fixpoint chain (m : mem) (p : ptr) (xs : list T) : Prop :=
  match xs with
  | [] => p = None
  | x :: xs' =>
    ∃ a q, p = Some a ∧ get_data m a = Some x ∧
           get_forward m a 0 = Some q ∧ chain m q xs'
  end.

(** Two sequences of the same length whose elements are pairwise equal
    under [operator==] of the element type. *)
Fixpoint equal_lists (xs ys : list T) : bool :=
  match xs, ys with
  | [], [] => true
  | x :: xs', y :: ys' => eqT x y && equal_lists xs' ys'
  | _, _ => false
  end.

(** Lexicographic order of two sequences under [operator<] of the
    element type: the first mismatch decides, a proper prefix is less. *)
Fixpoint lex_less (xs ys : list T) : bool :=
  match xs, ys with
  | _, [] => false
  | [], _ :: _ => true
  | x :: xs', y :: ys' =>
    if ltT x y then true
    else if ltT y x then false
    else lex_less xs' ys'
  end.

(** The objects a container owns: its header and the nodes of its
    towers. *)
Definition footprint (j : jump_list) (l : list tower) : list addr :=
  header j :: map t_addr l.

(** What a call that stores no new element may do to a container that
    stored [l] in [m] and stores [l'] in [m'] afterwards: towers go but
    none comes, objects the container does not own stay as they are,
    nothing is allocated, the invariants on [size_] and [level] are
    kept, and the objects the container no longer owns are released. *)
Definition shrinks (m : mem) (j : jump_list) (l : list tower)
    (m' : mem) (j' : jump_list) (l' : list tower) : Prop :=
  header j' = header j ∧ rng j' = rng j ∧
  l' `sublist_of` l ∧
  (∀ p, p ∉ footprint j l → m' !! p = m !! p) ∧
  (∀ p, is_Some (m' !! p) → is_Some (m !! p)) ∧
  (size_ok j l → size_ok j' l') ∧
  (level_minimal j l → level_minimal j' l') ∧
  (∀ p, p ∈ footprint j l → p ∉ footprint j' l' → m' !! p = None).

(** ** The container as a sorted sequence

    A reference model of the modifiers on the sequence of stored values:
    [insert_sorted] puts a value at its place unless an equivalent one is
    there, [remove_equiv] drops the values equivalent to a key. *)
Fixpoint insert_sorted (v : T) (xs : list T) : list T :=
  match xs with
  | [] => [v]
  | x :: xs' =>
    if comp x v then x :: insert_sorted v xs'
    else if comp v x then v :: x :: xs'
    else x :: xs'
  end.

Definition remove_equiv (key : T) (xs : list T) : list T :=
  filter (λ x, comp x key || comp key x = true) xs.

(** The values of a range put into a sequence one after the other. *)
Definition insert_all (xs acc : list T) : list T :=
  foldl (λ acc x, insert_sorted x acc) acc xs.

(** An allocator that, during the first [n] calls of [insert], hands out
    only addresses that are not in use in [m], and none of them twice. *)
Definition fresh_oracle (m : mem) (n : nat) (ocs : nat → alloc_outcome)
  : Prop :=
  ∀ k, k < n →
    alloc_fresh m (ocs k) = true ∧
    ∀ k' a, k' < k → ocs k' = AllocOk a →
            ocs k ≠ AllocOk a ∧ ocs k ≠ ConstructFails a.

(** The allocator that hands out the addresses of a list in turn, one
    per call of [insert], and fails when the list is used up. *)
Definition supply (addrs : list addr) (k : nat) : alloc_outcome :=
  match addrs !! k with
  | Some a => AllocOk a
  | None => AllocFails
  end.

(** The effect of a call on the sequence of stored values; a call of
    [insert] whose node creation fails stores nothing. *)
Definition model_step (o : op) (xs : list T) : option (list T) :=
  match o with
  | OpInsert value (AllocOk _) => Some (insert_sorted value xs)
  | OpInsert value _ => Some xs
  | OpEraseKey key => Some (remove_equiv key xs)
  | OpClear => Some []
  | OpErase _ | OpEraseRange _ _ => None
  end.

Fixpoint model_run (ops : list op) (xs : list T) : option (list T) :=
  match ops with
  | [] => Some xs
  | o :: ops' => xs' ← model_step o xs; model_run ops' xs'
  end.

(** A call in which no node creation fails. *)
Definition no_failure (o : op) : bool :=
  match o with
  | OpInsert _ AllocFails | OpInsert _ (ConstructFails _) => false
  | _ => true
  end.

(** The addresses the allocator hands out in a sequence of calls. *)
Fixpoint alloc_addrs (ops : list op) : list addr :=
  match ops with
  | OpInsert _ (AllocOk a) :: ops' => a :: alloc_addrs ops'
  | OpInsert _ (ConstructFails a) :: ops' => a :: alloc_addrs ops'
  | _ :: ops' => alloc_addrs ops'
  | [] => []
  end.

End JumpList.

Arguments AllocOk a%_positive.
Arguments ConstructFails a%_positive.
Arguments Tower {T} t_addr%_positive t_val t_height%_nat.
Arguments JumpList header%_positive level%_nat size_%_N rng%_nat.

(** * Concrete containers

    Containers of integers under [std::less<int>] ([Z.ltb]), built by the
    operations above from an empty memory, with a fixed sequence of draws
    and the allocator handing out the addresses [2, 3, ...]. *)

Definition ex_draws (n : nat) : bool :=
  Nat.eqb (n mod 3) 0 || Nat.eqb (n mod 7) 1.

Definition ex_fuel : nat := 40.

(** [jump_list<int> jl;] with its header at address 1. *)
Definition ex_empty : gmap positive (@Node Z) * jump_list :=
  construct ∅ 1.

(** [jl.insert({1, 3, 5, 7, 9});] *)
Definition ex_ops : list (@op Z) :=
  [OpInsert 1 (AllocOk 2); OpInsert 3 (AllocOk 3); OpInsert 5 (AllocOk 4);
   OpInsert 7 (AllocOk 5); OpInsert 9 (AllocOk 6)]%Z.

Definition ex_state : gmap positive (@Node Z) * jump_list :=
  Eval vm_compute in
    default ex_empty (run Z.ltb ex_draws ex_fuel ex_ops ex_empty).

Definition ex_towers : list (@tower Z) :=
  [Tower 2 1%Z 2; Tower 3 3%Z 1; Tower 4 5%Z 0; Tower 5 7%Z 1; Tower 6 9%Z 2].

(** The iterator of [jl] at the node stored at address [a]. *)
Definition ex_it (a : positive) : iterator := Iterator (Some a) (Some 1%positive).

(** [jump_list<int> jl; jl.insert(5);] *)
Definition ex_single : gmap positive (@Node Z) * jump_list :=
  Eval vm_compute in
    default ex_empty (run Z.ltb ex_draws ex_fuel [OpInsert 5%Z (AllocOk 2)] ex_empty).

(** A longer history: inserts with a duplicate, a clear, a failed node
    creation, and the three forms of erase. *)
Definition ex_history : list (@op Z) :=
  [OpInsert 5 (AllocOk 2); OpInsert 3 (AllocOk 3); OpClear;
   OpInsert 5 (AllocOk 2); OpInsert 3 (AllocOk 3); OpInsert 8 (AllocOk 4);
   OpInsert 1 (AllocOk 5); OpInsert 7 (AllocOk 6); OpInsert 3 (AllocOk 7);
   OpInsert 4 AllocFails; OpEraseKey 8;
   OpErase (ex_it 3); OpEraseRange (ex_it 5) (ex_it 6);
   OpInsert 6 (AllocOk 7)]%Z.

Definition ex_history_state : gmap positive (@Node Z) * jump_list :=
  Eval vm_compute in
    default ex_empty (run Z.ltb ex_draws ex_fuel ex_history ex_empty).

(** Calls that name values only, with a duplicate, a failed node creation
    and an absent key; the allocator hands out the addresses [11, 12, ...]. *)
Definition ex_calls : list (@op Z) :=
  [OpInsert 5 (AllocOk 11); OpInsert 3 (AllocOk 12); OpInsert 8 (AllocOk 13);
   OpInsert 3 (AllocOk 14); OpInsert 1 AllocFails; OpEraseKey 5;
   OpInsert 7 (AllocOk 15); OpEraseKey 2; OpClear;
   OpInsert 4 (AllocOk 16); OpInsert 2 (AllocOk 17)]%Z.

(** Two containers in one memory: [{1, 2}] with its header at address 1
    and [{10, 20}] with its header at address 2. *)
Definition ex_two : gmap positive (@Node Z) * (jump_list * jump_list) :=
  Eval vm_compute in
    let '(m, a) := construct ∅ 1 in
    let '(m, b) := construct m 2 in
    let go ops s := default s (run Z.ltb ex_draws ex_fuel ops s) in
    let '(m, a) := go [OpInsert 1 (AllocOk 3); OpInsert 2 (AllocOk 4)]%Z (m, a) in
    let '(m, b) := go [OpInsert 10 (AllocOk 5); OpInsert 20 (AllocOk 6)]%Z (m, b) in
    (m, (a, b)).

Definition ex_two_a : list (@tower Z) := [Tower 3 1%Z 2; Tower 4 2%Z 1].
Definition ex_two_b : list (@tower Z) := [Tower 5 10%Z 2; Tower 6 20%Z 1].

(** Three containers in one memory: [{1,2,3}], [{1,2,4}] and [{1,2,3,4}],
    with headers at the addresses 1, 2 and 3. *)
Definition ex_three
  : gmap positive (@Node Z) * (jump_list * jump_list * jump_list) :=
  Eval vm_compute in
    let '(m, a) := construct ∅ 1 in
    let '(m, b) := construct m 2 in
    let '(m, c) := construct m 3 in
    let go ops s := default s (run Z.ltb ex_draws ex_fuel ops s) in
    let '(m, a) := go [OpInsert 1 (AllocOk 4); OpInsert 2 (AllocOk 5);
                       OpInsert 3 (AllocOk 6)]%Z (m, a) in
    let '(m, b) := go [OpInsert 1 (AllocOk 7); OpInsert 2 (AllocOk 8);
                       OpInsert 4 (AllocOk 9)]%Z (m, b) in
    let '(m, c) := go [OpInsert 1 (AllocOk 10); OpInsert 2 (AllocOk 11);
                       OpInsert 3 (AllocOk 12); OpInsert 4 (AllocOk 13)]%Z
                      (m, c) in
    (m, (a, b, c)).

(** Pairs ordered by their first component only, as with a map-like
    element type and a key comparator; [operator==] of [std::pair]
    compares both components. *)
Definition key_less (a b : Z * Z) : bool := (a.1 <? b.1)%Z.
Definition pair_eq (a b : Z * Z) : bool := (a.1 =? b.1)%Z && (a.2 =? b.2)%Z.
Definition pair_less (a b : Z * Z) : bool :=
  (a.1 <? b.1)%Z || ((a.1 =? b.1)%Z && (a.2 <? b.2)%Z).

(** Two such containers in one memory: [{(1,1)}] and [{(1,2)}]. *)
Definition ex_pairs
  : gmap positive (@Node (Z * Z)) * (jump_list * jump_list) :=
  Eval vm_compute in
    let '(m, a) := construct ∅ 1 in
    let '(m, b) := construct m 2 in
    let go ops s := default s (run key_less ex_draws ex_fuel ops s) in
    let '(m, a) := go [OpInsert (1, 1)%Z (AllocOk 3)] (m, a) in
    let '(m, b) := go [OpInsert (1, 2)%Z (AllocOk 4)] (m, b) in
    (m, (a, b)).


Opaque MAX_LEVEL.

Section Verification.
Context {T : Type}.
Variable comp : T → T → bool.

Implicit Types (m : gmap positive (@Node T)) (l pre rest : list (@tower T)).
Implicit Types (t : @tower T) (p a hd d : positive) (q : option positive).
Implicit Types (A B : list (@tower T)) (go : T → bool) (j : jump_list).

(** ** Reading memory after a write *)

Lemma get_forward_insert m p nd a k :
  get_forward (<[p:=nd]> m) a k =
  if decide (a = p) then forward nd !! k else get_forward m a k.
Proof.
  unfold get_forward. destruct (decide (a = p)) as [->|Hne].
  - by rewrite lookup_insert_eq.
  - by rewrite lookup_insert_ne.
Qed.

Lemma get_data_insert m p nd a :
  get_data (<[p:=nd]> m) a = if decide (a = p) then data nd else get_data m a.
Proof.
  unfold get_data. destruct (decide (a = p)) as [->|Hne].
  - by rewrite lookup_insert_eq.
  - by rewrite lookup_insert_ne.
Qed.

Lemma get_backward_insert m p nd a :
  get_backward (<[p:=nd]> m) a =
  if decide (a = p) then Some (backward nd) else get_backward m a.
Proof.
  unfold get_backward. destruct (decide (a = p)) as [->|Hne].
  - by rewrite lookup_insert_eq.
  - by rewrite lookup_insert_ne.
Qed.

Lemma get_forward_delete m p a k :
  get_forward (delete p m) a k = if decide (a = p) then None else get_forward m a k.
Proof.
  unfold get_forward. destruct (decide (a = p)) as [->|Hne].
  - by rewrite lookup_delete_eq.
  - by rewrite lookup_delete_ne.
Qed.

Lemma get_data_delete m p a :
  get_data (delete p m) a = if decide (a = p) then None else get_data m a.
Proof.
  unfold get_data. destruct (decide (a = p)) as [->|Hne].
  - by rewrite lookup_delete_eq.
  - by rewrite lookup_delete_ne.
Qed.

Lemma get_backward_delete m p a :
  get_backward (delete p m) a = if decide (a = p) then None else get_backward m a.
Proof.
  unfold get_backward. destruct (decide (a = p)) as [->|Hne].
  - by rewrite lookup_delete_eq.
  - by rewrite lookup_delete_ne.
Qed.

Lemma get_forward_live m p i q : get_forward m p i = Some q → is_Some (m !! p).
Proof. unfold get_forward. destruct (m !! p); [eauto|done]. Qed.

Lemma get_backward_live m p : is_Some (get_backward m p) ↔ is_Some (m !! p).
Proof. unfold get_backward. destruct (m !! p); simpl; split; intros [? ?]; eauto; done. Qed.

Lemma get_forward_fresh m p i : m !! p = None → get_forward m p i = None.
Proof. unfold get_forward. by intros ->. Qed.

Lemma get_data_fresh m p : m !! p = None → get_data m p = None.
Proof. unfold get_data. by intros ->. Qed.

Lemma get_backward_fresh m p : m !! p = None → get_backward m p = None.
Proof. unfold get_backward. by intros ->. Qed.

(** A successful [p->forward[i] = q] changes that one link only. *)
Lemma set_forward_spec m p i q :
  is_Some (get_forward m p i) →
  ∃ m', set_forward m p i q = Some m' ∧
    (∀ a k, get_forward m' a k =
            if decide (a = p ∧ k = i) then Some q else get_forward m a k) ∧
    (∀ a, get_data m' a = get_data m a) ∧
    (∀ a, get_backward m' a = get_backward m a) ∧
    (∀ a, is_Some (m' !! a) ↔ is_Some (m !! a)).
Proof.
  intros [x Hx]. unfold get_forward in Hx. unfold set_forward, vec_set.
  destruct (m !! p) as [nd|] eqn:Hnd; [|done]. simpl in *.
  assert (i < length (forward nd)) by (by eapply lookup_lt_Some).
  rewrite decide_True by done. simpl. eexists. split; [done|].
  split; [|split; [|split]].
  - intros a k. rewrite get_forward_insert. simpl.
    destruct (decide (a = p)) as [->|Hne].
    + destruct (decide (k = i)) as [->|Hk].
      * rewrite decide_True by done. by apply list_lookup_insert_eq.
      * rewrite decide_False by (intuition congruence).
        rewrite list_lookup_insert_ne by done. unfold get_forward. by rewrite Hnd.
    + rewrite decide_False by (intuition congruence). done.
  - intros a. rewrite get_data_insert. case_decide; [subst|done].
    unfold get_data. by rewrite Hnd.
  - intros a. rewrite get_backward_insert. case_decide; [subst|done].
    unfold get_backward. by rewrite Hnd.
  - intros a. destruct (decide (a = p)) as [->|Hne].
    + rewrite lookup_insert_eq, Hnd. split; eauto.
    + by rewrite lookup_insert_ne.
Qed.

(** A successful [p->backward = q] changes that one link only. *)
Lemma set_backward_spec m p q :
  is_Some (m !! p) →
  ∃ m', set_backward m p q = Some m' ∧
    (∀ a k, get_forward m' a k = get_forward m a k) ∧
    (∀ a, get_data m' a = get_data m a) ∧
    (∀ a, get_backward m' a =
          if decide (a = p) then Some q else get_backward m a) ∧
    (∀ a, is_Some (m' !! a) ↔ is_Some (m !! a)).
Proof.
  unfold set_backward. intros [nd Hnd]. rewrite Hnd. simpl.
  eexists. split; [done|]. split; [|split; [|split]].
  - intros a k. rewrite get_forward_insert. case_decide; [subst|done].
    unfold get_forward. by rewrite Hnd.
  - intros a. rewrite get_data_insert. case_decide; [subst|done].
    unfold get_data. by rewrite Hnd.
  - intros a. rewrite get_backward_insert. by case_decide.
  - intros a. destruct (decide (a = p)) as [->|Hne].
    + rewrite lookup_insert_eq, Hnd. split; eauto.
    + by rewrite lookup_insert_ne.
Qed.


(** ** Levels of a tower list *)

Lemma nxt_app i A B :
  nxt i (A ++ B) = match nxt i A with Some a => Some a | None => nxt i B end.
Proof.
  induction A as [|t A IH]; simpl; [done|].
  case_decide; [done|]. apply IH.
Qed.

Lemma nxt_None i l : nxt i l = None ↔ Forall (λ t, t_height t < i) l.
Proof.
  induction l as [|t l IH]; simpl.
  - split; [constructor|done].
  - rewrite Forall_cons. case_decide; [|rewrite IH]; split; try done.
    + intros [? ?]. lia.
    + intros ?. split; [lia|done].
    + (intuition congruence).
Qed.

Lemma nxt_Some i l n :
  nxt i l = Some n →
  ∃ A t B, l = A ++ t :: B ∧ t_addr t = n ∧ i ≤ t_height t ∧
           Forall (λ t, t_height t < i) A.
Proof.
  induction l as [|t l IH]; simpl; [done|].
  case_decide as Hi.
  - intros [= <-]. exists [], t, l. by repeat split.
  - intros (A & t' & B & -> & ? & ? & ?)%IH.
    exists (t :: A), t', B. repeat split; [done..|].
    constructor; [lia|done].
Qed.

Lemma last_ge_app i d A B : last_ge i d (A ++ B) = last_ge i (last_ge i d A) B.
Proof. revert d. induction A as [|t A IH]; intros d; simpl; [done|]. apply IH. Qed.

Lemma last_ge_low i d l : Forall (λ t, t_height t < i) l → last_ge i d l = d.
Proof.
  revert d. induction l as [|t l IH]; intros d; simpl; [done|].
  rewrite Forall_cons. intros [? ?]. rewrite decide_False by lia. by apply IH.
Qed.

Lemma last_ge_cases i d l :
  (last_ge i d l = d ∧ Forall (λ t, t_height t < i) l) ∨
  (∃ A t B, l = A ++ t :: B ∧ i ≤ t_height t ∧
            Forall (λ t, t_height t < i) B ∧ last_ge i d l = t_addr t).
Proof.
  induction l as [|t l IH] using rev_ind.
  - left. by split.
  - rewrite last_ge_app. simpl. destruct (decide (i ≤ t_height t)) as [Hi|Hi].
    + right. exists l, t, []. by repeat split.
    + destruct IH as [[Hd Hl]|(A & t' & B & -> & ? & ? & ?)].
      * left. split; [done|]. rewrite Forall_app, Forall_singleton. split; [done|lia].
      * right. exists A, t', (B ++ [t]). rewrite <- app_assoc. simpl.
        repeat split; [done| |done].
        rewrite Forall_app, Forall_singleton. split; [done|lia].
Qed.

Lemma last_ge_elem i d l :
  last_ge i d l = d ∨ ∃ t, t ∈ l ∧ t_addr t = last_ge i d l ∧ i ≤ t_height t.
Proof.
  destruct (last_ge_cases i d l) as [[? ?]|(A & t & B & -> & ? & ? & ?)]; [by left|].
  right. exists t. split; [|done]. rewrite elem_of_app, elem_of_cons. auto.
Qed.

(** With distinct addresses, the last tower of a level is the one that no
    later tower of the level follows. *)
Lemma last_ge_here i d A t B :
  NoDup (d :: map t_addr (A ++ t :: B)) →
  last_ge i d (A ++ t :: B) = t_addr t ↔ (i ≤ t_height t ∧ nxt i B = None).
Proof.
  intros Hnd. rewrite last_ge_app. simpl.
  rewrite NoDup_cons, map_app, NoDup_app in Hnd.
  destruct Hnd as (Hd & _ & HAB & HtB).
  simpl in *. rewrite NoDup_cons in HtB. destruct HtB as [HtB _].
  set (d' := if decide (i ≤ t_height t) then t_addr t else last_ge i d A).
  destruct (last_ge_cases i d' B)
    as [[Heq Hlow]|(A' & t' & B' & -> & Hi' & _ & Heq)]; rewrite Heq.
  - apply nxt_None in Hlow. unfold d'.
    destruct (decide (i ≤ t_height t)) as [Hi|Hi]; [done|].
    split; [|intros [? _]; lia]. intros Hbad. exfalso.
    destruct (last_ge_elem i d A) as [Hd'|(t' & Hin & Ha & _)].
    + rewrite Hd' in Hbad. apply Hd. rewrite Hbad, elem_of_app.
      right. left.
    + apply (HAB (t_addr t')).
      * apply list_elem_of_fmap. eauto.
      * rewrite Ha, Hbad. left.
  - split.
    + intros Hbad. exfalso. apply HtB. rewrite <- Hbad.
      apply list_elem_of_fmap. exists t'. split; [done|].
      rewrite elem_of_app, elem_of_cons. auto.
    + intros [_ Hn%nxt_None]. rewrite Forall_app, Forall_cons in Hn.
      destruct Hn as (_ & ? & _). lia.
Qed.

(** The header precedes every level whose towers are all lower. *)
Lemma last_ge_header i d l :
  NoDup (d :: map t_addr l) → last_ge i d l = d ↔ nxt i l = None.
Proof.
  intros Hnd. rewrite NoDup_cons in Hnd. destruct Hnd as [Hd _].
  destruct (last_ge_cases i d l)
    as [[Heq Hlow]|(A' & t' & B' & -> & Hi' & _ & Heq)]; rewrite Heq.
  - by apply nxt_None in Hlow.
  - split.
    + intros Hbad. exfalso. apply Hd. rewrite <- Hbad.
      apply list_elem_of_fmap. exists t'. split; [done|].
      rewrite elem_of_app, elem_of_cons. auto.
    + intros Hn%nxt_None. rewrite Forall_app, Forall_cons in Hn.
      destruct Hn as (_ & ? & _). lia.
Qed.

(** ** The traversal on a well-formed container *)


(** One level: from a node whose level-[i] link leads into [B ++ rest], the
    walk passes the towers of [B] and stops before [rest]. *)
Lemma walk_spec m go i hd l rest B :
  nodes_ok m hd l → stops go rest →
  ∀ A cur fuel,
    l = A ++ B ++ rest →
    get_forward m cur i = Some (nxt i (B ++ rest)) →
    passes go B →
    length B < fuel →
    walk fuel m go i cur = Some (last_ge i cur B).
Proof.
  intros Hok Hstop. induction B as [|t B IH]; intros A cur fuel Hl Hfw Hpass Hfuel.
  - destruct fuel as [|fuel]; [simpl in Hfuel; lia|]. simpl in *.
    rewrite Hfw. simpl. destruct (nxt i rest) as [n|] eqn:Hn; [|done].
    apply nxt_Some in Hn as (R1 & t & R2 & -> & <- & _ & _).
    destruct (Hok (A ++ R1) t R2) as (Hdata & _); [by rewrite <- app_assoc|].
    rewrite Hdata. simpl.
    unfold stops in Hstop. rewrite Forall_app, Forall_cons in Hstop.
    destruct Hstop as (_ & -> & _). done.
  - destruct fuel as [|fuel]; [simpl in Hfuel; lia|].
    apply Forall_cons in Hpass as [Hgo Hpass].
    destruct (Hok A t (B ++ rest)) as (Hdata & _ & Hfwt); [done|].
    simpl in Hfw |- *. destruct (decide (i ≤ t_height t)) as [Hi|Hi].
    + rewrite Hfw. simpl. rewrite Hdata. simpl. rewrite Hgo.
      apply (IH (A ++ [t])).
      * by rewrite <- app_assoc.
      * rewrite Hfwt. by rewrite decide_True.
      * done.
      * simpl in Hfuel. lia.
    + change (walk (S fuel) m go i cur = Some (last_ge i cur B)).
      apply (IH (A ++ [t])).
      * by rewrite <- app_assoc.
      * done.
      * done.
      * simpl in Hfuel. lia.
Qed.

(** One level of the descent: entering level [i] at the last tower of
    [pre] that reaches level [i + 1], the walk ends at the last tower of
    [pre] that reaches level [i]. *)
Lemma walk_level m go j l pre rest i fuel :
  Inv comp m j l → l = pre ++ rest → passes go pre → stops go rest →
  length l < fuel → i ≤ MAX_LEVEL →
  walk fuel m go i (last_ge (S i) (header j) pre) =
  Some (last_ge i (header j) pre).
Proof.
  intros HI Hl Hpass Hstop Hfuel Hi.
  destruct (last_ge_cases (S i) (header j) pre)
    as [[Heq Hlow]|(A & t & B & -> & Hti & Hlow & Heq)]; rewrite Heq.
  - rewrite (walk_spec m go i (header j) l rest pre (inv_nodes _ _ _ _ HI) Hstop []).
    + done.
    + done.
    + destruct (inv_header _ _ _ _ HI) as (_ & _ & Hfw & _).
      rewrite Hfw, decide_True by done. by rewrite Hl.
    + done.
    + rewrite Hl, length_app in Hfuel. lia.
  - rewrite (walk_spec m go i (header j) l rest B (inv_nodes _ _ _ _ HI) Hstop
               (A ++ [t])).
    + f_equal. rewrite last_ge_app. simpl. rewrite decide_True by lia. done.
    + rewrite Hl, <- !app_assoc. done.
    + destruct (inv_nodes _ _ _ _ HI A t (B ++ rest)) as (_ & _ & Hfw).
      { rewrite Hl, <- !app_assoc. done. }
      rewrite Hfw, decide_True by lia. done.
    + unfold passes in *. rewrite Forall_app, Forall_cons in Hpass. tauto.
    + rewrite Hl, !length_app in Hfuel. simpl in Hfuel. lia.
Qed.

Lemma last_ge_top j l pre rest i :
  Forall (λ t, t_height t ≤ level j) l → l = pre ++ rest → level j < i →
  last_ge i (header j) pre = header j.
Proof.
  intros Hh -> Hi. apply last_ge_low. rewrite Forall_app in Hh.
  destruct Hh as [Hh _]. eapply Forall_impl; [exact Hh|]. simpl. intros; lia.
Qed.

(** The descent of [find], [lower_bound] and [upper_bound] ends at the last
    tower that passes, or at the header. *)
Lemma search_spec m go j l pre rest fuel :
  Inv comp m j l → l = pre ++ rest → passes go pre → stops go rest →
  length l < fuel →
  search fuel m go (level j) (header j) = Some (last_ge 0 (header j) pre).
Proof.
  intros HI Hl Hpass Hstop Hfuel.
  assert (Hgen : ∀ i, i ≤ MAX_LEVEL →
    search fuel m go i (last_ge (S i) (header j) pre)
    = Some (last_ge 0 (header j) pre)).
  { induction i as [|i IH]; intros Hi; simpl.
    - rewrite (walk_level m go j l pre rest 0 fuel) by (done || lia). done.
    - rewrite (walk_level m go j l pre rest (S i) fuel) by (done || lia). simpl.
      apply IH. lia. }
  specialize (Hgen (level j) (inv_level _ _ _ _ HI)).
  rewrite (last_ge_top j l pre rest (S (level j)) (inv_heights _ _ _ _ HI) Hl)
    in Hgen by lia.
  done.
Qed.

(** The same descent recording the update trail: for every level up to the
    container's, the last tower of [pre] on that level, or the header. *)
Lemma search_update_spec m go j l pre rest fuel :
  Inv comp m j l → l = pre ++ rest → passes go pre → stops go rest →
  length l < fuel →
  ∃ update,
    search_update fuel m go (level j) (header j) update_init
    = Some (update, last_ge 0 (header j) pre) ∧
    length update = S MAX_LEVEL ∧
    (∀ k, k ≤ level j → update !! k = Some (Some (last_ge k (header j) pre))) ∧
    (∀ k, level j < k → k ≤ MAX_LEVEL → update !! k = Some None).
Proof.
  intros HI Hl Hpass Hstop Hfuel.
  pose proof (inv_level _ _ _ _ HI) as Hlev.
  assert (Hgen : ∀ i upd0, i ≤ MAX_LEVEL → length upd0 = S MAX_LEVEL →
    ∃ update,
      search_update fuel m go i (last_ge (S i) (header j) pre) upd0
      = Some (update, last_ge 0 (header j) pre) ∧
      length update = S MAX_LEVEL ∧
      (∀ k, k ≤ i → update !! k = Some (Some (last_ge k (header j) pre))) ∧
      (∀ k, i < k → update !! k = upd0 !! k)).
  { induction i as [|i IH]; intros upd0 Hi Hlen; simpl.
    - rewrite (walk_level m go j l pre rest 0 fuel) by (done || lia). simpl.
      unfold vec_set. rewrite decide_True by lia. simpl.
      eexists. split; [done|]. split; [by rewrite length_insert|]. split.
      + intros k Hk. assert (k = 0) as -> by lia.
        apply list_lookup_insert_eq. lia.
      + intros k Hk. apply list_lookup_insert_ne. lia.
    - rewrite (walk_level m go j l pre rest (S i) fuel) by (done || lia). simpl.
      unfold vec_set. rewrite decide_True by lia. simpl.
      destruct (IH (<[S i:=Some (last_ge (S i) (header j) pre)]> upd0))
        as (update & Heq & Hlen' & Hlow & Hhigh); [lia|by rewrite length_insert|].
      exists update. split; [done|]. split; [done|]. split.
      + intros k Hk. destruct (decide (k = S i)) as [->|Hne].
        * rewrite Hhigh by lia. apply list_lookup_insert_eq. lia.
        * apply Hlow. lia.
      + intros k Hk. rewrite Hhigh by lia. apply list_lookup_insert_ne. lia. }
  destruct (Hgen (level j) update_init) as (update & Heq & Hlen & Hlow & Hhigh);
    [done|unfold update_init; rewrite length_replicate; lia|].
  rewrite (last_ge_top j l pre rest (S (level j)) (inv_heights _ _ _ _ HI) Hl)
    in Heq by lia.
  exists update. repeat split; [done..|].
  intros k Hk1 Hk2. rewrite Hhigh by done.
  apply lookup_replicate_2. lia.
Qed.

(** The level-[i] link of the last tower of [pre] on level [i] leads to the
    first tower of [rest] on that level. *)
Lemma get_forward_last m j l pre rest i :
  Inv comp m j l → l = pre ++ rest → i ≤ MAX_LEVEL →
  get_forward m (last_ge i (header j) pre) i = Some (nxt i rest).
Proof.
  intros HI Hl Hi.
  destruct (last_ge_cases i (header j) pre)
    as [[Heq Hlow]|(A & t & B & -> & Hti & Hlow & Heq)]; rewrite Heq.
  - destruct (inv_header _ _ _ _ HI) as (_ & _ & Hfw & _).
    rewrite Hfw, decide_True by done. rewrite Hl, nxt_app.
    apply nxt_None in Hlow. by rewrite Hlow.
  - destruct (inv_nodes _ _ _ _ HI A t (B ++ rest)) as (_ & _ & Hfw).
    { rewrite Hl, <- !app_assoc. done. }
    rewrite Hfw, decide_True by lia. rewrite nxt_app.
    apply nxt_None in Hlow. by rewrite Hlow.
Qed.

Lemma nxt_0 l : nxt 0 l = t_addr <$> head l.
Proof. by destruct l. Qed.

Lemma last_ge_0 d l : last_ge 0 d l = default d (t_addr <$> last l).
Proof.
  induction l as [|t l IH] using rev_ind; [done|].
  by rewrite last_ge_app, last_snoc.
Qed.

(** Payload of a stored node. *)
Lemma get_data_tower m j l t :
  Inv comp m j l → t ∈ l → get_data m (t_addr t) = Some (t_val t).
Proof.
  intros HI (A & B & ->)%list_elem_of_split.
  by destruct (inv_nodes _ _ _ _ HI A t B) as (? & _).
Qed.

Lemma get_forward_tower m j l A t B i :
  Inv comp m j l → l = A ++ t :: B →
  get_forward m (t_addr t) i =
  if decide (i ≤ t_height t) then Some (nxt i B) else None.
Proof.
  intros HI Hl. by destruct (inv_nodes _ _ _ _ HI A t B) as (_ & _ & ?).
Qed.

(** ** Consequences of the ordering *)

Section Ordering.
Context `{!StrictWeakOrder comp}.

Lemma comp_asym x y : comp x y = true → comp y x = false.
Proof.
  intros Hxy. destruct (comp y x) eqn:Hyx; [|done].
  pose proof (swo_trans _ _ _ _ Hxy Hyx) as Hxx.
  by rewrite swo_irrefl in Hxx.
Qed.

Lemma equiv_sym x y : equiv comp x y → equiv comp y x.
Proof. intros [? ?]. by split. Qed.

Lemma comp_equiv_l (x u v : T) :
  comp x u = true → equiv comp u v → comp x v = true.
Proof.
  intros Hxt Htv. destruct (comp x v) eqn:Hxv; [done|]. exfalso.
  destruct (comp v x) eqn:Hvx.
  - pose proof (swo_trans _ _ _ _ Hvx Hxt) as Hvt. destruct Htv. congruence.
  - assert (equiv comp x u) as [? _]; [|congruence].
    apply (swo_equiv_trans _ x v u); [split; assumption|by apply equiv_sym].
Qed.

Lemma comp_equiv_r (u y v : T) :
  comp u y = true → equiv comp u v → comp v y = true.
Proof.
  intros Hty Htv. destruct (comp v y) eqn:Hvy; [done|]. exfalso.
  destruct (comp y v) eqn:Hyv.
  - pose proof (swo_trans _ _ _ _ Hty Hyv) as Htv'. destruct Htv. congruence.
  - assert (equiv comp u y) as [? _]; [|congruence].
    apply (swo_equiv_trans _ u v y); [exact Htv|split; assumption].
Qed.

(** The two comparison modes of the traversal are downward closed along
    the order. *)

Lemma down_closed_before key : down_closed comp (λ x, comp x key).
Proof. intros x y Hxy Hy. by eapply swo_trans. Qed.

Lemma down_closed_not_after key : down_closed comp (λ x, negb (comp key x)).
Proof.
  intros x y Hxy Hy. apply negb_true_iff in Hy. apply negb_true_iff.
  destruct (comp key x) eqn:Hkx; [|done].
  by rewrite (swo_trans _ _ _ _ Hkx Hxy) in Hy.
Qed.

Lemma ascending_stops go t l :
  down_closed comp go → ascending comp (t :: l) → go (t_val t) = false →
  stops go (t :: l).
Proof.
  intros Hdc Hs Ht. apply StronglySorted_cons in Hs as [Hall _].
  constructor; [done|]. eapply Forall_impl; [exact Hall|]. simpl.
  intros y Hty. destruct (go (t_val y)) eqn:Hy; [|done].
  by rewrite (Hdc _ _ Hty Hy) in Ht.
Qed.

(** A sorted list splits into the towers that pass and those that do not. *)
Lemma ascending_split go l :
  down_closed comp go → ascending comp l →
  ∃ pre rest, l = pre ++ rest ∧ passes go pre ∧ stops go rest.
Proof.
  intros Hdc. induction l as [|t l IH]; intros Hs.
  - exists [], []. by repeat split; constructor.
  - destruct (go (t_val t)) eqn:Ht.
    + destruct IH as (pre & rest & -> & Hp & Hr).
      { by apply StronglySorted_cons in Hs as [_ ?]. }
      exists (t :: pre), rest. repeat split; [|done]. by constructor.
    + exists [], (t :: l). repeat split; [constructor|].
      by apply ascending_stops.
Qed.

(** The split is determined by the towers. *)
Lemma split_unique go pre rest pre' rest' :
  pre ++ rest = pre' ++ rest' →
  passes go pre → stops go rest → passes go pre' → stops go rest' →
  pre = pre' ∧ rest = rest'.
Proof.
  revert pre'. induction pre as [|t pre IH]; intros pre' Heq Hp Hr Hp' Hr'.
  - destruct pre' as [|t' pre']; [done|]. simpl in Heq. subst rest.
    apply Forall_cons in Hr as [Hr _]. apply Forall_cons in Hp' as [Hp' _].
    congruence.
  - apply Forall_cons in Hp as [Ht Hp]. destruct pre' as [|t' pre'].
    + simpl in Heq. subst rest'. apply Forall_cons in Hr' as [Hr' _]. congruence.
    + simpl in Heq. injection Heq as -> Heq.
      apply Forall_cons in Hp' as [_ Hp'].
      destruct (IH pre' Heq Hp Hr Hp' Hr') as [-> ->]. done.
Qed.

(** A stored tower equivalent to [v] heads the towers not before [v]. *)
Lemma ascending_equiv_split l A t B v :
  ascending comp l → l = A ++ t :: B → equiv comp (t_val t) v →
  passes (λ x, comp x v) A ∧ stops (λ x, comp x v) (t :: B).
Proof.
  intros Hs -> Heq. apply StronglySorted_app in Hs as (HAB & _ & HtB).
  apply StronglySorted_cons in HtB as [HtB _]. split.
  - apply Forall_forall. intros x Hx. eapply comp_equiv_l; [|exact Heq].
    apply HAB; [done|left].
  - constructor; [by destruct Heq|].
    eapply Forall_impl; [exact HtB|]. simpl. intros y Hty.
    apply comp_asym. by eapply comp_equiv_r.
Qed.

(** When the towers not before [v] start with a tower that is not
    equivalent to [v], no stored tower is equivalent to [v]. *)
Lemma ascending_no_equiv pre rest v :
  ascending comp (pre ++ rest) →
  passes (λ x, comp x v) pre → stops (λ x, comp x v) rest →
  (∀ t, head rest = Some t → comp v (t_val t) = true) →
  ∀ t, t ∈ pre ++ rest → ¬ equiv comp (t_val t) v.
Proof.
  intros Hs Hp Hr Hhd t Hin [Htv Hvt]. apply elem_of_app in Hin as [Hin|Hin].
  - unfold passes in Hp. rewrite Forall_forall in Hp. rewrite (Hp t Hin) in Htv. done.
  - destruct rest as [|t0 rest]; [by apply elem_of_nil in Hin|].
    specialize (Hhd t0 eq_refl). apply elem_of_cons in Hin as [->|Hin]; [congruence|].
    apply StronglySorted_app in Hs as (_ & _ & Hs).
    apply StronglySorted_cons in Hs as [Hs _]. rewrite Forall_forall in Hs.
    rewrite (swo_trans _ _ _ _ Hhd (Hs t Hin)) in Hvt. done.
Qed.

End Ordering.

(** ** Counted loops *)

Lemma for_up_inv {St} (P : nat → St → Prop) (body : nat → St → option St)
    (start count : nat) (s : St) :
  P start s →
  (∀ i s, start ≤ i < start + count → P i s →
          ∃ s', body i s = Some s' ∧ P (S i) s') →
  ∃ s', for_up body start count s = Some s' ∧ P (start + count) s'.
Proof.
  revert start s. induction count as [|count IH]; intros start s HP Hstep; simpl.
  - exists s. by rewrite Nat.add_0_r.
  - destruct (Hstep start s) as (s1 & -> & HP1); [lia|done|]. simpl.
    destruct (IH (S start) s1) as (s2 & -> & HP2); [done| |].
    + intros i s' Hi. apply Hstep. lia.
    + exists s2. split; [done|]. by replace (start + S count) with (S start + count) by lia.
Qed.

Arguments for_up : simpl never.

(** ** The level generator *)

Lemma successes_le (draws : nat → bool) n g : successes draws n g ≤ n.
Proof.
  revert g. induction n as [|n IH]; intros g; simpl; [lia|].
  destruct (draws g); [|lia]. specialize (IH (S g)). lia.
Qed.

Lemma successes_true (draws : nat → bool) n g k : k < successes draws n g → draws (g + k) = true.
Proof.
  revert g k. induction n as [|n IH]; intros g k; simpl; [lia|].
  destruct (draws g) eqn:Hg; [|lia]. destruct k as [|k].
  - by rewrite Nat.add_0_r.
  - intros Hk. replace (g + S k) with (S g + k) by lia. apply IH. lia.
Qed.

Lemma successes_false (draws : nat → bool) n g :
  successes draws n g < n → draws (g + successes draws n g) = false.
Proof.
  revert g. induction n as [|n IH]; intros g; simpl; [lia|].
  destruct (draws g) eqn:Hg.
  - intros Hk. replace (g + S (successes draws n (S g))) with (S g + successes draws n (S g)) by lia.
    apply IH. lia.
  - by rewrite Nat.add_0_r.
Qed.

Lemma randomLevel_loop_spec (draws : nat → bool) fuel lvl g :
  lvl ≤ MAX_LEVEL → MAX_LEVEL - lvl < fuel →
  randomLevel_loop draws fuel lvl g =
  Some (lvl + successes draws (MAX_LEVEL - lvl) g,
        S (g + successes draws (MAX_LEVEL - lvl) g)).
Proof.
  revert lvl g. induction fuel as [|fuel IH]; intros lvl g Hl Hf; [lia|].
  cbn [randomLevel_loop]. destruct (decide (lvl < MAX_LEVEL)) as [Hlt|Hge].
  - rewrite bool_decide_eq_true_2 by done.
    replace (MAX_LEVEL - lvl) with (S (MAX_LEVEL - S lvl)) by lia.
    cbn [successes]. destruct (draws g); cbn [andb].
    + rewrite IH by lia. do 2 f_equal; lia.
    + do 2 f_equal; lia.
  - rewrite bool_decide_eq_false_2 by done. rewrite andb_false_r.
    replace (MAX_LEVEL - lvl) with 0 by lia. cbn [successes]. do 2 f_equal; lia.
Qed.

Lemma randomLevel_spec (draws : nat → bool) fuel g :
  MAX_LEVEL < fuel →
  randomLevel draws fuel g =
  Some (successes draws MAX_LEVEL g, S (g + successes draws MAX_LEVEL g)).
Proof.
  intros Hf. unfold randomLevel. rewrite randomLevel_loop_spec by lia.
  by rewrite Nat.sub_0_r.
Qed.

(** ** Inserting a tower *)

Lemma app_cons_eq_inv {X} (l1 l2 k1 k2 : list X) (x y : X) :
  l1 ++ x :: l2 = k1 ++ y :: k2 →
  (∃ c, l1 = k1 ++ y :: c ∧ k2 = c ++ x :: l2) ∨
  (k1 = l1 ∧ y = x ∧ k2 = l2) ∨
  (∃ c, k1 = l1 ++ x :: c ∧ l2 = c ++ y :: k2).
Proof.
  revert k1. induction l1 as [|z l1 IH]; intros k1 Heq.
  - destruct k1 as [|z' k1]; simpl in Heq.
    + injection Heq as -> ->. right. left. done.
    + injection Heq as -> ->. right. right. by exists k1.
  - destruct k1 as [|z' k1]; simpl in Heq.
    + injection Heq as -> <-. left. by exists l1.
    + injection Heq as -> Heq. destruct (IH k1 Heq) as [(c & -> & ->)|[(-> & -> & ->)|(c & -> & ->)]].
      * left. by exists c.
      * right. left. done.
      * right. right. by exists c.
Qed.

Lemma tower_live m j l t : Inv comp m j l → t ∈ l → is_Some (m !! t_addr t).
Proof.
  intros HI Hin. pose proof (get_data_tower m j l t HI Hin) as Hd.
  unfold get_data in Hd. destruct (m !! t_addr t); [eauto|done].
Qed.

Lemma header_live m j l : Inv comp m j l → is_Some (m !! header j).
Proof. intros HI. by destruct (inv_header _ _ _ _ HI) as (? & _). Qed.

Lemma fresh_not_stored m j l a :
  Inv comp m j l → m !! a = None → a ≠ header j ∧ a ∉ map t_addr l.
Proof.
  intros HI Ha. split.
  - intros ->. destruct (header_live m j l HI) as [? ?]. congruence.
  - intros (t & -> & Hin)%list_elem_of_fmap.
    destruct (tower_live m j l t HI Hin) as [? ?]. congruence.
Qed.

Lemma last_ge_in i d l : last_ge i d l ∈ d :: map t_addr l.
Proof.
  destruct (last_ge_elem i d l) as [->|(t & Hin & <- & _)]; [left|right].
  apply list_elem_of_fmap. eauto.
Qed.

Lemma nxt_in i l a : nxt i l = Some a → a ∈ map t_addr l.
Proof.
  intros (A & t & B & -> & <- & _)%nxt_Some. apply list_elem_of_fmap.
  exists t. split; [done|]. rewrite elem_of_app, elem_of_cons. auto.
Qed.


Lemma last_ge_0_app_cons d A t : last_ge 0 d (A ++ [t]) = t_addr t.
Proof. by rewrite last_ge_app. Qed.

Lemma last_ge_0_cons_ne d t A x B :
  last_ge 0 d (A ++ t :: x :: B) = last_ge 0 d (A ++ x :: B).
Proof. by rewrite !last_ge_app. Qed.

Lemma nxt_insert_eq i C t rest :
  nxt i (C ++ t :: rest) =
  if decide (i ≤ t_height t ∧ nxt i C = None) then Some (t_addr t)
  else nxt i (C ++ rest).
Proof.
  rewrite !nxt_app. simpl. destruct (nxt i C).
  - rewrite decide_False by (intuition congruence). done.
  - destruct (decide (i ≤ t_height t)).
    + by rewrite decide_True.
    + rewrite decide_False by (intuition congruence). done.
Qed.

Lemma NoDup_header_pre hd pre rest :
  NoDup (hd :: map t_addr (pre ++ rest)) → NoDup (hd :: map t_addr pre).
Proof.
  rewrite map_app, !NoDup_cons, not_elem_of_app, NoDup_app. (intuition congruence).
Qed.

(** The loop that points the update trail of the new levels at the header. *)
Lemma raise_spec (update : list (option positive)) hd lo n :
  length update = S MAX_LEVEL → lo + n ≤ MAX_LEVEL →
  ∃ update',
    for_up (λ i u, vec_set u i (Some hd)) (S lo) n update = Some update' ∧
    length update' = S MAX_LEVEL ∧
    ∀ k, update' !! k =
         if decide (lo < k ≤ lo + n) then Some (Some hd) else update !! k.
Proof.
  intros Hlen Hn.
  destruct (for_up_inv
    (λ i u, length u = S MAX_LEVEL ∧
            ∀ k, u !! k = if decide (lo < k < i) then Some (Some hd)
                          else update !! k)
    (λ i u, vec_set u i (Some hd)) (S lo) n update)
    as (update' & Heq & Hlen' & Hu).
  - split; [done|]. intros k. rewrite decide_False by lia. done.
  - intros i u Hi [Hl Hu]. unfold vec_set. rewrite decide_True by lia.
    eexists. split; [done|]. split; [by rewrite length_insert|].
    intros k. destruct (decide (k = i)) as [->|Hne].
    + rewrite list_lookup_insert_eq by lia. by rewrite decide_True by lia.
    + rewrite list_lookup_insert_ne by done. rewrite Hu.
      destruct (decide (lo < k < i)).
      * by rewrite decide_True by lia.
      * by rewrite decide_False by lia.
  - exists update'. split; [done|]. split; [done|]. intros k. rewrite Hu.
    destruct (decide (lo < k ≤ lo + n)).
    + by rewrite decide_True by lia.
    + by rewrite decide_False by lia.
Qed.

(** The splice loop: level by level, the new node takes over the link of
    its predecessor and the predecessor is linked to the new node. *)
Lemma splice_spec m1 (update : list (option positive)) a h
    (u : nat → positive) (nx : nat → option positive) :
  (∀ k, k ≤ h → update !! k = Some (Some (u k))) →
  (∀ k, k ≤ h → u k ≠ a) →
  (∀ k, k ≤ h → get_forward m1 (u k) k = Some (nx k)) →
  (∀ k, k ≤ h → is_Some (get_forward m1 a k)) →
  ∃ m2,
    for_up (splice_level update a) 0 (S h) m1 = Some m2 ∧
    (∀ p i, get_forward m2 p i =
       if decide (i ≤ h)
       then (if decide (p = a) then Some (nx i)
             else if decide (p = u i) then Some (Some a)
             else get_forward m1 p i)
       else get_forward m1 p i) ∧
    (∀ p, get_data m2 p = get_data m1 p) ∧
    (∀ p, get_backward m2 p = get_backward m1 p) ∧
    (∀ p, is_Some (m2 !! p) ↔ is_Some (m1 !! p)).
Proof.
  intros Hupd Hne Hnx Ha.
  destruct (for_up_inv
    (λ k mk,
       (∀ p i, get_forward mk p i =
          if decide (i < k)
          then (if decide (p = a) then Some (nx i)
                else if decide (p = u i) then Some (Some a)
                else get_forward m1 p i)
          else get_forward m1 p i) ∧
       (∀ p, get_data mk p = get_data m1 p) ∧
       (∀ p, get_backward mk p = get_backward m1 p) ∧
       (∀ p, is_Some (mk !! p) ↔ is_Some (m1 !! p)))
    (splice_level update a) 0 (S h) m1)
    as (m2 & Heq & Hf2 & Hd2 & Hb2 & Hl2).
  - split; [|done]. intros p i. by rewrite decide_False by lia.
  - intros k mk Hk (Hf & Hd & Hb & Hl). unfold splice_level.
    rewrite Hupd by lia. simpl.
    rewrite Hf, decide_False by lia. rewrite Hnx by lia. simpl.
    destruct (set_forward_spec mk a k (nx k)) as (mk1 & -> & Hf1 & Hd1 & Hb1 & Hl1).
    { rewrite Hf, decide_False by lia. apply Ha. lia. }
    simpl.
    destruct (set_forward_spec mk1 (u k) k (Some a))
      as (mk2 & -> & Hf2 & Hd2 & Hb2 & Hl2).
    { rewrite Hf1, decide_False by (intros [? _]; by apply (Hne k); [lia|]).
      rewrite Hf, decide_False by lia. rewrite Hnx by lia. eauto. }
    exists mk2. split; [done|]. split; [|split; [|split]].
    + intros p i. rewrite Hf2, Hf1, Hf.
      destruct (decide (i = k)) as [->|Hik].
      * rewrite (decide_True (P:=k < S k)) by lia.
        rewrite (decide_False (P:=k < k)) by lia.
        destruct (decide (p = a)) as [->|Hpa].
        -- rewrite decide_False by (intros [? _]; by apply (Hne k); [lia|]).
           by rewrite decide_True.
        -- destruct (decide (p = u k)) as [->|Hpu].
           ++ by rewrite decide_True.
           ++ rewrite !decide_False by (intuition congruence). done.
      * rewrite !(decide_False (P:=_ ∧ i = k)) by (intuition congruence).
        destruct (decide (i < k)).
        -- by rewrite (decide_True (P:=i < S k)) by lia.
        -- by rewrite (decide_False (P:=i < S k)) by lia.
    + intros p. by rewrite Hd2, Hd1.
    + intros p. by rewrite Hb2, Hb1.
    + intros p. by rewrite Hl2, Hl1.
  - exists m2. split; [done|]. split; [|done]. intros p i. rewrite Hf2. simpl.
    destruct (decide (i ≤ h)).
    + by rewrite decide_True by lia.
    + by rewrite decide_False by lia.
Qed.

(** ** More fuel does not change a result *)

Lemma walk_mono f f' m go i c r :
  walk f m go i c = Some r → f ≤ f' → walk f' m go i c = Some r.
Proof.
  revert f' c. induction f as [|f IH]; intros f' c Hw Hle; [done|].
  destruct f' as [|f']; [lia|]. simpl in *.
  destruct (get_forward m c i) as [[n|]|]; simpl in *; [|done..].
  destruct (get_data m n) as [v|]; simpl in *; [|done].
  destruct (go v); [|done]. apply IH; [done|lia].
Qed.

Lemma search_mono f f' m go i c r :
  search f m go i c = Some r → f ≤ f' → search f' m go i c = Some r.
Proof.
  intros Hs Hle. revert c Hs. induction i as [|i IH]; intros c Hs; simpl in *.
  - destruct (walk f m go 0 c) as [c'|] eqn:Hw; [|done].
    by rewrite (walk_mono _ _ _ _ _ _ _ Hw Hle).
  - destruct (walk f m go (S i) c) as [c'|] eqn:Hw; [|done].
    rewrite (walk_mono _ _ _ _ _ _ _ Hw Hle). simpl in *. by apply IH.
Qed.

Lemma search_update_mono f f' m go i c (u : list (option positive)) r :
  search_update f m go i c u = Some r → f ≤ f' →
  search_update f' m go i c u = Some r.
Proof.
  intros Hs Hle. revert c u Hs. induction i as [|i IH]; intros c u Hs; simpl in *.
  - destruct (walk f m go 0 c) as [c'|] eqn:Hw; [|done].
    by rewrite (walk_mono _ _ _ _ _ _ _ Hw Hle).
  - destruct (walk f m go (S i) c) as [c'|] eqn:Hw; [|done].
    rewrite (walk_mono _ _ _ _ _ _ _ Hw Hle). simpl in *.
    destruct (vec_set u (S i) (Some c')); [|done]. simpl in *. by apply IH.
Qed.

Lemma randomLevel_loop_mono (draws : nat → bool) f f' lvl g r :
  randomLevel_loop draws f lvl g = Some r → f ≤ f' →
  randomLevel_loop draws f' lvl g = Some r.
Proof.
  revert f' lvl g. induction f as [|f IH]; intros f' lvl g Hr Hle; [done|].
  destruct f' as [|f']; [lia|]. simpl in *.
  destruct (draws g && bool_decide (lvl < MAX_LEVEL)); [|done].
  apply IH; [done|lia].
Qed.

Lemma insert_mono (draws : nat → bool) f f' m j v oc r :
  insert comp draws f m j v oc = Some r → f ≤ f' →
  insert comp draws f' m j v oc = Some r.
Proof.
  unfold insert. intros Hi Hle.
  destruct (search_update f m _ (level j) (header j) update_init)
    as [[u c]|] eqn:Hs; [|done].
  rewrite (search_update_mono _ _ _ _ _ _ _ _ Hs Hle). simpl in *.
  destruct (get_forward m c 0) as [cur|]; [|done]. simpl in *.
  destruct (match cur with
            | Some c0 => get_data m c0 ≫= λ v0,
                Some (negb (comp v0 v) && negb (comp v v0))
            | None => Some false
            end) as [[|]|]; [done| |done]. simpl in *.
  unfold randomLevel in *.
  destruct (randomLevel_loop draws f 0 (rng j)) as [[h g]|] eqn:Hr; [|done].
  by rewrite (randomLevel_loop_mono _ _ _ _ _ _ Hr Hle).
Qed.

Lemma erase_mono f f' m j pos r :
  erase comp f m j pos = Some r → f ≤ f' → erase comp f' m j pos = Some r.
Proof.
  unfold erase. intros He Hle. destruct (iterator_eq pos (end_ j)); [done|].
  destruct (deref m pos) as [value|]; [|done]. simpl in *.
  destruct (search_update f m _ (level j) (header j) update_init)
    as [[u c]|] eqn:Hs; [|done].
  by rewrite (search_update_mono _ _ _ _ _ _ _ _ Hs Hle).
Qed.

Lemma find_mono f f' m j key r :
  find comp f m j key = Some r → f ≤ f' → find comp f' m j key = Some r.
Proof.
  unfold find. intros Hf Hle.
  destruct (search f m _ (level j) (header j)) as [c|] eqn:Hs; [|done].
  by rewrite (search_mono _ _ _ _ _ _ _ Hs Hle).
Qed.

Lemma erase_key_mono f f' m j key r :
  erase_key comp f m j key = Some r → f ≤ f' →
  erase_key comp f' m j key = Some r.
Proof.
  unfold erase_key. intros He Hle.
  destruct (find comp f m j key) as [it|] eqn:Hf; [|done].
  rewrite (find_mono _ _ _ _ _ _ Hf Hle). simpl in *.
  destruct (negb (iterator_eq it (end_ j))); [|done].
  destruct (erase comp f m j it) as [[[m' j'] it']|] eqn:Her; [|done].
  by rewrite (erase_mono _ _ _ _ _ _ Her Hle).
Qed.

Lemma clear_loop_mono f f' m hd cur r :
  clear_loop f m hd cur = Some r → f ≤ f' → clear_loop f' m hd cur = Some r.
Proof.
  revert f' m cur. induction f as [|f IH]; intros f' m cur Hc Hle; [done|].
  destruct f' as [|f']; [lia|]. simpl in *. destruct cur as [c|]; [|done].
  destruct (get_forward m c 0) as [nx|]; [|done]. simpl in *.
  apply IH; [done|lia].
Qed.

Lemma clear_mono f f' m j r :
  clear f m j = Some r → f ≤ f' → clear f' m j = Some r.
Proof.
  unfold clear. intros Hc Hle.
  destruct (get_forward m (header j) 0) as [cur|]; [|done]. simpl in *.
  destruct (clear_loop f m (header j) cur) as [m1|] eqn:Hl; [|done].
  by rewrite (clear_loop_mono _ _ _ _ _ _ Hl Hle).
Qed.

(** ** The size counter *)

Lemma size_incr_small n : (n + 1 < SIZE_MOD)%N → size_incr n = (n + 1)%N.
Proof. intros Hn. unfold size_incr. by apply N.mod_small. Qed.

Lemma size_decr_pos n : (0 < n < SIZE_MOD)%N → size_decr n = (n - 1)%N.
Proof.
  intros Hn. unfold size_decr.
  replace (n + SIZE_MOD - 1)%N with (n - 1 + 1 * SIZE_MOD)%N by lia.
  rewrite N.Div0.mod_add. apply N.mod_small. lia.
Qed.

Lemma size_ok_insert j j' l pre t rest :
  size_ok j l → l = pre ++ rest → size_ j' = size_incr (size_ j) →
  (N.of_nat (S (length l)) < SIZE_MOD)%N →
  size_ok j' (pre ++ t :: rest).
Proof.
  intros [Hs _] -> Hj Hlt. unfold size_ok.
  rewrite length_app in *. simpl.
  split; [rewrite Hj, Hs, size_incr_small|]; lia.
Qed.

Lemma size_ok_erase j j' l pre t rest :
  size_ok j l → l = pre ++ t :: rest → size_ j' = size_decr (size_ j) →
  size_ok j' (pre ++ rest).
Proof.
  intros [Hs Hlt] -> Hj. unfold size_ok.
  rewrite length_app in *. simpl in *.
  split; [rewrite Hj, Hs, size_decr_pos|]; lia.
Qed.

(** ** Whole-container comparison on the level-0 chains *)

Lemma collect_chain fuel m (p h1 h2 : option positive) (xs : list T) :
  collect fuel m (Iterator p h1) (Iterator None h2) = Some xs →
  chain m p xs ∧ length xs < fuel.
Proof.
  revert p xs. induction fuel as [|fuel IH]; intros p xs Hc; [done|].
  simpl in Hc. unfold iterator_eq in Hc. simpl in Hc.
  destruct p as [a|]; simpl in Hc.
  - unfold deref, incr in Hc. simpl in Hc.
    destruct (get_data m a) as [x|] eqn:Hd; [|done]. simpl in Hc.
    destruct (get_forward m a 0) as [q|] eqn:Hq; [|done]. simpl in Hc.
    destruct (collect fuel m (Iterator q h1) (Iterator None h2)) as [xs'|] eqn:Hr;
      [|done].
    simpl in Hc. injection Hc as <-. destruct (IH q xs' Hr) as [Hch Hlen].
    split; [|simpl; lia]. simpl. eauto 10.
  - injection Hc as <-. split; [done|simpl; lia].
Qed.

Lemma elements_chain fuel m j (xs : list T) :
  elements fuel m j = Some xs →
  ∃ p : option positive,
    get_forward m (header j) 0 = Some p ∧ chain m p xs ∧ length xs < fuel.
Proof.
  unfold elements, begin_. intros He.
  destruct (get_forward m (header j) 0) as [p|]; [|done]. simpl in He.
  apply collect_chain in He. eauto.
Qed.

Lemma std_equal_spec (eqT : T → T → bool) m (h1 h2 h3 : option positive) :
  ∀ (xs ys : list T) fuel (p q : option positive),
    chain m p xs → chain m q ys → length xs = length ys → length xs < fuel →
    std_equal eqT fuel m (Iterator p h1) (Iterator None h2) (Iterator q h3)
    = Some (equal_lists eqT xs ys).
Proof.
  induction xs as [|x xs IH]; intros ys fuel p q Hp Hq Hlen Hfuel.
  - destruct ys; [|done]. destruct fuel; [simpl in Hfuel; lia|].
    simpl in *. subst p. done.
  - destruct ys as [|y ys]; [done|]. destruct fuel as [|fuel]; [simpl in Hfuel; lia|].
    simpl in Hp, Hq. destruct Hp as (a & p' & -> & Hda & Hfa & Hp).
    destruct Hq as (b & q' & -> & Hdb & Hfb & Hq).
    simpl. unfold deref, incr. simpl. rewrite Hda, Hdb. simpl.
    destruct (eqT x y); [|done]. rewrite Hfa, Hfb. simpl.
    apply IH; [done|done| |]; simpl in *; lia.
Qed.

Lemma std_lexicographical_compare_spec (ltT : T → T → bool) m
    (h1 h2 h3 h4 : option positive) :
  ∀ (xs ys : list T) fuel (p q : option positive),
    chain m p xs → chain m q ys → length xs < fuel →
    std_lexicographical_compare ltT fuel m (Iterator p h1) (Iterator None h2)
                                (Iterator q h3) (Iterator None h4)
    = Some (lex_less ltT xs ys).
Proof.
  induction xs as [|x xs IH]; intros ys fuel p q Hp Hq Hfuel.
  - destruct fuel; [simpl in Hfuel; lia|]. simpl in *. subst p.
    unfold iterator_eq. simpl. destruct ys as [|y ys]; simpl in Hq.
    + by subst q.
    + by destruct Hq as (b & q' & -> & _).
  - destruct fuel as [|fuel]; [simpl in Hfuel; lia|].
    simpl in Hp. destruct Hp as (a & p' & -> & Hda & Hfa & Hp).
    destruct ys as [|y ys]; simpl in Hq.
    + subst q. done.
    + destruct Hq as (b & q' & -> & Hdb & Hfb & Hq).
      simpl. unfold iterator_eq, deref, incr. simpl. rewrite Hda, Hdb. simpl.
      destruct (ltT x y); [done|]. destruct (ltT y x); [done|].
      rewrite Hfa, Hfb. simpl. apply IH; [done|done|]. simpl in Hfuel. lia.
Qed.

Lemma equal_lists_spec (eqT : T → T → bool) (xs ys : list T) :
  equal_lists eqT xs ys = true ↔ Forall2 (λ x y, eqT x y = true) xs ys.
Proof.
  revert ys. induction xs as [|x xs IH]; intros [|y ys]; simpl.
  - split; [constructor|done].
  - split; [done|]. intros H. inversion H.
  - split; [done|]. intros H. inversion H.
  - rewrite andb_true_iff, IH. split.
    + intros [? ?]. by constructor.
    + intros H. inversion H. done.
Qed.

Lemma operator_eq_spec (eqT : T → T → bool) fuel m lhs rhs (xs ys : list T) :
  elements fuel m lhs = Some xs → elements fuel m rhs = Some ys →
  size lhs = N.of_nat (length xs) → size rhs = N.of_nat (length ys) →
  operator_eq eqT fuel m lhs rhs = Some (equal_lists eqT xs ys).
Proof.
  intros (p & Hp & Hcp & Hf)%elements_chain (q & Hq & Hcq & _)%elements_chain Hs1 Hs2.
  unfold operator_eq, begin_. rewrite Hs1, Hs2.
  destruct (decide (length xs = length ys)) as [Hlen|Hlen].
  - rewrite bool_decide_eq_true_2 by (by rewrite Hlen).
    rewrite Hp, Hq. simpl. by apply std_equal_spec.
  - rewrite bool_decide_eq_false_2 by lia. f_equal. symmetry.
    apply not_true_is_false. rewrite equal_lists_spec.
    intros H%Forall2_length. done.
Qed.

Lemma operator_lt_spec (ltT : T → T → bool) fuel m lhs rhs (xs ys : list T) :
  elements fuel m lhs = Some xs → elements fuel m rhs = Some ys →
  operator_lt ltT fuel m lhs rhs = Some (lex_less ltT xs ys).
Proof.
  intros (p & Hp & Hcp & Hf)%elements_chain (q & Hq & Hcq & _)%elements_chain.
  unfold operator_lt, begin_. rewrite Hp, Hq. simpl.
  by apply std_lexicographical_compare_spec.
Qed.

Section Operations.
Context `{!StrictWeakOrder comp}.

Lemma insert_inv m m' j j' l pre rest a v h :
  Inv comp m j l → l = pre ++ rest → m !! a = None →
  passes (λ x, comp x v) pre →
  (∀ t, head rest = Some t → comp v (t_val t) = true) →
  h ≤ MAX_LEVEL → header j' = header j → level j' = level j `max` h →
  (∀ p i, get_forward m' p i =
     if decide (p = a) then (if decide (i ≤ h) then Some (nxt i rest) else None)
     else if decide (i ≤ h ∧ p = last_ge i (header j) pre) then Some (Some a)
     else get_forward m p i) →
  (∀ p, get_data m' p = if decide (p = a) then Some v else get_data m p) →
  (∀ p, get_backward m' p =
     if decide (p = a) then Some (Some (last_ge 0 (header j) pre))
     else if decide (p = succ_of (header j) rest) then Some (Some a)
     else get_backward m p) →
  is_Some (m' !! header j) →
  Inv comp m' j' (pre ++ Tower a v h :: rest).
Proof.
  intros HI Hl Hfresh Hpass Hhead Hh Hhd Hlev Hfw Hdata Hbw Hlive.
  destruct (fresh_not_stored m j l a HI Hfresh) as [Hahd Hal].
  pose proof (inv_nodup _ _ _ _ HI) as Hnd. rewrite Hl in Hnd, Hal.
  rewrite map_app in Hal. rewrite not_elem_of_app in Hal. destruct Hal as [Hapre Harest].
  assert (Hpre_rest : ∀ p, p ∈ header j :: map t_addr pre → p ∉ map t_addr rest).
  { intros p Hp Hp'. rewrite map_app in Hnd.
    apply NoDup_cons in Hnd as [Hnh Hnd]. apply elem_of_cons in Hp as [->|Hp].
    - apply Hnh. rewrite elem_of_app. auto.
    - apply NoDup_app in Hnd as (_ & Hd & _). by apply (Hd p). }
  assert (Hndpre : NoDup (header j :: map t_addr pre))
    by (by eapply NoDup_header_pre).
  split.
  - (* header *)
    rewrite Hhd. destruct (inv_header _ _ _ _ HI) as (_ & Hhdata & Hhfw & Hhbw).
    split; [done|]. split; [|split].
    + rewrite Hdata. by rewrite decide_False by done.
    + intros i. rewrite Hfw, decide_False by done. rewrite Hhfw, Hl.
      rewrite nxt_insert_eq. simpl.
      assert (Hiff := last_ge_header i (header j) pre Hndpre).
      destruct (decide (i ≤ MAX_LEVEL)) as [Hi|Hi].
      * destruct (decide (i ≤ h ∧ nxt i pre = None)) as [[? Hn]|Hn].
        -- rewrite decide_True; [done|]. split; [done|]. symmetry. by apply Hiff.
        -- rewrite decide_False; [done|]. intros [? Heq]. apply Hn.
           split; [done|]. apply Hiff. done.
      * rewrite decide_False; [done|]. intros [? _]. lia.
    + left. rewrite Hbw, decide_False by done. unfold succ_of.
      destruct rest as [|r rest].
      * simpl. rewrite decide_True by done. by rewrite last_ge_0_app_cons.
      * simpl. rewrite decide_False.
        2:{ intros Heq. apply (Hpre_rest (header j)); [left|].
            rewrite Heq. simpl. left. }
        rewrite last_ge_0_cons_ne.
        destruct Hhbw as [->|[Hnil _]]; [by rewrite Hl|].
        rewrite Hl in Hnil. by destruct pre.
  - (* nodes *)
    rewrite Hhd. intros A t B Heq.
    apply app_cons_eq_inv in Heq as [(C & -> & ->)|[(-> & -> & ->)|(C & -> & ->)]].
    + (* a tower before the new one *)
      destruct (inv_nodes _ _ _ _ HI A t (C ++ rest)) as (Hd & Hb & Hf).
      { rewrite Hl, <- app_assoc. done. }
      assert (Hta : t_addr t ≠ a).
      { intros Heq. apply Hapre. rewrite <- Heq, map_app. simpl.
        rewrite elem_of_app, elem_of_cons. auto. }
      assert (Htpre : t_addr t ∈ header j :: map t_addr (A ++ t :: C)).
      { right. rewrite map_app. simpl. rewrite elem_of_app, elem_of_cons. auto. }
      split; [|split].
      * rewrite Hdata. by rewrite decide_False.
      * rewrite Hbw, decide_False by done. rewrite decide_False; [done|].
        unfold succ_of. destruct rest as [|r rest]; simpl.
        -- intros Heq. rewrite map_app in Hnd. apply NoDup_cons in Hnd as [Hnh _].
           apply Hnh. rewrite <- Heq. rewrite elem_of_app. left.
           rewrite map_app. simpl. rewrite elem_of_app, elem_of_cons. auto.
        -- intros Heq. apply (Hpre_rest (t_addr t) Htpre). rewrite Heq. simpl. left.
      * intros i. rewrite Hfw, decide_False by done. rewrite Hf.
        assert (Hiff := last_ge_here i (header j) A t C Hndpre).
        rewrite nxt_insert_eq. simpl.
        destruct (decide (i ≤ t_height t)) as [Hit|Hit].
        -- destruct (decide (i ≤ h ∧ nxt i C = None)) as [[? Hn]|Hn].
           ++ rewrite decide_True; [done|]. split; [done|]. symmetry. by apply Hiff.
           ++ rewrite decide_False; [done|]. intros [? Heq]. apply Hn.
              split; [done|]. symmetry in Heq. apply Hiff in Heq. tauto.
        -- rewrite decide_False; [done|]. intros [? Heq].
           symmetry in Heq. apply Hiff in Heq. tauto.
    + (* the new tower *)
      simpl. split; [|split].
      * rewrite Hdata. by rewrite decide_True.
      * rewrite Hbw. by rewrite decide_True.
      * intros i. rewrite Hfw. by rewrite decide_True.
    + (* a tower after the new one *)
      destruct (inv_nodes _ _ _ _ HI (pre ++ C) t B) as (Hd & Hb & Hf).
      { rewrite Hl, <- app_assoc. done. }
      assert (Htrest : t_addr t ∈ map t_addr (C ++ t :: B)).
      { rewrite map_app. simpl. rewrite elem_of_app, elem_of_cons. auto. }
      assert (Hta : t_addr t ≠ a) by (intros Heq; apply Harest; by rewrite <- Heq).
      split; [|split].
      * rewrite Hdata. by rewrite decide_False.
      * rewrite Hbw, decide_False by done. unfold succ_of.
        destruct C as [|c C]; simpl.
        -- rewrite decide_True by done. by rewrite last_ge_0_app_cons.
        -- rewrite decide_False.
           2:{ intros Heq. rewrite !map_app in Hnd. simpl in Hnd.
               apply NoDup_cons in Hnd as [_ Hnd].
               apply NoDup_app in Hnd as (_ & _ & Hnd).
               apply NoDup_cons in Hnd as [Hnd _]. apply Hnd.
               rewrite <- Heq. rewrite elem_of_app, elem_of_cons. auto. }
           rewrite Hb. do 2 f_equal. by rewrite last_ge_0_cons_ne.
      * intros i. rewrite Hfw, decide_False by done. rewrite decide_False; [done|].
        intros [_ Heq]. apply (Hpre_rest (t_addr t)); [|done].
        rewrite Heq. apply last_ge_in.
  - (* distinct addresses *)
    rewrite Hhd. rewrite map_app in Hnd |- *. simpl.
    apply NoDup_cons in Hnd as [Hnh Hnd]. rewrite not_elem_of_app in Hnh.
    apply NoDup_app in Hnd as (Hn1 & Hn2 & Hn3).
    apply NoDup_cons. split.
    + rewrite not_elem_of_app, not_elem_of_cons. (intuition congruence).
    + apply NoDup_app. split; [done|]. split.
      * intros x Hx. rewrite not_elem_of_cons. split; [|by apply Hn2].
        intros ->. done.
      * apply NoDup_cons. done.
  - (* heights *)
    pose proof (inv_heights _ _ _ _ HI) as Hhs. rewrite Hl in Hhs.
    rewrite Forall_app in Hhs |- *. destruct Hhs as [H1 H2]. rewrite Hlev.
    split; [|constructor].
    + eapply Forall_impl; [exact H1|]. simpl. intros; lia.
    + simpl. lia.
    + eapply Forall_impl; [exact H2|]. simpl. intros; lia.
  - rewrite Hlev. pose proof (inv_level _ _ _ _ HI). lia.
  - (* order *)
    pose proof (inv_sorted _ _ _ _ HI) as Hs. rewrite Hl in Hs.
    apply StronglySorted_app in Hs as (H12 & H1 & H2).
    apply StronglySorted_app. split; [|split; [done|]].
    + intros x y Hx Hy. apply elem_of_cons in Hy as [->|Hy]; [|by apply H12].
      simpl. unfold passes in Hpass. rewrite Forall_forall in Hpass. by apply Hpass.
    + apply StronglySorted_cons. split; [|done]. simpl.
      destruct rest as [|r rest]; [constructor|].
      specialize (Hhead r eq_refl). constructor; [done|].
      apply StronglySorted_cons in H2 as [H2 _].
      eapply Forall_impl; [exact H2|]. simpl. intros y Hy.
      by eapply swo_trans.
Qed.

(** [insert] of a value no stored element is equivalent to: the search
    splits the towers at the place of the new one; the memory afterwards,
    read through the accessors. *)
Lemma insert_new_mem (draws : nat → bool) fuel m j l pre rest v a :
  Inv comp m j l → l = pre ++ rest → m !! a = None →
  passes (λ x, comp x v) pre → stops (λ x, comp x v) rest →
  (∀ t, head rest = Some t → comp v (t_val t) = true) →
  length l < fuel → MAX_LEVEL < fuel →
  let h := successes draws MAX_LEVEL (rng j) in
  ∃ m',
    let j' := JumpList (header j) (if decide (level j < h) then h else level j)
                       (size_incr (size_ j)) (S (rng j + h)) in
    insert comp draws fuel m j v (AllocOk a)
    = Some (m', j', Normal (Iterator (Some a) (Some (header j)), true)) ∧
    (∀ p i, get_forward m' p i =
       if decide (p = a) then (if decide (i ≤ h) then Some (nxt i rest) else None)
       else if decide (i ≤ h ∧ p = last_ge i (header j) pre) then Some (Some a)
       else get_forward m p i) ∧
    (∀ p, get_data m' p = if decide (p = a) then Some v else get_data m p) ∧
    (∀ p, get_backward m' p =
       if decide (p = a) then Some (Some (last_ge 0 (header j) pre))
       else if decide (p = succ_of (header j) rest) then Some (Some a)
       else get_backward m p) ∧
    (∀ p, is_Some (m' !! p) ↔ p = a ∨ is_Some (m !! p)).
Proof.
  intros HI Hl Hfresh Hpass Hstop Hhead Hfuel Hfuel' h.
  assert (Hh : h ≤ MAX_LEVEL) by apply successes_le.
  pose proof (randomLevel_spec draws fuel (rng j) Hfuel') as Hrl.
  fold h in Hrl. clearbody h.
  pose proof (inv_level _ _ _ _ HI) as Hlev.
  destruct (fresh_not_stored m j l a HI Hfresh) as [Hahd Hal].
  unfold insert.
  destruct (search_update_spec m _ j l pre rest fuel HI Hl Hpass Hstop Hfuel)
    as (update & -> & Hulen & Hulow & Huhigh). simpl.
  rewrite (get_forward_last m j l pre rest 0 HI Hl) by lia. simpl.
  assert (Hdup : match nxt 0 rest with
                 | Some c => get_data m c ≫= λ v0,
                     Some (negb (comp v0 v) && negb (comp v v0))
                 | None => Some false
                 end = Some false).
  { destruct rest as [|r rest]; [done|]. simpl.
    rewrite (get_data_tower m j l r HI).
    2:{ rewrite Hl, elem_of_app, elem_of_cons. auto. }
    simpl. rewrite (Hhead r eq_refl). by rewrite andb_false_r. }
  rewrite Hdup. simpl. rewrite Hrl. simpl.
  (* the update trail, extended to the levels of the new node *)
  assert (Hupd : ∃ update', 
    (if decide (level j < h)
     then for_up (λ i u, vec_set u i (Some (header j))) (S (level j))
                 (h - level j) update ≫= λ update0, Some (update0, h)
     else Some (update, level j))
    = Some (update', if decide (level j < h) then h else level j) ∧
    ∀ k, k ≤ level j `max` h →
         update' !! k = Some (Some (last_ge k (header j) pre))).
  { destruct (decide (level j < h)) as [Hlt|Hge].
    - destruct (raise_spec update (header j) (level j) (h - level j))
        as (update' & -> & _ & Hu'); [done|lia|].
      exists update'. split; [done|]. intros k Hk. rewrite Hu'.
      destruct (decide (level j < k ≤ level j + (h - level j))) as [Hk'|Hk'].
      + rewrite (last_ge_top j l pre rest k) by (done || lia || apply HI). done.
      + apply Hulow. lia.
    - exists update. split; [done|]. intros k Hk. apply Hulow. lia. }
  destruct Hupd as (update' & -> & Hu'). simpl.
  set (m1 := <[a:=Node_value v h]> m).
  assert (Hm1f : ∀ p i, get_forward m1 p i =
            if decide (p = a) then (if decide (i ≤ h) then Some None else None)
            else get_forward m p i).
  { intros p i. unfold m1. rewrite get_forward_insert. simpl.
    destruct (decide (p = a)); [|done]. destruct (decide (i ≤ h)).
    - apply lookup_replicate_2. lia.
    - apply lookup_replicate_None. lia. }
  assert (Hlast_ne : ∀ k, last_ge k (header j) pre ≠ a).
  { intros k Heq. pose proof (last_ge_in k (header j) pre) as Hin.
    rewrite Heq in Hin. apply elem_of_cons in Hin as [?|Hin]; [done|].
    apply Hal. rewrite Hl, map_app, elem_of_app. auto. }
  destruct (splice_spec m1 update' a h (λ k, last_ge k (header j) pre)
              (λ k, nxt k rest))
    as (m2 & -> & Hf2 & Hd2 & Hb2 & Hl2).
  { intros k Hk. apply Hu'. lia. }
  { intros k _. apply Hlast_ne. }
  { intros k Hk. rewrite Hm1f, decide_False by apply Hlast_ne.
    apply (get_forward_last m j l pre rest k HI Hl). lia. }
  { intros k Hk. rewrite Hm1f, decide_True by done. rewrite decide_True by done. eauto. }
  simpl. rewrite Hu' by lia. simpl.
  destruct (set_backward_spec m2 a (Some (last_ge 0 (header j) pre)))
    as (m3 & -> & Hf3 & Hd3 & Hb3 & Hl3).
  { rewrite Hl2. unfold m1. rewrite lookup_insert_eq. eauto. }
  simpl. rewrite Hf3, Hf2. rewrite (decide_True (P:=0 ≤ h)) by lia.
  rewrite (decide_True (P:=a = a)) by done. simpl.
  assert (Hsucc_live : is_Some (m3 !! succ_of (header j) rest)).
  { rewrite Hl3, Hl2. unfold m1, succ_of.
    assert (is_Some (m !! default (header j) (nxt 0 rest))) as [? ?].
    { destruct (nxt 0 rest) as [c|] eqn:Hc; simpl.
      - apply nxt_Some in Hc as (A & t & B & -> & <- & _).
        apply (tower_live m j l t HI). rewrite Hl, !elem_of_app, elem_of_cons. auto.
      - by eapply header_live. }
    rewrite lookup_insert_ne by congruence. eauto. }
  destruct (set_backward_spec m3 (succ_of (header j) rest) (Some a) Hsucc_live)
    as (m4 & Hm4 & Hf4 & Hd4 & Hb4 & Hl4).
  assert (Hstep : match nxt 0 rest with
                  | Some n => set_backward m3 n (Some a)
                  | None => set_backward m3 (header j) (Some a)
                  end = Some m4).
  { unfold succ_of in Hm4. by destruct (nxt 0 rest). }
  rewrite Hstep. simpl. exists m4. split; [done|].
  split; [|split; [|split]].
  - intros p i. rewrite Hf4, Hf3, Hf2, Hm1f.
    destruct (decide (p = a)) as [->|Hpa].
    + destruct (decide (i ≤ h)); done.
    + destruct (decide (i ≤ h)) as [Hi|Hi].
      * destruct (decide (p = last_ge i (header j) pre)).
        -- by rewrite decide_True.
        -- rewrite decide_False by (intuition congruence). done.
      * rewrite decide_False by (intuition congruence). done.
  - intros p. rewrite Hd4, Hd3, Hd2. unfold m1. rewrite get_data_insert. done.
  - intros p. rewrite Hb4, Hb3, Hb2. unfold m1. rewrite get_backward_insert.
    assert (succ_of (header j) rest ≠ a).
    { intros Heq. destruct Hsucc_live as [x Hx]. rewrite Heq in Hx.
      unfold succ_of in Heq. destruct (nxt 0 rest) as [c|] eqn:Hc; simpl in Heq.
      - apply nxt_in in Hc. apply Hal. rewrite Hl, map_app, elem_of_app.
        right. by rewrite <- Heq.
      - done. }
    destruct (decide (p = a)) as [->|Hpa].
    + rewrite decide_False by done. done.
    + destruct (decide (p = succ_of (header j) rest)); done.
  - intros p. rewrite Hl4, Hl3, Hl2. unfold m1.
    destruct (decide (p = a)) as [->|Hpa].
    + rewrite lookup_insert_eq. split; eauto.
    + rewrite lookup_insert_ne by done. split; [auto|]. by intros [?|?].
Qed.

(** The splice yields a container that holds the new tower at its place. *)
Lemma insert_new_spec (draws : nat → bool) fuel m j l pre rest v a :
  Inv comp m j l → l = pre ++ rest → m !! a = None →
  passes (λ x, comp x v) pre → stops (λ x, comp x v) rest →
  (∀ t, head rest = Some t → comp v (t_val t) = true) →
  length l < fuel → MAX_LEVEL < fuel →
  let h := successes draws MAX_LEVEL (rng j) in
  ∃ m',
    let j' := JumpList (header j) (if decide (level j < h) then h else level j)
                       (size_incr (size_ j)) (S (rng j + h)) in
    insert comp draws fuel m j v (AllocOk a)
    = Some (m', j', Normal (Iterator (Some a) (Some (header j)), true)) ∧
    Inv comp m' j' (pre ++ Tower a v h :: rest).
Proof.
  intros HI Hl Hfresh Hpass Hstop Hhead Hfuel Hfuel' h.
  destruct (insert_new_mem draws fuel m j l pre rest v a HI Hl Hfresh Hpass Hstop
              Hhead Hfuel Hfuel') as (m' & Hins & Hf & Hd & Hb & Hlive).
  fold h in Hins, Hf.
  assert (Hh : h ≤ MAX_LEVEL) by apply successes_le. clearbody h.
  exists m'. split; [exact Hins|].
  eapply (insert_inv m m' j _ l pre rest a v h); try done.
  - simpl. destruct (decide (level j < h)); lia.
  - apply Hlive. right. by eapply header_live.
Qed.

(** [insert] of a value equivalent to a stored element. *)
Lemma insert_existing_spec (draws : nat → bool) fuel m j l A t B v oc :
  Inv comp m j l → l = A ++ t :: B → equiv comp (t_val t) v →
  length l < fuel →
  insert comp draws fuel m j v oc
  = Some (m, j, Normal (Iterator (Some (t_addr t)) (Some (header j)), false)).
Proof.
  intros HI Hl Heq Hfuel.
  destruct (ascending_equiv_split l A t B v (inv_sorted _ _ _ _ HI) Hl Heq)
    as [Hpass Hstop].
  unfold insert.
  destruct (search_update_spec m _ j l A (t :: B) fuel HI Hl Hpass Hstop Hfuel)
    as (update & -> & _). simpl.
  rewrite (get_forward_last m j l A (t :: B) 0 HI Hl) by lia. simpl.
  rewrite (get_data_tower m j l t HI).
  2:{ rewrite Hl, elem_of_app, elem_of_cons. auto. }
  simpl. destruct Heq as [-> ->]. done.
Qed.

(** [insert] when node creation fails: the exception leaves after the
    level and the random source have been updated. *)
Lemma insert_throw_spec (draws : nat → bool) fuel m j l pre rest v oc :
  Inv comp m j l → l = pre ++ rest →
  passes (λ x, comp x v) pre → stops (λ x, comp x v) rest →
  (∀ t, head rest = Some t → comp v (t_val t) = true) →
  length l < fuel → MAX_LEVEL < fuel →
  (∀ a, oc ≠ AllocOk a) →
  let h := successes draws MAX_LEVEL (rng j) in
  let j' := JumpList (header j) (if decide (level j < h) then h else level j)
                     (size_ j) (S (rng j + h)) in
  insert comp draws fuel m j v oc = Some (m, j', BadAlloc) ∧ Inv comp m j' l.
Proof.
  intros HI Hl Hpass Hstop Hhead Hfuel Hfuel' Hoc h.
  assert (Hh : h ≤ MAX_LEVEL) by apply successes_le.
  pose proof (randomLevel_spec draws fuel (rng j) Hfuel') as Hrl.
  fold h in Hrl. clearbody h.
  pose proof (inv_level _ _ _ _ HI) as Hlev.
  split.
  - unfold insert.
    destruct (search_update_spec m _ j l pre rest fuel HI Hl Hpass Hstop Hfuel)
      as (update & -> & Hulen & Hulow & Huhigh). simpl.
    rewrite (get_forward_last m j l pre rest 0 HI Hl) by lia. simpl.
    assert (Hdup : match nxt 0 rest with
                   | Some c => get_data m c ≫= λ v0,
                       Some (negb (comp v0 v) && negb (comp v v0))
                   | None => Some false
                   end = Some false).
    { destruct rest as [|r rest]; [done|]. simpl.
      rewrite (get_data_tower m j l r HI).
      2:{ rewrite Hl, elem_of_app, elem_of_cons. auto. }
      simpl. rewrite (Hhead r eq_refl). by rewrite andb_false_r. }
    rewrite Hdup. simpl. rewrite Hrl. simpl.
    destruct (decide (level j < h)) as [Hlt|Hge].
    + destruct (raise_spec update (header j) (level j) (h - level j))
        as (update' & -> & _ & Hu'); [done|lia|]. simpl.
      destruct oc as [| |a]; [done|done|]. by destruct (Hoc a).
    + simpl. destruct oc as [| |a]; [done|done|]. by destruct (Hoc a).
  - destruct HI as [H1 H2 H3 H4 H5 H6]. split; simpl; try done.
    + eapply Forall_impl; [exact H4|]. simpl. intros. case_decide; lia.
    + case_decide; lia.
Qed.

(** ** Erasing a tower *)

Lemma app_eq_cons_inv {X} (l1 l2 k1 k2 : list X) (y : X) :
  l1 ++ l2 = k1 ++ y :: k2 →
  (∃ c, l1 = k1 ++ y :: c ∧ k2 = c ++ l2) ∨
  (∃ c, k1 = l1 ++ c ∧ l2 = c ++ y :: k2).
Proof.
  revert k1. induction l1 as [|z l1 IH]; intros k1 Heq.
  - right. exists k1. done.
  - destruct k1 as [|z' k1]; simpl in Heq.
    + injection Heq as -> <-. left. by exists l1.
    + injection Heq as -> Heq.
      destruct (IH k1 Heq) as [(c & -> & ->)|(c & -> & ->)].
      * left. by exists c.
      * right. by exists c.
Qed.

Lemma Inv_relevel m j j' l :
  Inv comp m j l → header j' = header j →
  Forall (λ t, t_height t ≤ level j') l → level j' ≤ MAX_LEVEL →
  Inv comp m j' l.
Proof. intros [H1 H2 H3 H4 H5 H6] Hhd Hh Hl. split; rewrite ?Hhd; done. Qed.

Lemma erase_inv m m' j l pre c rest :
  Inv comp m j l → l = pre ++ c :: rest →
  (∀ p i, get_forward m' p i =
     if decide (p = t_addr c) then None
     else if decide (i ≤ t_height c ∧ p = last_ge i (header j) pre)
          then Some (nxt i rest)
     else get_forward m p i) →
  (∀ p, get_data m' p = if decide (p = t_addr c) then None else get_data m p) →
  (∀ p, get_backward m' p =
     if decide (p = t_addr c) then None
     else if decide (p = succ_of (header j) rest)
          then Some (Some (last_ge 0 (header j) pre))
     else get_backward m p) →
  is_Some (m' !! header j) →
  Inv comp m' j (pre ++ rest).
Proof.
  intros HI Hl Hfw Hdata Hbw Hlive.
  pose proof (inv_nodup _ _ _ _ HI) as Hnd. rewrite Hl in Hnd.
  assert (Hndpre : NoDup (header j :: map t_addr pre))
    by (by eapply NoDup_header_pre).
  assert (Hc_hd : header j ≠ t_addr c).
  { intros Heq. apply NoDup_cons in Hnd as [Hnh _]. apply Hnh.
    rewrite Heq, map_app. simpl. rewrite elem_of_app, elem_of_cons. auto. }
  rewrite map_app in Hnd. simpl in Hnd.
  apply NoDup_cons in Hnd as [Hnh Hnd]. rewrite not_elem_of_app, not_elem_of_cons in Hnh.
  destruct Hnh as (Hnh1 & _ & Hnh2).
  apply NoDup_app in Hnd as (Hn1 & Hn2 & Hn3).
  apply NoDup_cons in Hn3 as [Hc_rest Hn3].
  assert (Hc_pre : t_addr c ∉ map t_addr pre).
  { intros Hin. apply (Hn2 _ Hin). left. }
  assert (Hpre_rest : ∀ p, p ∈ header j :: map t_addr pre → p ∉ map t_addr rest).
  { intros p Hp Hp'. apply elem_of_cons in Hp as [->|Hp]; [done|].
    apply (Hn2 p Hp). by right. }
  assert (Hlast_c : ∀ i, last_ge i (header j) pre ≠ t_addr c).
  { intros i Heq. pose proof (last_ge_in i (header j) pre) as Hin.
    rewrite Heq in Hin. apply elem_of_cons in Hin as [?|?]; [congruence|done]. }
  pose proof (inv_heights _ _ _ _ HI) as Hhs. rewrite Hl in Hhs.
  rewrite Forall_app, Forall_cons in Hhs. destruct Hhs as (Hh1 & Hhc & Hh2).
  pose proof (inv_level _ _ _ _ HI) as Hlev.
  split.
  - (* header *)
    destruct (inv_header _ _ _ _ HI) as (_ & Hhdata & Hhfw & Hhbw).
    split; [done|]. split; [|split].
    + rewrite Hdata. by rewrite decide_False.
    + intros i. rewrite Hfw, decide_False by done. rewrite Hhfw, Hl.
      rewrite nxt_insert_eq.
      assert (Hiff := last_ge_header i (header j) pre Hndpre).
      destruct (decide (i ≤ t_height c ∧ nxt i pre = None)) as [[? Hn]|Hn].
      * rewrite decide_True.
        2:{ split; [done|]. symmetry. by apply Hiff. }
        rewrite decide_True by lia. by rewrite nxt_app, Hn.
      * rewrite decide_False; [done|]. intros [? Heq]. apply Hn.
        split; [done|]. by apply Hiff.
    + left. rewrite Hbw, decide_False by done. unfold succ_of.
      destruct rest as [|r rest]; simpl.
      * rewrite decide_True by done. by rewrite app_nil_r.
      * rewrite decide_False.
        2:{ intros Heq. apply Hnh2. rewrite Heq. simpl. left. }
        destruct Hhbw as [->|[Hnil _]].
        -- by rewrite Hl, last_ge_0_cons_ne.
        -- rewrite Hl in Hnil. by destruct pre.
  - (* nodes *)
    intros A t B Heq.
    apply app_eq_cons_inv in Heq as [(C & -> & ->)|(C & -> & ->)].
    + destruct (inv_nodes _ _ _ _ HI A t (C ++ c :: rest)) as (Hd & Hb & Hf).
      { rewrite Hl, <- app_assoc. done. }
      assert (Htpre : t_addr t ∈ map t_addr (A ++ t :: C)).
      { rewrite map_app. simpl. rewrite elem_of_app, elem_of_cons. auto. }
      assert (Htc : t_addr t ≠ t_addr c) by (intros Heq; by rewrite Heq in Htpre).
      split; [|split].
      * rewrite Hdata. by rewrite decide_False.
      * rewrite Hbw, decide_False by done. rewrite decide_False; [done|].
        unfold succ_of. destruct rest as [|r rest]; simpl.
        -- intros Heq. apply Hnh1. by rewrite <- Heq.
        -- intros Heq. apply (Hpre_rest (t_addr t)); [by right|].
           rewrite Heq. simpl. left.
      * intros i. rewrite Hfw, decide_False by done. rewrite Hf.
        assert (Hiff := last_ge_here i (header j) A t C Hndpre).
        rewrite nxt_insert_eq.
        destruct (decide (i ≤ t_height t)) as [Hit|Hit].
        -- destruct (decide (i ≤ t_height c ∧ nxt i C = None)) as [[? Hn]|Hn].
           ++ rewrite decide_True.
              2:{ split; [done|]. symmetry. by apply Hiff. }
              by rewrite nxt_app, Hn.
           ++ rewrite decide_False; [done|]. intros [? Heq]. apply Hn.
              split; [done|]. symmetry in Heq. apply Hiff in Heq. tauto.
        -- rewrite decide_False; [done|]. intros [? Heq].
           symmetry in Heq. apply Hiff in Heq. tauto.
    + destruct (inv_nodes _ _ _ _ HI (pre ++ c :: C) t B) as (Hd & Hb & Hf).
      { rewrite Hl, <- app_assoc. done. }
      assert (Htrest : t_addr t ∈ map t_addr (C ++ t :: B)).
      { rewrite map_app. simpl. rewrite elem_of_app, elem_of_cons. auto. }
      assert (Htc : t_addr t ≠ t_addr c) by (intros Heq; by rewrite Heq in Htrest).
      split; [|split].
      * rewrite Hdata. by rewrite decide_False.
      * rewrite Hbw, decide_False by done. unfold succ_of.
        destruct C as [|x C]; simpl.
        -- rewrite decide_True by done. by rewrite app_nil_r.
        -- rewrite decide_False.
           2:{ intros Heq. rewrite map_app in Hn3. simpl in Hn3.
               apply NoDup_cons in Hn3 as [Hn3 _]. apply Hn3.
               rewrite <- Heq. rewrite elem_of_app, elem_of_cons. auto. }
           rewrite Hb. do 2 f_equal. by rewrite last_ge_0_cons_ne.
      * intros i. rewrite Hfw, decide_False by done. rewrite decide_False; [done|].
        intros [_ Heq]. apply (Hpre_rest (t_addr t)); [|done].
        rewrite Heq. apply last_ge_in.
  - (* distinct addresses *)
    rewrite map_app. apply NoDup_cons. split.
    + rewrite not_elem_of_app. done.
    + apply NoDup_app. split; [done|]. split; [|done].
      intros x Hx Hx'. apply (Hn2 x Hx). by right.
  - rewrite Forall_app. done.
  - done.
  - pose proof (inv_sorted _ _ _ _ HI) as Hs. rewrite Hl in Hs.
    apply StronglySorted_app in Hs as (H12 & H1 & H2).
    apply StronglySorted_cons in H2 as [_ H2].
    apply StronglySorted_app. split; [|done].
    intros x y Hx Hy. apply H12; [done|by right].
Qed.

(** The unsplice loop: on every level the erased node takes part in, its
    predecessor is linked to its successor; the other levels are left. *)
Lemma unsplice_spec m (update : list (option positive)) c hc n
    (u : nat → positive) (nx : nat → option positive) :
  (∀ k, k ≤ n → update !! k = Some (Some (u k))) →
  (∀ k, k ≤ n → u k ≠ c) →
  (∀ k, k ≤ n →
        get_forward m (u k) k = Some (if decide (k ≤ hc) then Some c else nx k)) →
  (∀ k, nx k ≠ Some c) →
  (∀ k, k ≤ hc → get_forward m c k = Some (nx k)) →
  ∃ m2,
    for_up (unsplice_level update c) 0 (S n) m = Some m2 ∧
    (∀ p i, get_forward m2 p i =
       if decide (i ≤ n ∧ i ≤ hc ∧ p = u i) then Some (nx i)
       else get_forward m p i) ∧
    (∀ p, get_data m2 p = get_data m p) ∧
    (∀ p, get_backward m2 p = get_backward m p) ∧
    (∀ p, is_Some (m2 !! p) ↔ is_Some (m !! p)).
Proof.
  intros Hupd Hne Hnx Hnxc Hc.
  destruct (for_up_inv
    (λ k mk,
       (∀ p i, get_forward mk p i =
          if decide (i < k ∧ i ≤ hc ∧ p = u i) then Some (nx i)
          else get_forward m p i) ∧
       (∀ p, get_data mk p = get_data m p) ∧
       (∀ p, get_backward mk p = get_backward m p) ∧
       (∀ p, is_Some (mk !! p) ↔ is_Some (m !! p)))
    (unsplice_level update c) 0 (S n) m)
    as (m2 & Heq & Hf2 & Hd2 & Hb2 & Hl2).
  - split; [|done]. intros p i. by rewrite decide_False by lia.
  - intros k mk Hk (Hf & Hd & Hb & Hl). unfold unsplice_level.
    rewrite Hupd by lia. simpl.
    rewrite (Hf (u k) k), (decide_False (P:=k < k ∧ _)) by lia.
    rewrite Hnx by lia. simpl.
    destruct (decide (k ≤ hc)) as [Hkc|Hkc].
    + rewrite decide_True by done.
      rewrite (Hf c k), (decide_False (P:=k < k ∧ _)) by lia.
      rewrite Hc by done. simpl.
      destruct (set_forward_spec mk (u k) k (nx k))
        as (mk1 & -> & Hf1 & Hd1 & Hb1 & Hl1).
      { rewrite Hf, decide_False by lia. rewrite Hnx by lia. eauto. }
      exists mk1. split; [done|]. split; [|split; [|split]].
      * intros p i. rewrite Hf1, Hf.
        destruct (decide (p = u k ∧ i = k)) as [[-> ->]|Hn].
        -- by rewrite decide_True by (split; [lia|done]).
        -- destruct (decide (i < k ∧ i ≤ hc ∧ p = u i)) as [(? & ? & ?)|Hn'].
           ++ by rewrite decide_True by (split; [lia|done]).
           ++ rewrite decide_False; [done|]. intros (? & ? & ?).
              destruct (decide (i = k)) as [->|?]; [by apply Hn|].
              apply Hn'. split; [lia|done].
      * intros p. by rewrite Hd1.
      * intros p. by rewrite Hb1.
      * intros p. by rewrite Hl1.
    + rewrite decide_False by (intros [= Heq]; by apply (Hnxc k)).
      exists mk. split; [done|]. split; [|done].
      intros p i. rewrite Hf.
      destruct (decide (i < k ∧ i ≤ hc ∧ p = u i)) as [(? & ? & ?)|Hn'].
      * by rewrite decide_True by (split; [lia|done]).
      * rewrite decide_False; [done|]. intros (? & ? & ?).
        apply Hn'. split; [|done]. assert (i ≠ k) by (intros ->; lia). lia.
  - exists m2. split; [done|]. split; [|done]. intros p i. rewrite Hf2. simpl.
    destruct (decide (i ≤ n ∧ i ≤ hc ∧ p = u i)) as [(? & ? & ?)|Hn'].
    + by rewrite decide_True by (split; [lia|done]).
    + rewrite decide_False; [done|]. intros (? & ? & ?). apply Hn'.
      split; [lia|done].
Qed.

(** The level is lowered past the levels that have become empty. *)
Lemma shrink_level_spec m hd l lvl :
  (∀ i, get_forward m hd i =
        if decide (i ≤ MAX_LEVEL) then Some (nxt i l) else None) →
  lvl ≤ MAX_LEVEL →
  ∃ lvl', shrink_level m hd lvl = Some lvl' ∧ lvl' ≤ lvl ∧
          (lvl' = 0 ∨ nxt lvl' l ≠ None) ∧
          (∀ i, lvl' < i ≤ lvl → nxt i l = None).
Proof.
  intros Hfw. induction lvl as [|lvl IH]; intros Hl; simpl.
  - exists 0. split; [done|]. split; [done|]. split; [by left|]. intros; lia.
  - rewrite Hfw, decide_True by lia. simpl.
    destruct (nxt (S lvl) l) as [x|] eqn:Hx.
    + exists (S lvl). split; [done|]. split; [done|]. split.
      * right. by rewrite Hx.
      * intros; lia.
    + destruct IH as (lvl' & -> & Hle & Hmin & Hnone); [lia|].
      exists lvl'. split; [done|]. split; [lia|]. split; [done|].
      intros i Hi. destruct (decide (i = S lvl)) as [->|?]; [done|].
      apply Hnone. lia.
Qed.

Lemma heights_le_shrunk l lvl lvl' :
  Forall (λ t, t_height t ≤ lvl) l →
  (∀ i, lvl' < i ≤ lvl → nxt i l = None) →
  Forall (λ t, t_height t ≤ lvl') l.
Proof.
  intros Hh Hnone. apply Forall_forall. intros t Hin.
  rewrite Forall_forall in Hh. specialize (Hh t Hin).
  destruct (decide (t_height t ≤ lvl')) as [|Hgt]; [done|]. exfalso.
  specialize (Hnone (t_height t)). rewrite nxt_None, Forall_forall in Hnone.
  specialize (Hnone ltac:(lia) t Hin). simpl in Hnone. lia.
Qed.

(** [erase] at a position whose value is equivalent to the stored tower
    [c]: the tower is unlinked and destroyed; the memory afterwards, read
    through the accessors. *)
Lemma erase_mem fuel m j l pre c rest pos p value :
  Inv comp m j l → l = pre ++ c :: rest →
  node pos = Some p → get_data m p = Some value →
  equiv comp (t_val c) value →
  length l < fuel →
  ∃ m' lvl',
    let j' := JumpList (header j) lvl' (size_decr (size_ j)) (rng j) in
    erase comp fuel m j pos
    = Some (m', j', Iterator (nxt 0 rest) (Some (header j))) ∧
    Inv comp m' j' (pre ++ rest) ∧
    level_minimal j' (pre ++ rest) ∧ lvl' ≤ level j ∧
    m' !! t_addr c = None ∧
    (∀ a i, get_forward m' a i =
       if decide (a = t_addr c) then None
       else if decide (i ≤ t_height c ∧ a = last_ge i (header j) pre)
            then Some (nxt i rest)
       else get_forward m a i) ∧
    (∀ a, get_data m' a = if decide (a = t_addr c) then None else get_data m a) ∧
    (∀ a, get_backward m' a =
       if decide (a = t_addr c) then None
       else if decide (a = succ_of (header j) rest)
            then Some (Some (last_ge 0 (header j) pre))
       else get_backward m a) ∧
    (∀ a, is_Some (m' !! a) ↔ a ≠ t_addr c ∧ is_Some (m !! a)).
Proof.
  intros HI Hl Hpos Hval Heq Hfuel.
  destruct (ascending_equiv_split l pre c rest value (inv_sorted _ _ _ _ HI) Hl Heq)
    as [Hpass Hstop].
  pose proof (inv_nodup _ _ _ _ HI) as Hnd. rewrite Hl in Hnd.
  assert (Hc_hd : header j ≠ t_addr c).
  { intros Heq'. apply NoDup_cons in Hnd as [Hnh _]. apply Hnh.
    rewrite Heq', map_app. simpl. rewrite elem_of_app, elem_of_cons. auto. }
  assert (Hlast_c : ∀ i, last_ge i (header j) pre ≠ t_addr c).
  { intros i Heq'. pose proof (last_ge_in i (header j) pre) as Hin.
    rewrite Heq' in Hin. apply elem_of_cons in Hin as [?|Hin]; [congruence|].
    rewrite map_app in Hnd. apply NoDup_cons in Hnd as [_ Hnd].
    apply NoDup_app in Hnd as (_ & Hnd & _). apply (Hnd _ Hin). simpl. left. }
  assert (Hc_rest : ∀ i, nxt i rest ≠ Some (t_addr c)).
  { intros i Hin%nxt_in. rewrite map_app in Hnd. simpl in Hnd.
    apply NoDup_cons in Hnd as [_ Hnd]. apply NoDup_app in Hnd as (_ & _ & Hnd).
    by apply NoDup_cons in Hnd as [? _]. }
  pose proof (inv_heights _ _ _ _ HI) as Hhs. rewrite Hl in Hhs.
  rewrite Forall_app, Forall_cons in Hhs. destruct Hhs as (Hh1 & Hhc & Hh2).
  pose proof (inv_level _ _ _ _ HI) as Hlev.
  unfold erase. unfold iterator_eq at 1. rewrite Hpos. simpl.
  unfold deref. rewrite Hpos. simpl. rewrite Hval. simpl.
  destruct (search_update_spec m _ j l pre (c :: rest) fuel HI Hl Hpass Hstop Hfuel)
    as (update & -> & Hulen & Hulow & Huhigh). simpl.
  rewrite (get_forward_last m j l pre (c :: rest) 0 HI Hl) by lia. simpl.
  rewrite (get_data_tower m j l c HI).
  2:{ rewrite Hl, elem_of_app, elem_of_cons. auto. }
  simpl. destruct Heq as [Hcv Hvc]. rewrite Hcv, Hvc. simpl.
  rewrite (get_forward_tower m j l pre c rest 0 HI Hl). simpl.
  destruct (unsplice_spec m update (t_addr c) (t_height c) (level j)
              (λ k, last_ge k (header j) pre) (λ k, nxt k rest))
    as (m2 & -> & Hf2 & Hd2 & Hb2 & Hl2).
  { done. }
  { intros k _. apply Hlast_c. }
  { intros k Hk. rewrite (get_forward_last m j l pre (c :: rest) k HI Hl) by lia.
    done. }
  { done. }
  { intros k Hk. rewrite (get_forward_tower m j l pre c rest k HI Hl).
    by rewrite decide_True. }
  simpl.
  destruct (inv_nodes _ _ _ _ HI pre c rest Hl) as (_ & Hcb & _).
  rewrite Hb2, Hcb. simpl.
  assert (Hsucc_live : is_Some (m2 !! succ_of (header j) rest)).
  { rewrite Hl2. unfold succ_of.
    destruct (nxt 0 rest) as [x|] eqn:Hx; simpl.
    - apply nxt_Some in Hx as (A & t & B & -> & <- & _).
      apply (tower_live m j l t HI). rewrite Hl, !elem_of_app, !elem_of_cons.
      rewrite elem_of_app, elem_of_cons. auto.
    - by eapply header_live. }
  destruct (set_backward_spec m2 (succ_of (header j) rest)
              (Some (last_ge 0 (header j) pre)) Hsucc_live)
    as (m3 & Hm3 & Hf3 & Hd3 & Hb3 & Hl3).
  assert (Hstep : match nxt 0 rest with
                  | Some n => set_backward m2 n (Some (last_ge 0 (header j) pre))
                  | None => set_backward m2 (header j) (Some (last_ge 0 (header j) pre))
                  end = Some m3).
  { unfold succ_of in Hm3. by destruct (nxt 0 rest). }
  rewrite Hstep. simpl. rewrite decide_False by done.
  (* the memory after the node is gone *)
  assert (Hfw' : ∀ a i, get_forward (delete (t_addr c) m3) a i =
     if decide (a = t_addr c) then None
     else if decide (i ≤ t_height c ∧ a = last_ge i (header j) pre)
          then Some (nxt i rest)
     else get_forward m a i).
  { intros a i. rewrite get_forward_delete, Hf3, Hf2.
    destruct (decide (a = t_addr c)); [done|].
    destruct (decide (i ≤ t_height c ∧ a = last_ge i (header j) pre))
      as [[? ?]|Hn].
    + rewrite decide_True; [done|]. split; [lia|done].
    + rewrite decide_False; [done|]. intros (? & ? & ?). by apply Hn. }
  assert (Hd' : ∀ a, get_data (delete (t_addr c) m3) a =
     if decide (a = t_addr c) then None else get_data m a).
  { intros a. by rewrite get_data_delete, Hd3, Hd2. }
  assert (Hb' : ∀ a, get_backward (delete (t_addr c) m3) a =
     if decide (a = t_addr c) then None
     else if decide (a = succ_of (header j) rest)
          then Some (Some (last_ge 0 (header j) pre))
     else get_backward m a).
  { intros a. by rewrite get_backward_delete, Hb3, Hb2. }
  (* the container at the old level *)
  assert (HI' : Inv comp (delete (t_addr c) m3) j (pre ++ rest)).
  { apply (erase_inv m _ j l pre c rest HI Hl); [done..|].
    rewrite lookup_delete_ne by done. rewrite Hl3, Hl2. by eapply header_live. }
  destruct (inv_header _ _ _ _ HI') as (_ & _ & Hhfw & _).
  destruct (shrink_level_spec _ _ _ (level j) Hhfw Hlev)
    as (lvl' & -> & Hle & Hmin & Hnone). simpl.
  exists (delete (t_addr c) m3), lvl'.
  split; [done|]. split; [|split; [|split; [done|]]].
  - apply (Inv_relevel _ j); [done|done| |simpl; lia]. simpl.
    apply (heights_le_shrunk _ (level j)); [|done]. by apply Forall_app.
  - done.
  - split; [apply lookup_delete_eq|]. split; [done|]. split; [done|].
    split; [done|]. intros a.
    destruct (decide (a = t_addr c)) as [->|Hq].
    + rewrite lookup_delete_eq. split; [by intros [? ?]|]. by intros [? _].
    + rewrite lookup_delete_ne by done. rewrite Hl3, Hl2. split; [auto|]. by intros [_ ?].
Qed.

Lemma erase_spec fuel m j l pre c rest pos p value :
  Inv comp m j l → l = pre ++ c :: rest →
  node pos = Some p → get_data m p = Some value →
  equiv comp (t_val c) value →
  length l < fuel →
  ∃ m' lvl',
    let j' := JumpList (header j) lvl' (size_decr (size_ j)) (rng j) in
    erase comp fuel m j pos
    = Some (m', j', Iterator (nxt 0 rest) (Some (header j))) ∧
    Inv comp m' j' (pre ++ rest) ∧
    level_minimal j' (pre ++ rest) ∧ lvl' ≤ level j ∧
    m' !! t_addr c = None.
Proof.
  intros HI Hl Hpos Hval Heq Hfuel.
  destruct (erase_mem fuel m j l pre c rest pos p value HI Hl Hpos Hval Heq Hfuel)
    as (m' & lvl' & He & HI' & Hmin & Hle & Hgone & _).
  exists m', lvl'. cbv zeta in *. split; [exact He|]. split; [exact HI'|].
  split; [exact Hmin|]. split; [exact Hle|exact Hgone].
Qed.

Lemma erase_end_spec fuel m j pos :
  node pos = None → erase comp fuel m j pos = Some (m, j, end_ j).
Proof. intros Hpos. unfold erase, iterator_eq. rewrite Hpos. done. Qed.

(** When no stored element is equivalent to [v], the towers before [v]
    are followed by towers after [v]. *)
Lemma no_equiv_split l v :
  ascending comp l → (∀ t, t ∈ l → ¬ equiv comp (t_val t) v) →
  ∃ pre rest, l = pre ++ rest ∧
    passes (λ x, comp x v) pre ∧ stops (λ x, comp x v) rest ∧
    (∀ t, head rest = Some t → comp v (t_val t) = true).
Proof.
  intros Hs Hne.
  destruct (ascending_split (λ x, comp x v) l (down_closed_before v) Hs)
    as (pre & rest & -> & Hp & Hr).
  exists pre, rest. repeat split; [done..|].
  intros t Ht. destruct rest as [|r rest]; [done|]. injection Ht as ->.
  apply Forall_cons in Hr as [Hr _].
  destruct (comp v (t_val t)) eqn:Hvt; [done|]. exfalso.
  apply (Hne t); [|by split]. rewrite elem_of_app, elem_of_cons. auto.
Qed.

(** [erase] at a position whose value no stored element is equivalent to. *)
Lemma erase_absent_spec fuel m j l pos p value :
  Inv comp m j l → node pos = Some p → get_data m p = Some value →
  (∀ t, t ∈ l → ¬ equiv comp (t_val t) value) →
  length l < fuel →
  erase comp fuel m j pos = Some (m, j, end_ j).
Proof.
  intros HI Hpos Hval Hne Hfuel.
  destruct (no_equiv_split l value (inv_sorted _ _ _ _ HI) Hne)
    as (pre & rest & Hl & Hpass & Hstop & Hhead).
  unfold erase. unfold iterator_eq at 1. rewrite Hpos. simpl.
  unfold deref. rewrite Hpos. simpl. rewrite Hval. simpl.
  destruct (search_update_spec m _ j l pre rest fuel HI Hl Hpass Hstop Hfuel)
    as (update & -> & _). simpl.
  rewrite (get_forward_last m j l pre rest 0 HI Hl) by lia. simpl.
  destruct rest as [|r rest]; [done|]. simpl.
  rewrite (get_data_tower m j l r HI).
  2:{ rewrite Hl, elem_of_app, elem_of_cons. auto. }
  simpl. rewrite (Hhead r eq_refl). by rewrite orb_true_r.
Qed.

(** ** Lookup *)

Lemma find_found_spec fuel m j l A t B key :
  Inv comp m j l → l = A ++ t :: B → equiv comp (t_val t) key →
  length l < fuel →
  find comp fuel m j key = Some (Iterator (Some (t_addr t)) (Some (header j))).
Proof.
  intros HI Hl Heq Hfuel.
  destruct (ascending_equiv_split l A t B key (inv_sorted _ _ _ _ HI) Hl Heq)
    as [Hpass Hstop].
  unfold find.
  rewrite (search_spec m _ j l A (t :: B) fuel HI Hl Hpass Hstop Hfuel). simpl.
  rewrite (get_forward_last m j l A (t :: B) 0 HI Hl) by lia. simpl.
  rewrite (get_data_tower m j l t HI).
  2:{ rewrite Hl, elem_of_app, elem_of_cons. auto. }
  simpl. destruct Heq as [-> ->]. done.
Qed.

Lemma find_absent_spec fuel m j l key :
  Inv comp m j l → (∀ t, t ∈ l → ¬ equiv comp (t_val t) key) →
  length l < fuel →
  find comp fuel m j key = Some (end_ j).
Proof.
  intros HI Hne Hfuel.
  destruct (no_equiv_split l key (inv_sorted _ _ _ _ HI) Hne)
    as (pre & rest & Hl & Hpass & Hstop & Hhead).
  unfold find.
  rewrite (search_spec m _ j l pre rest fuel HI Hl Hpass Hstop Hfuel). simpl.
  rewrite (get_forward_last m j l pre rest 0 HI Hl) by lia. simpl.
  destruct rest as [|r rest]; [done|]. simpl.
  rewrite (get_data_tower m j l r HI).
  2:{ rewrite Hl, elem_of_app, elem_of_cons. auto. }
  simpl. rewrite (Hhead r eq_refl). by rewrite andb_false_r.
Qed.

Lemma lower_bound_spec fuel m j l pre rest key :
  Inv comp m j l → l = pre ++ rest →
  passes (λ x, comp x key) pre → stops (λ x, comp x key) rest →
  length l < fuel →
  lower_bound comp fuel m j key
  = Some (Iterator (nxt 0 rest) (Some (header j))).
Proof.
  intros HI Hl Hpass Hstop Hfuel. unfold lower_bound.
  rewrite (search_spec m _ j l pre rest fuel HI Hl Hpass Hstop Hfuel). simpl.
  rewrite (get_forward_last m j l pre rest 0 HI Hl) by lia. done.
Qed.

Lemma upper_bound_spec fuel m j l pre rest key :
  Inv comp m j l → l = pre ++ rest →
  passes (λ x, negb (comp key x)) pre → stops (λ x, negb (comp key x)) rest →
  length l < fuel →
  upper_bound comp fuel m j key
  = Some (Iterator (nxt 0 rest) (Some (header j))).
Proof.
  intros HI Hl Hpass Hstop Hfuel. unfold upper_bound.
  rewrite (search_spec m _ j l pre rest fuel HI Hl Hpass Hstop Hfuel). simpl.
  rewrite (get_forward_last m j l pre rest 0 HI Hl) by lia. done.
Qed.

(** ** Iteration *)

Lemma collect_spec fuel m j l A B (h1 h2 : option positive) :
  Inv comp m j l → l = A ++ B → length B < fuel →
  collect fuel m (Iterator (nxt 0 B) h1) (Iterator None h2)
  = Some (map t_val B).
Proof.
  intros HI. revert fuel A. induction B as [|t B IH]; intros fuel A Hl Hfuel.
  - destruct fuel; [simpl in Hfuel; lia|]. done.
  - destruct fuel as [|fuel]; [simpl in Hfuel; lia|]. simpl.
    unfold deref, incr. simpl.
    rewrite (get_data_tower m j l t HI).
    2:{ rewrite Hl, elem_of_app, elem_of_cons. auto. }
    simpl. rewrite (get_forward_tower m j l A t B 0 HI Hl). simpl.
    rewrite (IH fuel (A ++ [t])); [done| |simpl in Hfuel; lia].
    by rewrite <- app_assoc.
Qed.

Lemma begin_spec m j l :
  Inv comp m j l → begin_ m j = Some (Iterator (nxt 0 l) (Some (header j))).
Proof.
  intros HI. unfold begin_. destruct (inv_header _ _ _ _ HI) as (_ & _ & Hfw & _).
  rewrite Hfw. done.
Qed.

Lemma elements_spec fuel m j l :
  Inv comp m j l → length l < fuel → elements fuel m j = Some (map t_val l).
Proof.
  intros HI Hfuel. unfold elements. rewrite (begin_spec m j l HI). simpl.
  by apply (collect_spec fuel m j l [] l).
Qed.

(** ** Construction and clear *)

Lemma Inv_empty m j :
  is_Some (m !! header j) → get_data m (header j) = None →
  (∀ i, get_forward m (header j) i =
        if decide (i ≤ MAX_LEVEL) then Some None else None) →
  get_backward m (header j) = Some None →
  level j ≤ MAX_LEVEL →
  Inv comp m j [].
Proof.
  intros Hlive Hdata Hfw Hbw Hlev. split.
  - split; [done|]. split; [done|]. split; [|by right]. done.
  - intros A t B Heq. by destruct A.
  - apply NoDup_cons. split; [apply not_elem_of_nil|constructor].
  - constructor.
  - done.
  - constructor.
Qed.

Lemma construct_spec m a :
  Inv comp (construct m a).1 (construct m a).2 [].
Proof.
  unfold construct. simpl. apply Inv_empty; simpl.
  - rewrite lookup_insert_eq. eauto.
  - rewrite get_data_insert. by rewrite decide_True.
  - intros i. rewrite get_forward_insert, decide_True by done.
    unfold Node_header. cbn [forward].
    destruct (decide (i ≤ MAX_LEVEL)).
    + apply lookup_replicate_2. lia.
    + apply lookup_replicate_None. lia.
  - rewrite get_backward_insert. by rewrite decide_True.
  - lia.
Qed.

(** The loop of [clear] destroys the nodes of the level-0 chain. *)
Lemma clear_loop_spec hd B :
  ∀ fuel m,
    NoDup (map t_addr B) → hd ∉ map t_addr B →
    (∀ A t C, B = A ++ t :: C → get_forward m (t_addr t) 0 = Some (nxt 0 C)) →
    length B < fuel →
    ∃ m', clear_loop fuel m hd (nxt 0 B) = Some m' ∧
          ∀ p, m' !! p = if decide (p ∈ map t_addr B) then None else m !! p.
Proof.
  induction B as [|t B IH]; intros fuel m Hnd Hhd Hfw Hfuel.
  - destruct fuel; [simpl in Hfuel; lia|]. cbn [clear_loop nxt].
    exists m. split; [done|].
    intros p. rewrite decide_False; [done|]. apply not_elem_of_nil.
  - destruct fuel as [|fuel]; [simpl in Hfuel; lia|]. simpl in *.
    rewrite (Hfw [] t B eq_refl). simpl.
    apply NoDup_cons in Hnd as [Ht Hnd]. apply not_elem_of_cons in Hhd as [Hhd1 Hhd2].
    rewrite decide_False by done.
    destruct (IH fuel (delete (t_addr t) m)) as (m' & -> & Hm'); [done|done| |lia|].
    + intros A t' C ->. rewrite get_forward_delete. rewrite decide_False.
      * by apply (Hfw (t :: A) t' C).
      * intros Heq. apply Ht. rewrite <- Heq, map_app. simpl.
        rewrite elem_of_app, elem_of_cons. auto.
    + exists m'. split; [done|]. intros p. rewrite Hm'.
      destruct (decide (p = t_addr t)) as [->|Hne].
      * rewrite (decide_True (P:=_ ∈ _ :: _)) by left.
        rewrite lookup_delete_eq. by case_decide.
      * rewrite lookup_delete_ne by done.
        destruct (decide (p ∈ map t_addr B)).
        -- rewrite decide_True; [done|]. by right.
        -- rewrite decide_False; [done|]. rewrite not_elem_of_cons. done.
Qed.

(** [clear] destroys the nodes of the towers and resets the header; no
    other object changes. *)
Lemma clear_mem fuel m j l :
  Inv comp m j l → length l < fuel →
  ∃ m',
    clear fuel m j = Some (m', JumpList (header j) 0 0 (rng j)) ∧
    Inv comp m' (JumpList (header j) 0 0 (rng j)) [] ∧
    (∀ p, p ≠ header j →
          m' !! p = if decide (p ∈ map t_addr l) then None else m !! p).
Proof.
  intros HI Hfuel. unfold clear.
  destruct (inv_header _ _ _ _ HI) as (Hlive & Hhdata & Hhfw & _).
  pose proof (inv_nodup _ _ _ _ HI) as Hnd. apply NoDup_cons in Hnd as [Hnh Hnd].
  rewrite Hhfw. simpl.
  destruct (clear_loop_spec (header j) l fuel m) as (m1 & -> & Hm1); [done..| |done|].
  { intros A t C Hl. by rewrite (get_forward_tower m j l A t C 0 HI Hl). }
  simpl.
  assert (Hhd1 : m1 !! header j = m !! header j).
  { rewrite Hm1. by rewrite decide_False. }
  destruct (for_up_inv
    (λ k mk,
       (∀ i, get_forward mk (header j) i =
             if decide (i < k) then Some None else get_forward m (header j) i) ∧
       get_data mk (header j) = None ∧
       (∀ p, p ≠ header j → mk !! p = m1 !! p))
    (λ i mk, set_forward mk (header j) i None) 0 (MAX_LEVEL + 1) m1)
    as (m2 & -> & Hf2 & Hd2 & Ho2).
  - split; [|split; [|done]].
    + intros i. rewrite decide_False by lia. unfold get_forward. by rewrite Hhd1.
    + unfold get_data in *. by rewrite Hhd1.
  - intros k mk Hk (Hf & Hd & Ho).
    destruct (set_forward_spec mk (header j) k None) as (mk1 & Heq & Hf1 & Hd1 & _ & _).
    { rewrite Hf, decide_False by lia. rewrite Hhfw, decide_True by lia. eauto. }
    exists mk1. split; [done|]. split; [|split].
    + intros i. rewrite Hf1, Hf. destruct (decide (i = k)) as [->|?].
      * rewrite decide_True by done. by rewrite decide_True by lia.
      * rewrite decide_False by (intuition congruence). destruct (decide (i < k)).
        -- by rewrite (decide_True (P:=i < S k)) by lia.
        -- by rewrite (decide_False (P:=i < S k)) by lia.
    + by rewrite Hd1.
    + intros p Hp. rewrite <- Ho by done. unfold set_forward in Heq.
      destruct (mk !! header j) as [nd|]; [|done]. simpl in Heq.
      destruct (vec_set (forward nd) k None); [|done]. simpl in Heq.
      injection Heq as <-. by rewrite lookup_insert_ne.
  - simpl.
    destruct (set_backward_spec m2 (header j) None) as (m3 & Heq3 & Hf3 & Hd3 & Hb3 & Hl3).
    { specialize (Hf2 0). rewrite decide_True in Hf2 by lia.
      by eapply get_forward_live. }
    rewrite Heq3. simpl. exists m3. split; [done|]. split.
    + apply Inv_empty; simpl.
      * rewrite Hl3. specialize (Hf2 0). rewrite decide_True in Hf2 by lia.
        by eapply get_forward_live.
      * by rewrite Hd3.
      * intros i. rewrite Hf3, Hf2. destruct (decide (i ≤ MAX_LEVEL)).
        -- by rewrite decide_True by lia.
        -- rewrite decide_False by lia. rewrite Hhfw. by rewrite decide_False.
      * rewrite Hb3. by rewrite decide_True.
      * lia.
    + intros p Hp.
      unfold set_backward in Heq3. destruct (m2 !! header j) as [nd|]; [|done].
      simpl in Heq3. injection Heq3 as <-. rewrite lookup_insert_ne by done.
      rewrite Ho2 by done. apply Hm1.
Qed.

Lemma clear_spec fuel m j l :
  Inv comp m j l → length l < fuel →
  ∃ m',
    clear fuel m j = Some (m', JumpList (header j) 0 0 (rng j)) ∧
    Inv comp m' (JumpList (header j) 0 0 (rng j)) [] ∧
    (∀ t, t ∈ l → m' !! t_addr t = None).
Proof.
  intros HI Hfuel.
  destruct (clear_mem fuel m j l HI Hfuel) as (m' & Hc & HI' & Hm').
  exists m'. split; [done|]. split; [done|]. intros t Hin.
  pose proof (inv_nodup _ _ _ _ HI) as Hnd. apply NoDup_cons in Hnd as [Hnh _].
  assert (Hth : t_addr t ≠ header j).
  { intros Heq. apply Hnh. rewrite <- Heq. apply list_elem_of_fmap. eauto. }
  rewrite Hm' by done. rewrite decide_True; [done|].
  apply list_elem_of_fmap. eauto.
Qed.

(** ** erase by key and equal_range *)

Lemma equiv_refl (x : T) : equiv comp x x.
Proof. split; apply (swo_irrefl _ x). Qed.

Lemma ascending_equiv_unique A t B key :
  ascending comp (A ++ t :: B) → equiv comp (t_val t) key →
  ∀ t', t' ∈ A ++ B → ¬ equiv comp (t_val t') key.
Proof.
  intros Hs Heq t' Hin Heq'.
  assert (Htt : equiv comp (t_val t') (t_val t)).
  { apply (swo_equiv_trans _ _ key); [done|by apply equiv_sym]. }
  destruct Htt as [H1 H2].
  apply StronglySorted_app in Hs as (HAB & _ & HtB).
  apply StronglySorted_cons in HtB as [HtB _]. rewrite Forall_forall in HtB.
  apply elem_of_app in Hin as [Hin|Hin].
  - rewrite (HAB t' t Hin) in H1; [done|left].
  - rewrite (HtB t' Hin) in H2. done.
Qed.

Lemma erase_key_found_spec fuel m j l A t B key :
  Inv comp m j l → l = A ++ t :: B → equiv comp (t_val t) key →
  length l < fuel →
  ∃ m' lvl',
    let j' := JumpList (header j) lvl' (size_decr (size_ j)) (rng j) in
    erase_key comp fuel m j key = Some (m', j', 1%N) ∧
    Inv comp m' j' (A ++ B) ∧ level_minimal j' (A ++ B) ∧ lvl' ≤ level j ∧
    m' !! t_addr t = None ∧
    find comp fuel m' j' key = Some (end_ j').
Proof.
  intros HI Hl Heq Hfuel. unfold erase_key.
  rewrite (find_found_spec fuel m j l A t B key HI Hl Heq Hfuel). simpl.
  destruct (erase_spec fuel m j l A t B
              (Iterator (Some (t_addr t)) (Some (header j))) (t_addr t) (t_val t)
              HI Hl eq_refl) as (m' & lvl' & Her & HI' & Hmin & Hle & Hgone).
  { apply (get_data_tower m j l t HI). rewrite Hl, elem_of_app, elem_of_cons. auto. }
  { apply equiv_refl. }
  { done. }
  simpl in Her. rewrite Her. simpl. exists m', lvl'.
  split; [done|]. split; [done|]. split; [done|]. split; [done|]. split; [done|].
  apply (find_absent_spec fuel m' _ (A ++ B) key HI').
  - apply (ascending_equiv_unique A t B key); [|done].
    rewrite <- Hl. apply HI.
  - rewrite Hl in Hfuel. rewrite length_app in Hfuel |- *. simpl in Hfuel. lia.
Qed.

Lemma erase_key_absent_spec fuel m j l key :
  Inv comp m j l → (∀ t, t ∈ l → ¬ equiv comp (t_val t) key) →
  length l < fuel →
  erase_key comp fuel m j key = Some (m, j, 0%N).
Proof.
  intros HI Hne Hfuel. unfold erase_key.
  by rewrite (find_absent_spec fuel m j l key HI Hne Hfuel).
Qed.

Lemma equal_range_found_spec fuel m j l A t B key :
  Inv comp m j l → l = A ++ t :: B → equiv comp (t_val t) key →
  length l < fuel →
  equal_range comp fuel m j key
  = Some (Iterator (Some (t_addr t)) (Some (header j)),
          Iterator (nxt 0 B) (Some (header j))).
Proof.
  intros HI Hl Heq Hfuel. unfold equal_range.
  rewrite (find_found_spec fuel m j l A t B key HI Hl Heq Hfuel). simpl.
  unfold incr. simpl. rewrite (get_forward_tower m j l A t B 0 HI Hl). done.
Qed.

Lemma equal_range_absent_spec fuel m j l key :
  Inv comp m j l → (∀ t, t ∈ l → ¬ equiv comp (t_val t) key) →
  length l < fuel →
  equal_range comp fuel m j key = Some (end_ j, end_ j).
Proof.
  intros HI Hne Hfuel. unfold equal_range.
  by rewrite (find_absent_spec fuel m j l key HI Hne Hfuel).
Qed.

(** ** Every returning call keeps the structural invariant *)

(** Either a stored element is equivalent to [v], or none is. *)
Lemma stored_dec l v :
  ascending comp l →
  (∃ A t B, l = A ++ t :: B ∧ equiv comp (t_val t) v) ∨
  (∀ t, t ∈ l → ¬ equiv comp (t_val t) v).
Proof.
  intros Hs.
  destruct (ascending_split (λ x, comp x v) l (down_closed_before v) Hs)
    as (pre & rest & -> & Hp & Hr).
  destruct rest as [|r rest].
  - right. apply (ascending_no_equiv pre [] v); done.
  - destruct (comp v (t_val r)) eqn:Hvr.
    + right. apply (ascending_no_equiv pre (r :: rest) v); try done.
      by intros t [= <-].
    + left. exists pre, r, rest. split; [done|].
      apply Forall_cons in Hr as [Hr _]. by split.
Qed.

Lemma is_free_true m a : is_free m a = true → m !! a = None.
Proof. unfold is_free. by destruct (m !! a). Qed.

Lemma insert_preserves (draws : nat → bool) fuel m j l v oc m' j' r :
  Inv comp m j l → alloc_fresh m oc = true →
  insert comp draws fuel m j v oc = Some (m', j', r) →
  ∃ l', Inv comp m' j' l'.
Proof.
  intros HI Hfresh Hins.
  set (F := fuel `max` S (length l `max` MAX_LEVEL)).
  apply (insert_mono _ _ F) in Hins; [|lia].
  destruct (stored_dec l v (inv_sorted _ _ _ _ HI))
    as [(A & t & B & Hl & Heq)|Hne].
  - rewrite (insert_existing_spec draws F m j l A t B v oc HI Hl Heq) in Hins by lia.
    injection Hins as <- <- _. by exists l.
  - destruct (no_equiv_split l v (inv_sorted _ _ _ _ HI) Hne)
      as (pre & rest & Hl & Hpass & Hstop & Hhead).
    assert (Hoc : (∃ a, oc = AllocOk a) ∨ (∀ a, oc ≠ AllocOk a)).
    { destruct oc; [right|right|left]; eauto; done. }
    destruct Hoc as [[a ->]|Hoc].
    + apply is_free_true in Hfresh.
      destruct (insert_new_spec draws F m j l pre rest v a HI Hl Hfresh Hpass Hstop Hhead)
        as (m1 & Heq1 & HI1); [lia|lia|].
      simpl in Heq1. rewrite Heq1 in Hins. injection Hins as <- <- _. eauto.
    + destruct (insert_throw_spec draws F m j l pre rest v oc HI Hl Hpass Hstop Hhead)
        as (Heq1 & HI1); [lia|lia|done|].
      simpl in Heq1. rewrite Heq1 in Hins. injection Hins as <- <- _. eauto.
Qed.

Lemma erase_preserves fuel m j l pos m' j' it :
  Inv comp m j l →
  erase comp fuel m j pos = Some (m', j', it) →
  ∃ l', Inv comp m' j' l' ∧ length l' ≤ length l.
Proof.
  intros HI Her.
  set (F := fuel `max` S (length l)).
  apply (erase_mono _ F) in Her; [|lia].
  destruct (node pos) as [p|] eqn:Hpos.
  - destruct (get_data m p) as [value|] eqn:Hval.
    2:{ unfold erase, iterator_eq, deref in Her. rewrite Hpos in Her. simpl in Her.
        by rewrite Hval in Her. }
    destruct (stored_dec l value (inv_sorted _ _ _ _ HI))
      as [(A & t & B & Hl & Heq)|Hne].
    + destruct (erase_spec F m j l A t B pos p value HI Hl Hpos Hval Heq)
        as (m1 & lvl1 & Heq1 & HI1 & _); [lia|].
      simpl in Heq1. rewrite Heq1 in Her. injection Her as <- <- _.
      eexists. split; [done|]. rewrite Hl, !length_app. simpl. lia.
    + rewrite (erase_absent_spec F m j l pos p value HI Hpos Hval Hne) in Her by lia.
      injection Her as <- <- _. eauto.
  - rewrite (erase_end_spec F m j pos Hpos) in Her. injection Her as <- <- _. eauto.
Qed.

Lemma erase_key_preserves fuel m j l key m' j' n :
  Inv comp m j l →
  erase_key comp fuel m j key = Some (m', j', n) →
  ∃ l', Inv comp m' j' l'.
Proof.
  intros HI Her. unfold erase_key in Her.
  destruct (find comp fuel m j key) as [it|]; [|done]. simpl in Her.
  destruct (negb (iterator_eq it (end_ j))).
  - destruct (erase comp fuel m j it) as [[[m1 j1] it1]|] eqn:Heq; [|done].
    simpl in Her. injection Her as <- <- _.
    destruct (erase_preserves _ _ _ _ _ _ _ _ HI Heq) as (l' & ? & _). eauto.
  - injection Her as <- <- _. eauto.
Qed.

Lemma erase_range_loop_preserves fuel n m j l first last result m' j' it :
  Inv comp m j l →
  erase_range_loop comp fuel n m j first last result = Some (m', j', it) →
  ∃ l', Inv comp m' j' l'.
Proof.
  revert m j l first result. induction n as [|n IH];
    intros m j l first result HI Her; [done|]. simpl in Her.
  destruct (iterator_eq first last).
  - injection Her as <- <- _. eauto.
  - destruct (incr m first) as [next|]; [|done]. simpl in Her.
    destruct (erase comp fuel m j first) as [[[m1 j1] it1]|] eqn:Heq; [|done].
    simpl in Her.
    destruct (erase_preserves _ _ _ _ _ _ _ _ HI Heq) as (l1 & HI1 & _).
    by apply (IH m1 j1 l1 next it1).
Qed.

Lemma clear_preserves fuel m j l m' j' :
  Inv comp m j l → clear fuel m j = Some (m', j') → ∃ l', Inv comp m' j' l'.
Proof.
  intros HI Hc.
  set (F := fuel `max` S (length l)).
  apply (clear_mono _ F) in Hc; [|lia].
  destruct (clear_spec F m j l HI) as (m1 & Heq & HI1 & _); [lia|].
  rewrite Heq in Hc. injection Hc as <- <-. eauto.
Qed.

Lemma step_Inv (draws : nat → bool) fuel o m j l m' j' :
  Inv comp m j l → step comp draws fuel o (m, j) = Some (m', j') →
  ∃ l', Inv comp m' j' l'.
Proof.
  intros HI Hs. destruct o as [v oc|pos|first last|key|]; simpl in Hs.
  - destruct (alloc_fresh m oc) eqn:Hf; [|done].
    destruct (insert comp draws fuel m j v oc) as [[[m1 j1] r]|] eqn:Hi; [|done].
    simpl in Hs. injection Hs as <- <-. by eapply insert_preserves.
  - destruct (erase comp fuel m j pos) as [[[m1 j1] r]|] eqn:He; [|done].
    simpl in Hs. injection Hs as <- <-.
    destruct (erase_preserves _ _ _ _ _ _ _ _ HI He) as (l' & ? & _). eauto.
  - destruct (erase_range comp fuel m j first last) as [[[m1 j1] r]|] eqn:He; [|done].
    simpl in Hs. injection Hs as <- <-. by eapply erase_range_loop_preserves.
  - destruct (erase_key comp fuel m j key) as [[[m1 j1] r]|] eqn:He; [|done].
    simpl in Hs. injection Hs as <- <-. by eapply erase_key_preserves.
  - by eapply clear_preserves.
Qed.

Lemma run_Inv (draws : nat → bool) fuel ops :
  ∀ m j l m' j',
    Inv comp m j l → run comp draws fuel ops (m, j) = Some (m', j') →
    ∃ l', Inv comp m' j' l'.
Proof.
  induction ops as [|o ops IH]; intros m j l m' j' HI Hr.
  - injection Hr as <- <-. eauto.
  - change (step comp draws fuel o (m, j) ≫= run comp draws fuel ops
            = Some (m', j')) in Hr.
    destruct (step comp draws fuel o (m, j)) as [[m1 j1]|] eqn:Hs; [|done].
    simpl in Hr. destruct (step_Inv _ _ _ _ _ _ _ _ HI Hs) as (l1 & HI1).
    by eapply IH.
Qed.

(** ** The remaining invariants of the data model *)

Lemma insert_level_minimal j j' pre rest t :
  level_minimal j (pre ++ rest) →
  level j' = (if decide (level j < t_height t) then t_height t else level j) →
  level_minimal j' (pre ++ t :: rest).
Proof.
  unfold level_minimal. intros Hmin ->.
  destruct (decide (level j < t_height t)) as [Hlt|Hge].
  - right. rewrite nxt_None, Forall_app, Forall_cons. intros (_ & ? & _). lia.
  - destruct Hmin as [?|Hne]; [by left|]. right.
    rewrite nxt_None in Hne |- *. rewrite Forall_app, Forall_cons.
    intros (? & _ & ?). apply Hne. by apply Forall_app.
Qed.

(** A level above every stored tower is not minimal: the state in which
    [insert] leaves the container when node creation fails after a level
    above the current one was sampled. *)
Lemma raised_level_not_minimal j j' l :
  Forall (λ t, t_height t ≤ level j) l → level j < level j' →
  ¬ level_minimal j' l.
Proof.
  intros Hh Hlt [H0|Hne]; [lia|]. apply Hne, nxt_None.
  eapply Forall_impl; [exact Hh|]. simpl. intros; lia.
Qed.

Lemma insert_throw_level (draws : nat → bool) fuel m j l v oc :
  Inv comp m j l → (∀ t, t ∈ l → ¬ equiv comp (t_val t) v) →
  length l < fuel → MAX_LEVEL < fuel → (∀ a, oc ≠ AllocOk a) →
  ∃ j', insert comp draws fuel m j v oc = Some (m, j', BadAlloc) ∧
        Inv comp m j' l ∧ size j' = size j ∧
        level j' = level j `max` successes draws MAX_LEVEL (rng j) ∧
        (level j < successes draws MAX_LEVEL (rng j) → ¬ level_minimal j' l).
Proof.
  intros HI Hne Hfuel Hfuel' Hoc.
  destruct (no_equiv_split l v (inv_sorted _ _ _ _ HI) Hne)
    as (pre & rest & Hl & Hpass & Hstop & Hhead).
  destruct (insert_throw_spec draws fuel m j l pre rest v oc HI Hl Hpass Hstop
              Hhead Hfuel Hfuel' Hoc) as [Hins HI'].
  cbv zeta in Hins, HI'. eexists. split; [exact Hins|]. split; [exact HI'|].
  split; [done|]. simpl. split.
  - case_decide; lia.
  - intros Hlt. apply (raised_level_not_minimal j); [apply HI|].
    simpl. by rewrite decide_True.
Qed.

(** One successful [insert] of a new value, as a step between instances
    of the invariant. *)
Lemma Inv_insert_step (draws : nat → bool) fuel m j l pre rest v a m' j' r :
  Inv comp m j l → l = pre ++ rest → m !! a = None →
  passes (λ x, comp x v) pre → stops (λ x, comp x v) rest →
  (∀ t, head rest = Some t → comp v (t_val t) = true) →
  length l < fuel → MAX_LEVEL < fuel →
  insert comp draws fuel m j v (AllocOk a) = Some (m', j', r) →
  Inv comp m' j' (pre ++ Tower a v (successes draws MAX_LEVEL (rng j)) :: rest).
Proof.
  intros HI Hl Hf Hp Hs Hh Hfu1 Hfu2 Hins.
  destruct (insert_new_spec draws fuel m j l pre rest v a HI Hl Hf Hp Hs Hh Hfu1 Hfu2)
    as (m1 & Heq & HI1).
  simpl in Heq. rewrite Heq in Hins. injection Hins as <- <- _. done.
Qed.

Lemma deref_tower m j l t (h : option positive) :
  Inv comp m j l → t ∈ l →
  deref m (Iterator (Some (t_addr t)) h) = Some (t_val t).
Proof. intros HI Hin. unfold deref. simpl. by eapply get_data_tower. Qed.

Lemma ascending_values l i k (x y : T) :
  ascending comp l → i < k →
  map t_val l !! i = Some x → map t_val l !! k = Some y →
  comp x y = true ∧ ¬ equiv comp x y.
Proof.
  intros Hs Hik Hx Hy.
  assert (comp x y = true) as Hxy; [|split; [done|]; intros [? _]; congruence].
  rewrite list_lookup_fmap in Hx, Hy.
  destruct (l !! i) as [ti|] eqn:Hi; [|done].
  destruct (l !! k) as [tk|] eqn:Hk; [|done].
  simpl in *. injection Hx as <-. injection Hy as <-.
  rewrite <- (take_drop_middle l i ti Hi) in Hs, Hk.
  apply StronglySorted_app in Hs as (_ & _ & Hs).
  apply StronglySorted_cons in Hs as [Hs _]. rewrite Forall_forall in Hs.
  apply Hs. 
  assert (Hlen : length (take i l) = i).
  { apply length_take_le. apply lookup_lt_Some in Hi. lia. }
  rewrite lookup_app_r in Hk by lia. rewrite Hlen in Hk.
  destruct (k - i) as [|d] eqn:Hd; [lia|]. simpl in Hk.
  by eapply list_elem_of_lookup_2.
Qed.

End Operations.

End Verification.

(** * Integers under [std::less<int>] *)

#[export] Instance Z_ltb_swo : StrictWeakOrder Z.ltb.
Proof.
  split.
  - intros x. apply Z.ltb_irrefl.
  - intros x y z. rewrite !Z.ltb_lt. lia.
  - intros x y z [H1 H2] [H3 H4]. rewrite Z.ltb_ge in *.
    split; apply Z.ltb_ge; lia.
Qed.

Lemma ex_empty_Inv : Inv Z.ltb ex_empty.1 ex_empty.2 [].
Proof. apply construct_spec. Qed.

(** The container [{1, 3, 5, 7, 9}] satisfies the invariant, with the
    heights the draws gave its nodes. *)
Ltac insert_step H pre value a :=
  eapply (Inv_insert_step Z.ltb ex_draws ex_fuel _ _ _ pre [] value a) in H;
  [|reflexivity|reflexivity|repeat constructor|repeat constructor
   |by intros ?|vm_compute; lia|vm_compute; lia|vm_compute; reflexivity].

Lemma ex_Inv : Inv Z.ltb ex_state.1 ex_state.2 ex_towers.
Proof.
  pose proof ex_empty_Inv as H.
  insert_step H (@nil (@tower Z)) 1%Z 2%positive.
  insert_step H [Tower 2 1%Z 2] 3%Z 3%positive.
  insert_step H [Tower 2 1%Z 2; Tower 3 3%Z 1] 5%Z 4%positive.
  insert_step H [Tower 2 1%Z 2; Tower 3 3%Z 1; Tower 4 5%Z 0] 7%Z 5%positive.
  insert_step H [Tower 2 1%Z 2; Tower 3 3%Z 1; Tower 4 5%Z 0; Tower 5 7%Z 1]
              9%Z 6%positive.
  exact H.
Qed.

Lemma ex_WF : WF Z.ltb ex_state.1 ex_state.2 ex_towers.
Proof.
  split; [apply ex_Inv|]. split.
  - right. vm_compute. done.
  - split; vm_compute; done.
Qed.

Lemma ex_towers_elem (P : @tower Z → Prop) :
  P (Tower 2 1%Z 2) → P (Tower 3 3%Z 1) → P (Tower 4 5%Z 0) →
  P (Tower 5 7%Z 1) → P (Tower 6 9%Z 2) →
  ∀ t, t ∈ ex_towers → P t.
Proof.
  intros H1 H2 H3 H4 H5 t Hin. unfold ex_towers in Hin.
  repeat (apply elem_of_cons in Hin as [->|Hin]; [assumption|]).
  by apply elem_of_nil in Hin.
Qed.

(** The first stored tower, in iteration order, that a comparison mode
    does not pass. *)
Lemma first_stop {T} (comp : T → T → bool) `{!StrictWeakOrder comp}
    (go : T → bool) (l : list (@tower T)) :
  down_closed comp go → ascending comp l →
  ∃ pre rest, l = pre ++ rest ∧ passes go pre ∧ stops go rest ∧
    (∀ t, head rest = Some t → go (t_val t) = false).
Proof.
  intros Hdc Hs.
  destruct (ascending_split comp go l Hdc Hs) as (pre & rest & -> & Hp & Hr).
  exists pre, rest. repeat split; [done..|].
  intros t Ht. destruct rest as [|r rest]; [done|]. injection Ht as ->.
  by apply Forall_cons in Hr as [? _].
Qed.

(** * The claims of the specification *)

(** C1 (sortedness invariant).  After any finite sequence of public
    operations (the overloads of [insert] and [erase], and [clear]) on a
    freshly constructed container, whatever the draws and the allocator
    do, the container stores a list of towers for which the structural
    invariant holds; iterating from [begin()] to [end()] visits exactly the
    payloads of these towers, and any two visited elements are ordered by
    the comparator in the order of the visit, so no two of them are
    comparator-equivalent. *)
Theorem sortedness_invariant {T} (comp : T → T → bool) (draws : nat → bool)
    `{!StrictWeakOrder comp} (fuel : nat) (ops : list op)
    (m0 : gmap positive (@Node T)) (a : positive) m j :
  run comp draws fuel ops (construct m0 a) = Some (m, j) →
  ∃ l, Inv comp m j l ∧
    (∀ fuel', length l < fuel' → elements fuel' m j = Some (map t_val l)) ∧
    (∀ i k x y, i < k →
       map t_val l !! i = Some x → map t_val l !! k = Some y →
       comp x y = true ∧ ¬ equiv comp x y).
Proof.
  intros Hrun.
  destruct (run_Inv comp draws fuel ops _ _ [] m j (construct_spec comp m0 a) Hrun)
    as (l & HI).
  exists l. split; [done|]. split.
  - intros fuel' Hf. by apply (elements_spec comp).
  - intros i k x y. apply ascending_values. apply HI.
Qed.

Lemma sortedness_invariant_witness :
  ∃ l, Inv Z.ltb ex_history_state.1 ex_history_state.2 l ∧
    (∀ fuel', length l < fuel' →
       elements fuel' ex_history_state.1 ex_history_state.2
       = Some (map t_val l)) ∧
    (∀ i k x y, i < k →
       map t_val l !! i = Some x → map t_val l !! k = Some y →
       Z.ltb x y = true ∧ ¬ equiv Z.ltb x y).
Proof.
  apply (sortedness_invariant Z.ltb ex_draws ex_fuel ex_history ∅ 1).
  vm_compute. reflexivity.
Defined.

(** C2 (insert semantics).  On a container that satisfies the invariant:
    if a stored element is comparator-equivalent to the value, [insert]
    returns an iterator to that element and [false], and leaves memory and
    container as they were, whatever the allocator would have done;
    otherwise, with a successful allocation at a fresh address, it returns
    an iterator to the new node and [true], the container stores the old
    towers with the new one at its place in the order, iteration yields
    the old elements with the value at that place, [size()] has been
    incremented (by one, unless [size_t] wraps), and a further insert of
    an equivalent value changes nothing and returns the same node and
    [false]. *)
Theorem insert_semantics {T} (comp : T → T → bool) (draws : nat → bool)
    `{!StrictWeakOrder comp} (fuel : nat) m j l (value : T) :
  Inv comp m j l → length l < fuel → MAX_LEVEL < fuel →
  (∀ t oc, t ∈ l → equiv comp (t_val t) value →
     insert comp draws fuel m j value oc
     = Some (m, j, Normal (Iterator (Some (t_addr t)) (Some (header j)), false))) ∧
  ((∀ t, t ∈ l → ¬ equiv comp (t_val t) value) →
   ∀ a, m !! a = None →
   ∃ m' j' pre rest h,
     insert comp draws fuel m j value (AllocOk a)
     = Some (m', j', Normal (Iterator (Some a) (Some (header j)), true)) ∧
     l = pre ++ rest ∧
     Inv comp m' j' (pre ++ Tower a value h :: rest) ∧
     elements (S fuel) m' j'
     = Some (map t_val pre ++ value :: map t_val rest) ∧
     deref m' (Iterator (Some a) (Some (header j))) = Some value ∧
     size j' = size_incr (size j) ∧
     ((size j + 1 < SIZE_MOD)%N → size j' = (size j + 1)%N) ∧
     (level_minimal j l → level_minimal j' (pre ++ Tower a value h :: rest)) ∧
     (∀ value' oc', equiv comp value value' →
        insert comp draws (S fuel) m' j' value' oc'
        = Some (m', j',
                Normal (Iterator (Some a) (Some (header j)), false)))).
Proof.
  intros HI Hfuel Hfuel'. split.
  - intros t oc (A & B & Hl)%list_elem_of_split Heq.
    by apply (insert_existing_spec comp draws fuel m j l A t B).
  - intros Hne a Ha.
    destruct (no_equiv_split comp l value (inv_sorted _ _ _ _ HI) Hne)
      as (pre & rest & Hl & Hpass & Hstop & Hhead).
    destruct (insert_new_spec comp draws fuel m j l pre rest value a
                HI Hl Ha Hpass Hstop Hhead Hfuel Hfuel') as (m' & Hins & HI').
    cbv zeta in Hins, HI'.
    set (h := successes draws MAX_LEVEL (rng j)) in *.
    set (j' := JumpList (header j) (if decide (level j < h) then h else level j)
                        (size_incr (size_ j)) (S (rng j + h))) in *.
    set (tn := Tower a value h).
    assert (Hlen : length (pre ++ tn :: rest) < S fuel).
    { rewrite Hl in Hfuel. rewrite length_app in *. simpl. lia. }
    exists m', j', pre, rest, h. split; [done|]. split; [done|]. split; [done|].
    split; [|split; [|split; [|split; [|split]]]].
    + rewrite (elements_spec comp (S fuel) m' j' _ HI' Hlen).
      by rewrite map_app.
    + apply (deref_tower comp m' j' _ tn _ HI').
      rewrite elem_of_app, elem_of_cons. auto.
    + done.
    + intros Hs. unfold size. simpl. by apply size_incr_small.
    + intros Hmin. rewrite Hl in Hmin.
      by apply (insert_level_minimal j j' pre rest tn).
    + intros value' oc' Heq.
      by apply (insert_existing_spec comp draws (S fuel) m' j'
                  (pre ++ tn :: rest) pre tn rest).
Qed.

Lemma insert_semantics_witness :
  insert Z.ltb ex_draws ex_fuel ex_state.1 ex_state.2 5%Z AllocFails
  = Some (ex_state.1, ex_state.2, Normal (ex_it 4, false)) ∧
  ∃ m' j' pre rest h,
    insert Z.ltb ex_draws ex_fuel ex_state.1 ex_state.2 4%Z (AllocOk 7)
    = Some (m', j', Normal (ex_it 7, true)) ∧
    ex_towers = pre ++ rest ∧
    Inv Z.ltb m' j' (pre ++ Tower 7 4%Z h :: rest) ∧
    elements (S ex_fuel) m' j' = Some (map t_val pre ++ 4%Z :: map t_val rest) ∧
    deref m' (ex_it 7) = Some 4%Z ∧
    size j' = size_incr (size ex_state.2) ∧
    ((size ex_state.2 + 1 < SIZE_MOD)%N → size j' = (size ex_state.2 + 1)%N) ∧
    (level_minimal ex_state.2 ex_towers →
     level_minimal j' (pre ++ Tower 7 4%Z h :: rest)) ∧
    (∀ value' oc', equiv Z.ltb 4%Z value' →
       insert Z.ltb ex_draws (S ex_fuel) m' j' value' oc'
       = Some (m', j', Normal (ex_it 7, false))).
Proof.
  split.
  - apply (proj1 (insert_semantics Z.ltb ex_draws ex_fuel ex_state.1 ex_state.2
                    ex_towers 5%Z ex_Inv ltac:(vm_compute; lia)
                    ltac:(vm_compute; lia)) (Tower 4 5%Z 0)).
    + vm_compute. do 2 right. left.
    + split; reflexivity.
  - apply (proj2 (insert_semantics Z.ltb ex_draws ex_fuel ex_state.1 ex_state.2
                    ex_towers 4%Z ex_Inv ltac:(vm_compute; lia)
                    ltac:(vm_compute; lia))).
    + apply ex_towers_elem; intros [H1 H2]; vm_compute in H1, H2; congruence.
    + reflexivity.
Defined.

(** C3 (bound semantics).  On a container that satisfies the invariant,
    the stored towers split into those ordered before the key and the
    rest, and [lower_bound] returns the iterator to the first tower of
    the rest, the first element [e] in iteration order with
    [comp(e, key)] false, or [end()] when there is none; they also split
    into those the key is not ordered before and the rest, and
    [upper_bound] returns the iterator to the first tower of that rest,
    the first element [e] with [comp(key, e)] true, or [end()].  On any
    container of integers under [<] that stores [1, 3, 5, 7, 9],
    [lower_bound(4)] references 5, [upper_bound(5)] references 7 and
    [upper_bound(9)] equals [end()]. *)
Theorem bound_semantics :
  (∀ T (comp : T → T → bool), StrictWeakOrder comp →
   ∀ fuel m j l (key : T),
     Inv comp m j l → length l < fuel →
     (∃ pre rest, l = pre ++ rest ∧
        Forall (λ t, comp (t_val t) key = true) pre ∧
        (∀ t, head rest = Some t → comp (t_val t) key = false) ∧
        lower_bound comp fuel m j key
        = Some (Iterator (t_addr <$> head rest) (Some (header j)))) ∧
     (∃ pre rest, l = pre ++ rest ∧
        Forall (λ t, comp key (t_val t) = false) pre ∧
        (∀ t, head rest = Some t → comp key (t_val t) = true) ∧
        upper_bound comp fuel m j key
        = Some (Iterator (t_addr <$> head rest) (Some (header j))))) ∧
  (∀ fuel m j l,
     Inv Z.ltb m j l → map t_val l = [1; 3; 5; 7; 9]%Z → length l < fuel →
     (∃ it, lower_bound Z.ltb fuel m j 4%Z = Some it ∧ deref m it = Some 5%Z) ∧
     (∃ it, upper_bound Z.ltb fuel m j 5%Z = Some it ∧ deref m it = Some 7%Z) ∧
     upper_bound Z.ltb fuel m j 9%Z = Some (end_ j)).
Proof.
  split.
  - intros T comp HSWO fuel m j l key HI Hfuel. split.
    + destruct (first_stop comp (λ x, comp x key) l (down_closed_before comp key)
                  (inv_sorted _ _ _ _ HI))
        as (pre & rest & Hl & Hp & Hr & Hh).
      exists pre, rest. split; [done|]. split; [done|]. split; [done|].
      rewrite <- nxt_0. by apply (lower_bound_spec comp fuel m j l pre rest).
    + destruct (first_stop comp (λ x, negb (comp key x)) l
                  (down_closed_not_after comp key) (inv_sorted _ _ _ _ HI))
        as (pre & rest & Hl & Hp & Hr & Hh).
      exists pre, rest. split; [done|].
      split; [|split].
      * eapply Forall_impl; [exact Hp|]. simpl. intros t Ht.
        by apply negb_true_iff in Ht.
      * intros t Ht. specialize (Hh t Ht). by apply negb_false_iff in Hh.
      * rewrite <- nxt_0. by apply (upper_bound_spec comp fuel m j l pre rest).
  - intros fuel m j l HI Hvals Hfuel.
    destruct l as [|t1 [|t3 [|t5 [|t7 [|t9 [|? ?]]]]]]; try done.
    simpl in Hvals. injection Hvals as H1 H3 H5 H7 H9.
    split; [|split].
    + rewrite (lower_bound_spec Z.ltb fuel m j _ [t1; t3] [t5; t7; t9] 4%Z HI);
        [|done| | |done].
      * eexists. split; [done|]. rewrite nxt_0. simpl.
        rewrite <- H5. apply (deref_tower Z.ltb m j _ t5 _ HI).
        do 2 right. left.
      * repeat constructor; simpl; [by rewrite H1|by rewrite H3].
      * repeat constructor; simpl; [by rewrite H5|by rewrite H7|by rewrite H9].
    + rewrite (upper_bound_spec Z.ltb fuel m j _ [t1; t3; t5] [t7; t9] 5%Z HI);
        [|done| | |done].
      * eexists. split; [done|]. rewrite nxt_0. simpl.
        rewrite <- H7. apply (deref_tower Z.ltb m j _ t7 _ HI).
        do 3 right. left.
      * repeat constructor; simpl; [by rewrite H1|by rewrite H3|by rewrite H5].
      * repeat constructor; simpl; [by rewrite H7|by rewrite H9].
    + rewrite (upper_bound_spec Z.ltb fuel m j _ [t1; t3; t5; t7; t9] [] 9%Z HI);
        [done|done| |constructor|done].
      repeat constructor; simpl;
        [by rewrite H1|by rewrite H3|by rewrite H5|by rewrite H7|by rewrite H9].
Qed.

Lemma bound_semantics_witness :
  (∃ it, lower_bound Z.ltb ex_fuel ex_state.1 ex_state.2 4%Z = Some it ∧
         deref ex_state.1 it = Some 5%Z) ∧
  (∃ it, upper_bound Z.ltb ex_fuel ex_state.1 ex_state.2 5%Z = Some it ∧
         deref ex_state.1 it = Some 7%Z) ∧
  upper_bound Z.ltb ex_fuel ex_state.1 ex_state.2 9%Z = Some (end_ ex_state.2).
Proof.
  apply (proj2 bound_semantics ex_fuel ex_state.1 ex_state.2 ex_towers ex_Inv).
  - reflexivity.
  - vm_compute. lia.
Defined.

(** C4 (erase by position).  On a container that satisfies the
    invariant: [erase(end())] changes nothing and returns [end()]; for an
    iterator that references a value, if no stored element is
    comparator-equivalent to that value (the search does not land on
    one), [erase] changes nothing and returns [end()]; otherwise it
    removes the stored element equivalent to the value: that node is
    destroyed, the other towers stay in their order, [size()] is
    decremented (by one, as [size()] counts the elements), and the
    returned iterator references the tower that followed the erased one,
    or is [end()] when it was the last. *)
Theorem erase_position {T} (comp : T → T → bool) `{!StrictWeakOrder comp}
    (fuel : nat) m j l (pos : iterator) :
  Inv comp m j l → length l < fuel →
  (node pos = None → erase comp fuel m j pos = Some (m, j, end_ j)) ∧
  (∀ value, deref m pos = Some value →
     ((∀ t, t ∈ l → ¬ equiv comp (t_val t) value) →
      erase comp fuel m j pos = Some (m, j, end_ j)) ∧
     (∀ A t B, l = A ++ t :: B → equiv comp (t_val t) value →
        ∃ m' j',
          erase comp fuel m j pos
          = Some (m', j', Iterator (t_addr <$> head B) (Some (header j))) ∧
          Inv comp m' j' (A ++ B) ∧
          elements fuel m' j' = Some (map t_val A ++ map t_val B) ∧
          m' !! t_addr t = None ∧
          level_minimal j' (A ++ B) ∧
          size j' = size_decr (size j) ∧
          (size_ok j l → size_ok j' (A ++ B) ∧ size j' = (size j - 1)%N))).
Proof.
  intros HI Hfuel. split; [apply erase_end_spec|].
  intros value Hderef. unfold deref in Hderef.
  destruct (node pos) as [p|] eqn:Hpos; [|done]. simpl in Hderef. split.
  - intros Hne. by apply (erase_absent_spec comp fuel m j l pos p value).
  - intros A t B Hl Heq.
    destruct (erase_spec comp fuel m j l A t B pos p value HI Hl Hpos Hderef Heq Hfuel)
      as (m' & lvl' & Her & HI' & Hmin & _ & Hgone).
    cbv zeta in Her, HI', Hmin. eexists _, _. split; [by rewrite <- nxt_0|].
    split; [done|]. split; [|split; [done|split; [done|split; [done|]]]].
    + rewrite (elements_spec comp fuel m' _ _ HI'); [by rewrite map_app|].
      rewrite Hl in Hfuel. rewrite length_app in *. simpl in Hfuel. lia.
    + intros Hs. split; [by eapply size_ok_erase|].
      unfold size. simpl. destruct Hs as [Hs Hlt]. rewrite Hs.
      apply size_decr_pos. rewrite Hl, length_app in *. simpl in *. lia.
Qed.

Lemma erase_position_witness :
  erase Z.ltb ex_fuel ex_state.1 ex_state.2 (end_ ex_state.2)
  = Some (ex_state.1, ex_state.2, end_ ex_state.2) ∧
  ∃ m' j',
    erase Z.ltb ex_fuel ex_state.1 ex_state.2 (ex_it 4)
    = Some (m', j', ex_it 5) ∧
    Inv Z.ltb m' j' [Tower 2 1%Z 2; Tower 3 3%Z 1; Tower 5 7%Z 1; Tower 6 9%Z 2] ∧
    elements ex_fuel m' j' = Some [1; 3; 7; 9]%Z ∧
    m' !! 4%positive = None ∧
    level_minimal j' [Tower 2 1%Z 2; Tower 3 3%Z 1; Tower 5 7%Z 1; Tower 6 9%Z 2] ∧
    size j' = size_decr (size ex_state.2) ∧
    (size_ok ex_state.2 ex_towers →
     size_ok j' [Tower 2 1%Z 2; Tower 3 3%Z 1; Tower 5 7%Z 1; Tower 6 9%Z 2] ∧
     size j' = (size ex_state.2 - 1)%N).
Proof.
  split.
  - apply (proj1 (erase_position Z.ltb ex_fuel ex_state.1 ex_state.2 ex_towers
                    (end_ ex_state.2) ex_Inv ltac:(vm_compute; lia))).
    reflexivity.
  - apply (proj2 (proj2 (erase_position Z.ltb ex_fuel ex_state.1 ex_state.2
                           ex_towers (ex_it 4) ex_Inv ltac:(vm_compute; lia))
                        5%Z eq_refl)
             [Tower 2 1%Z 2; Tower 3 3%Z 1] (Tower 4 5%Z 0)
             [Tower 5 7%Z 1; Tower 6 9%Z 2]).
    + reflexivity.
    + split; reflexivity.
Defined.

(** C5 (erase by key).  On a container that satisfies the invariant,
    [erase(key)] returns and its result is 0 or 1.  When a stored element
    is comparator-equivalent to the key, it is the only one, the result
    is 1, its node is destroyed and the other towers stay in their order,
    [find(key)] then returns [end()] and [size()] is decremented (by one,
    as [size()] counts the elements).  When no stored element is
    equivalent to the key, the result is 0 and memory and container are
    unchanged. *)
Theorem erase_by_key {T} (comp : T → T → bool) `{!StrictWeakOrder comp}
    (fuel : nat) m j l (key : T) :
  Inv comp m j l → length l < fuel →
  (∃ m' j' n, erase_key comp fuel m j key = Some (m', j', n) ∧
              (n = 0 ∨ n = 1)%N) ∧
  (∀ A t B, l = A ++ t :: B → equiv comp (t_val t) key →
     (∀ t', t' ∈ A ++ B → ¬ equiv comp (t_val t') key) ∧
     ∃ m' j',
       erase_key comp fuel m j key = Some (m', j', 1%N) ∧
       Inv comp m' j' (A ++ B) ∧
       elements fuel m' j' = Some (map t_val A ++ map t_val B) ∧
       m' !! t_addr t = None ∧
       find comp fuel m' j' key = Some (end_ j') ∧
       size j' = size_decr (size j) ∧
       (size_ok j l → size_ok j' (A ++ B) ∧ size j' = (size j - 1)%N)) ∧
  ((∀ t, t ∈ l → ¬ equiv comp (t_val t) key) →
   erase_key comp fuel m j key = Some (m, j, 0%N)).
Proof.
  intros HI Hfuel.
  assert (Hfound : ∀ A t B, l = A ++ t :: B → equiv comp (t_val t) key →
     (∀ t', t' ∈ A ++ B → ¬ equiv comp (t_val t') key) ∧
     ∃ m' j',
       erase_key comp fuel m j key = Some (m', j', 1%N) ∧
       Inv comp m' j' (A ++ B) ∧
       elements fuel m' j' = Some (map t_val A ++ map t_val B) ∧
       m' !! t_addr t = None ∧
       find comp fuel m' j' key = Some (end_ j') ∧
       size j' = size_decr (size j) ∧
       (size_ok j l → size_ok j' (A ++ B) ∧ size j' = (size j - 1)%N)).
  { intros A t B Hl Heq. split.
    { apply (ascending_equiv_unique comp A t B key); [|done].
      rewrite <- Hl. apply HI. }
    destruct (erase_key_found_spec comp fuel m j l A t B key HI Hl Heq Hfuel)
      as (m' & lvl' & Her & HI' & _ & _ & Hgone & Hfind).
    cbv zeta in Her, HI', Hfind. eexists _, _. split; [done|].
    split; [done|]. split; [|split; [done|split; [done|split; [done|]]]].
    - rewrite (elements_spec comp fuel m' _ _ HI'); [by rewrite map_app|].
      rewrite Hl in Hfuel. rewrite length_app in *. simpl in Hfuel. lia.
    - intros Hs. split; [by eapply size_ok_erase|].
      unfold size. simpl. destruct Hs as [Hs Hlt]. rewrite Hs.
      apply size_decr_pos. rewrite Hl, length_app in *. simpl in *. lia. }
  assert (Habsent : (∀ t, t ∈ l → ¬ equiv comp (t_val t) key) →
                    erase_key comp fuel m j key = Some (m, j, 0%N)).
  { intros Hne. by apply (erase_key_absent_spec comp fuel m j l). }
  split; [|by split].
  destruct (stored_dec comp l key (inv_sorted _ _ _ _ HI))
    as [(A & t & B & Hl & Heq)|Hne].
  - destruct (Hfound A t B Hl Heq) as (_ & m' & j' & Her & _). eauto 10.
  - rewrite (Habsent Hne). eauto 10.
Qed.

Lemma erase_by_key_witness :
  (∃ m' j',
     erase_key Z.ltb ex_fuel ex_state.1 ex_state.2 5%Z = Some (m', j', 1%N) ∧
     Inv Z.ltb m' j' [Tower 2 1%Z 2; Tower 3 3%Z 1; Tower 5 7%Z 1; Tower 6 9%Z 2] ∧
     elements ex_fuel m' j' = Some [1; 3; 7; 9]%Z ∧
     m' !! 4%positive = None ∧
     find Z.ltb ex_fuel m' j' 5%Z = Some (end_ j') ∧
     size j' = size_decr (size ex_state.2) ∧
     (size_ok ex_state.2 ex_towers →
      size_ok j' [Tower 2 1%Z 2; Tower 3 3%Z 1; Tower 5 7%Z 1; Tower 6 9%Z 2] ∧
      size j' = (size ex_state.2 - 1)%N)) ∧
  erase_key Z.ltb ex_fuel ex_state.1 ex_state.2 42%Z
  = Some (ex_state.1, ex_state.2, 0%N).
Proof.
  pose proof (erase_by_key Z.ltb ex_fuel ex_state.1 ex_state.2 ex_towers 5%Z
                ex_Inv ltac:(vm_compute; lia)) as (_ & H5 & _).
  pose proof (erase_by_key Z.ltb ex_fuel ex_state.1 ex_state.2 ex_towers 42%Z
                ex_Inv ltac:(vm_compute; lia)) as (_ & _ & H42).
  split.
  - apply (H5 [Tower 2 1%Z 2; Tower 3 3%Z 1] (Tower 4 5%Z 0)
              [Tower 5 7%Z 1; Tower 6 9%Z 2]).
    + reflexivity.
    + split; reflexivity.
  - apply H42.
    apply ex_towers_elem; intros [H1 H2]; vm_compute in H1, H2; congruence.
Defined.

(** C6 (insert on allocation failure), evaluated where it fails.  On the
    empty container, which satisfies all invariants, an [insert] whose
    sampled level is 2 and whose node creation fails leaves by the
    exception with the memory unchanged, so no node is reachable and the
    structural invariant holds, but with [level] raised to 2 although
    [header.forward[1]] and [header.forward[2]] are null: [level] is no
    longer the smallest value above which the header has no links.
    ([insert_throw_level] has the general case: this happens whenever the
    sampled level exceeds the current one.) *)
Theorem insert_bad_alloc_raises_level :
  WF Z.ltb ex_empty.1 ex_empty.2 [] ∧
  insert Z.ltb ex_draws ex_fuel ex_empty.1 ex_empty.2 5%Z AllocFails
  = Some (ex_empty.1, JumpList 1 2 0 3, BadAlloc) ∧
  insert Z.ltb ex_draws ex_fuel ex_empty.1 ex_empty.2 5%Z (ConstructFails 2)
  = Some (ex_empty.1, JumpList 1 2 0 3, BadAlloc) ∧
  Inv Z.ltb ex_empty.1 (JumpList 1 2 0 3) [] ∧
  (∀ i, 0 < i ≤ MAX_LEVEL → get_forward ex_empty.1 1 i = Some None) ∧
  ¬ level_minimal (T:=Z) (JumpList 1 2 0 3) [] ∧
  ¬ WF Z.ltb ex_empty.1 (JumpList 1 2 0 3) [].
Proof.
  assert (Hmin : ¬ level_minimal (T:=Z) (JumpList 1 2 0 3) []).
  { intros [H|H]; [discriminate|]. by apply H. }
  split; [|split; [|split; [|split; [|split; [|split]]]]].
  - split; [apply ex_empty_Inv|]. split; [by left|]. by split.
  - vm_compute. reflexivity.
  - vm_compute. reflexivity.
  - apply (Inv_relevel Z.ltb ex_empty.1 ex_empty.2);
      [apply ex_empty_Inv|done|constructor|].
    vm_compute. lia.
  - intros i [_ Hi].
    destruct (inv_header _ _ _ _ ex_empty_Inv) as (_ & _ & Hfw & _).
    change (header ex_empty.2) with 1%positive in Hfw.
    rewrite Hfw. by rewrite decide_True.
  - exact Hmin.
  - intros (_ & H & _). by apply Hmin.
Qed.

(** C7 (equal_range semantics).  On a container that satisfies the
    invariant: when a stored element is comparator-equivalent to the key,
    [equal_range] returns the iterator to its node and the iterator to
    the tower that follows it, or [end()] when it is the last; when no
    stored element is equivalent to the key, both iterators are [end()],
    whatever is stored after the key. *)
Theorem equal_range_semantics {T} (comp : T → T → bool)
    `{!StrictWeakOrder comp} (fuel : nat) m j l (key : T) :
  Inv comp m j l → length l < fuel →
  (∀ A t B, l = A ++ t :: B → equiv comp (t_val t) key →
     equal_range comp fuel m j key
     = Some (Iterator (Some (t_addr t)) (Some (header j)),
             Iterator (t_addr <$> head B) (Some (header j)))) ∧
  ((∀ t, t ∈ l → ¬ equiv comp (t_val t) key) →
   equal_range comp fuel m j key = Some (end_ j, end_ j)).
Proof.
  intros HI Hfuel. split.
  - intros A t B Hl Heq. rewrite <- nxt_0.
    by apply (equal_range_found_spec comp fuel m j l A t B).
  - intros Hne. by apply (equal_range_absent_spec comp fuel m j l).
Qed.

Lemma equal_range_semantics_witness :
  equal_range Z.ltb ex_fuel ex_state.1 ex_state.2 5%Z
  = Some (ex_it 4, ex_it 5) ∧
  equal_range Z.ltb ex_fuel ex_state.1 ex_state.2 42%Z
  = Some (end_ ex_state.2, end_ ex_state.2) ∧
  equal_range Z.ltb ex_fuel ex_state.1 ex_state.2 4%Z
  = Some (end_ ex_state.2, end_ ex_state.2).
Proof.
  pose proof (equal_range_semantics Z.ltb ex_fuel ex_state.1 ex_state.2 ex_towers
                5%Z ex_Inv ltac:(vm_compute; lia)) as [H5 _].
  pose proof (equal_range_semantics Z.ltb ex_fuel ex_state.1 ex_state.2 ex_towers
                42%Z ex_Inv ltac:(vm_compute; lia)) as [_ H42].
  pose proof (equal_range_semantics Z.ltb ex_fuel ex_state.1 ex_state.2 ex_towers
                4%Z ex_Inv ltac:(vm_compute; lia)) as [_ H4].
  split; [|split].
  - apply (H5 [Tower 2 1%Z 2; Tower 3 3%Z 1] (Tower 4 5%Z 0)
              [Tower 5 7%Z 1; Tower 6 9%Z 2]).
    + reflexivity.
    + split; reflexivity.
  - apply H42.
    apply ex_towers_elem; intros [H1 H2]; vm_compute in H1, H2; congruence.
  - apply H4.
    apply ex_towers_elem; intros [H1 H2]; vm_compute in H1, H2; congruence.
Defined.

(** C8, as the code has it (whole-container comparison).  For two
    containers in one memory whose iterations yield [xs] and [ys] and
    whose [size()] count these elements: [operator==] returns, and returns
    true iff the sizes are equal and the elements are pairwise equal
    under [operator==] of the element type, in iteration order;
    [operator<] returns the lexicographic comparison of [xs] and [ys]
    under [operator<] of the element type.  For containers of integers,
    [{1,2,3} < {1,2,4}] and [{1,2,3} < {1,2,3,4}]. *)
Theorem whole_container_comparison :
  (∀ T (eqT ltT : T → T → bool) fuel m lhs rhs (xs ys : list T),
     elements fuel m lhs = Some xs → elements fuel m rhs = Some ys →
     size lhs = N.of_nat (length xs) → size rhs = N.of_nat (length ys) →
     (∃ b, operator_eq eqT fuel m lhs rhs = Some b ∧
           (b = true ↔
            size lhs = size rhs ∧ Forall2 (λ x y, eqT x y = true) xs ys)) ∧
     operator_lt ltT fuel m lhs rhs = Some (lex_less ltT xs ys)) ∧
  (∀ fuel (m : gmap positive (@Node Z)) lhs rhs,
     elements fuel m lhs = Some [1; 2; 3]%Z →
     (elements fuel m rhs = Some [1; 2; 4]%Z ∨
      elements fuel m rhs = Some [1; 2; 3; 4]%Z) →
     operator_lt Z.ltb fuel m lhs rhs = Some true).
Proof.
  split.
  - intros T eqT ltT fuel m lhs rhs xs ys Hxs Hys Hs1 Hs2. split.
    + exists (equal_lists eqT xs ys). split; [by apply operator_eq_spec|].
      rewrite equal_lists_spec. split.
      * intros HF. split; [|done]. rewrite Hs1, Hs2.
        by rewrite (Forall2_length _ _ _ HF).
      * by intros [_ ?].
    + by apply operator_lt_spec.
  - intros fuel m lhs rhs Hxs [Hys|Hys];
      by rewrite (operator_lt_spec Z.ltb fuel m lhs rhs _ _ Hxs Hys).
Qed.

Lemma whole_container_comparison_witness :
  let '(m, (a, b, c)) := ex_three in
  operator_eq Z.eqb ex_fuel m a b = Some false ∧
  operator_eq Z.eqb ex_fuel m a a = Some true ∧
  operator_lt Z.ltb ex_fuel m a b = Some true ∧
  operator_lt Z.ltb ex_fuel m a c = Some true ∧
  operator_lt Z.ltb ex_fuel m b a = Some false.
Proof.
  destruct whole_container_comparison as [Hgen Hex]. simpl.
  set (m := ex_three.1). set (a := ex_three.2.1.1).
  set (b := ex_three.2.1.2). set (c := ex_three.2.2).
  assert (Ha : elements ex_fuel m a = Some [1; 2; 3]%Z) by reflexivity.
  assert (Hb : elements ex_fuel m b = Some [1; 2; 4]%Z) by reflexivity.
  assert (Hc : elements ex_fuel m c = Some [1; 2; 3; 4]%Z) by reflexivity.
  split; [|split; [|split; [|split]]].
  - destruct (Hgen Z Z.eqb Z.ltb ex_fuel m a b _ _ Ha Hb eq_refl eq_refl)
      as [(bo & Heq & Hiff) _].
    change (operator_eq Z.eqb ex_fuel m a b = Some false).
    rewrite Heq. f_equal. destruct bo; [|done].
    destruct (proj1 Hiff eq_refl) as [_ HF].
    apply Forall2_cons in HF as [_ HF]. apply Forall2_cons in HF as [_ HF].
    apply Forall2_cons in HF as [HF _]. done.
  - destruct (Hgen Z Z.eqb Z.ltb ex_fuel m a a _ _ Ha Ha eq_refl eq_refl)
      as [(bo & Heq & Hiff) _].
    change (operator_eq Z.eqb ex_fuel m a a = Some true).
    rewrite Heq. f_equal. apply Hiff. split; [done|]. by repeat constructor.
  - exact (Hex ex_fuel m a b Ha (or_introl Hb)).
  - exact (Hex ex_fuel m a c Ha (or_intror Hc)).
  - destruct (Hgen Z Z.eqb Z.ltb ex_fuel m b a _ _ Hb Ha eq_refl eq_refl)
      as [_ Hlt].
    exact Hlt.
Defined.

(** C8, as the specification states it, fails: the two containers
    [{(1,1)}] and [{(1,2)}] of pairs ordered by their first component
    have the same size and their elements are pairwise
    comparator-equivalent in iteration order, but [operator==], which
    compares the elements with [operator==] of the pair type, returns
    false. *)
Lemma operator_eq_not_comparator_equivalence :
  let '(m, (a, b)) := ex_pairs in
  elements ex_fuel m a = Some [(1, 1)%Z] ∧
  elements ex_fuel m b = Some [(1, 2)%Z] ∧
  size a = size b ∧
  Forall2 (equiv key_less) [(1, 1)%Z] [(1, 2)%Z] ∧
  operator_eq pair_eq ex_fuel m a b = Some false ∧
  ¬ (operator_eq pair_eq ex_fuel m a b = Some true ↔
     size a = size b ∧ Forall2 (equiv key_less) [(1, 1)%Z] [(1, 2)%Z]).
Proof.
  simpl.
  assert (HF : Forall2 (equiv key_less) [(1, 1)%Z] [(1, 2)%Z]).
  { repeat constructor. }
  split; [reflexivity|]. split; [reflexivity|]. split; [reflexivity|].
  split; [exact HF|]. split; [reflexivity|].
  intros [_ Hbad]. specialize (Hbad (conj eq_refl HF)).
  vm_compute in Hbad. discriminate.
Qed.

(** C9 (level generator contract).  Whatever the draws are, [randomLevel]
    returns once the loop is given [MAX_LEVEL + 1] steps, with
    [MAX_LEVEL = 32]: the level it returns is at most [MAX_LEVEL], every
    draw before it succeeded, and it stopped either at the first failing
    draw or at [MAX_LEVEL]; it consumed one draw per test of the loop
    condition.  The probability [P = 0.5] is the weight of a successful
    draw and is not part of the statement. *)
Theorem randomLevel_contract (draws : nat → bool) (fuel g : nat) :
  MAX_LEVEL < fuel →
  MAX_LEVEL = 32 ∧
  ∃ lvl,
    randomLevel draws fuel g = Some (lvl, S (g + lvl)) ∧
    lvl ≤ MAX_LEVEL ∧
    (∀ k, k < lvl → draws (g + k) = true) ∧
    (lvl < MAX_LEVEL → draws (g + lvl) = false).
Proof.
  intros Hfuel. split; [reflexivity|].
  exists (successes draws MAX_LEVEL g). split; [|split; [|split]].
  - by apply randomLevel_spec.
  - apply successes_le.
  - intros k. apply successes_true.
  - apply successes_false.
Qed.

Lemma randomLevel_contract_witness :
  MAX_LEVEL = 32 ∧
  ∃ lvl,
    randomLevel ex_draws ex_fuel 0 = Some (lvl, S (0 + lvl)) ∧
    lvl ≤ MAX_LEVEL ∧
    (∀ k, k < lvl → ex_draws (0 + k) = true) ∧
    (lvl < MAX_LEVEL → ex_draws (0 + lvl) = false).
Proof. apply (randomLevel_contract ex_draws ex_fuel 0). vm_compute. lia. Defined.

(** C10 (empty-range erase).  For every container, in whatever state, and
    every iterator [it], the range overload [erase(it, it)] changes
    neither the memory nor the container and returns [end()], not the
    position it was given: the returned iterator differs from [it]
    whenever [it] references a node, and equals it only when [it] is
    [end()] itself. *)
Theorem erase_empty_range {T} (comp : T → T → bool) (fuel : nat)
    (m : gmap positive (@Node T)) (j : jump_list) (it : iterator) :
  0 < fuel →
  erase_range comp fuel m j it it = Some (m, j, end_ j) ∧
  (node it ≠ None → iterator_eq (end_ j) it = false) ∧
  (node it = None → iterator_eq (end_ j) it = true).
Proof.
  intros Hfuel. split; [|split].
  - unfold erase_range. destruct fuel as [|fuel]; [lia|]. simpl.
    unfold iterator_eq. by rewrite bool_decide_eq_true_2.
  - intros Hit. unfold iterator_eq, end_. simpl.
    apply bool_decide_eq_false_2. congruence.
  - intros Hit. unfold iterator_eq, end_. simpl.
    apply bool_decide_eq_true_2. congruence.
Qed.

Lemma erase_empty_range_witness :
  erase_range Z.ltb ex_fuel ex_state.1 ex_state.2 (ex_it 4) (ex_it 4)
  = Some (ex_state.1, ex_state.2, end_ ex_state.2) ∧
  (node (ex_it 4) ≠ None → iterator_eq (end_ ex_state.2) (ex_it 4) = false) ∧
  (node (ex_it 4) = None → iterator_eq (end_ ex_state.2) (ex_it 4) = true).
Proof. apply (erase_empty_range Z.ltb ex_fuel). vm_compute. lia. Defined.


(** * Further properties of the container *)

Section Iterators.
Context {T : Type}.
Variable comp : T → T → bool.
Context `{!StrictWeakOrder comp}.

Implicit Types (m : gmap positive (@Node T)) (l pre rest : list (@tower T)).
Implicit Types (t : @tower T) (p a hd d : positive) (q : option positive).
Implicit Types (A B : list (@tower T)) (j : jump_list).

(** ** Backward links *)

Lemma backward_tower m j l A t B :
  Inv comp m j l → l = A ++ t :: B →
  get_backward m (t_addr t) = Some (Some (last_ge 0 (header j) A)).
Proof. intros HI Hl. by destruct (inv_nodes _ _ _ _ HI A t B Hl) as (_ & ? & _). Qed.

Lemma backward_header m j l t :
  Inv comp m j l → last l = Some t →
  get_backward m (header j) = Some (Some (t_addr t)).
Proof.
  intros HI Hlast. destruct (inv_header _ _ _ _ HI) as (_ & _ & _ & [Hb|[-> _]]).
  - rewrite Hb, last_ge_0, Hlast. done.
  - done.
Qed.

(** [--it] from the position in front of the towers [B] reaches the last
    tower before them. *)
Lemma decr_spec m j l A t B :
  Inv comp m j l → l = A ++ t :: B →
  decr m (Iterator (nxt 0 B) (Some (header j)))
  = Some (Iterator (Some (t_addr t)) (Some (header j))).
Proof.
  intros HI Hl. unfold decr. destruct B as [|b B]; simpl.
  - rewrite (backward_header m j l t HI); [done|].
    rewrite Hl. apply last_snoc.
  - rewrite (backward_tower m j l (A ++ [t]) b B HI).
    + by rewrite last_ge_0_app_cons.
    + by rewrite <- app_assoc.
Qed.

Lemma incr_spec m j l A t B h :
  Inv comp m j l → l = A ++ t :: B →
  incr m (Iterator (Some (t_addr t)) h) = Some (Iterator (nxt 0 B) h).
Proof.
  intros HI Hl. unfold incr. simpl.
  rewrite (get_forward_tower comp m j l A t B 0 HI Hl). simpl. done.
Qed.

Lemma nxt_0_ne A B :
  NoDup (map t_addr (A ++ B)) → A ≠ [] → nxt 0 B ≠ nxt 0 (A ++ B).
Proof.
  intros Hnd HA. destruct A as [|a0 A]; [done|]. simpl.
  intros Heq. apply nxt_in in Heq. simpl in Hnd.
  apply NoDup_cons in Hnd as [Hn _]. apply Hn.
  rewrite map_app, elem_of_app. by right.
Qed.

(** The loop of a reverse traversal, from the base in front of [B] down to
    [begin()]. *)
Lemma rcollect_spec m j l (h : option positive) :
  Inv comp m j l →
  ∀ A B fuel, l = A ++ B → length A < fuel →
    rcollect fuel m (Iterator (nxt 0 B) (Some (header j))) (Iterator (nxt 0 l) h)
    = Some (rev (map t_val A)).
Proof.
  intros HI A. induction A as [|t A IH] using rev_ind; intros B fuel Hl Hfuel.
  - destruct fuel; [simpl in Hfuel; lia|]. simpl in *. subst l.
    unfold iterator_eq. simpl. by rewrite bool_decide_eq_true_2.
  - destruct fuel as [|fuel]; [lia|]. rewrite length_app in Hfuel. simpl in Hfuel.
    rewrite <- app_assoc in Hl. simpl in Hl.
    cbn [rcollect]. unfold iterator_eq at 1. cbn [node].
    rewrite bool_decide_eq_false_2.
    2:{ rewrite Hl.
        replace (A ++ t :: B) with ((A ++ [t]) ++ B) by (by rewrite <- app_assoc).
        apply nxt_0_ne.
        - pose proof (inv_nodup _ _ _ _ HI) as Hnd.
          apply NoDup_cons in Hnd as [_ Hnd]. rewrite Hl in Hnd.
          by rewrite <- app_assoc.
        - by destruct A. }
    unfold rderef. rewrite (decr_spec m j l A t B HI Hl). simpl.
    rewrite (deref_tower comp m j l t _ HI).
    2:{ rewrite Hl, elem_of_app, elem_of_cons. auto. }
    simpl.
    change (Some (t_addr t)) with (nxt 0 (t :: B)).
    rewrite (IH (t :: B) fuel Hl) by lia. simpl.
    by rewrite map_app, rev_app_distr.
Qed.

Lemma relements_spec fuel m j l :
  Inv comp m j l → length l < fuel →
  relements fuel m j = Some (rev (map t_val l)).
Proof.
  intros HI Hfuel. unfold relements, rend, rbegin.
  rewrite (begin_spec comp m j l HI). simpl. unfold end_.
  change (@None positive) with (nxt 0 (@nil (@tower T))).
  apply (rcollect_spec m j l _ HI l []); [by rewrite app_nil_r|done].
Qed.

End Iterators.

Section Effects.
Context {T : Type}.
Variable comp : T → T → bool.
Context `{!StrictWeakOrder comp}.

Implicit Types (m : gmap positive (@Node T)) (l pre rest : list (@tower T)).
Implicit Types (t : @tower T) (p a hd d : positive) (q : option positive).
Implicit Types (A B : list (@tower T)) (j : jump_list).

(** ** Objects that an operation leaves alone *)

(** A node object is determined by what the accessors read from it. *)
Lemma node_eq_getters m m' p :
  (∀ i, get_forward m' p i = get_forward m p i) →
  get_data m' p = get_data m p →
  get_backward m' p = get_backward m p →
  m' !! p = m !! p.
Proof.
  unfold get_forward, get_data, get_backward. intros Hf Hd Hb.
  destruct (m' !! p) as [[d' f' b']|], (m !! p) as [[d0 f0 b0]|];
    simpl in *; try done.
  f_equal. f_equal; [done| |congruence]. by apply list_eq.
Qed.

Lemma getters_same m m' p :
  m' !! p = m !! p →
  (∀ i, get_forward m' p i = get_forward m p i) ∧
  get_data m' p = get_data m p ∧
  get_backward m' p = get_backward m p.
Proof. unfold get_forward, get_data, get_backward. by intros ->. Qed.

(** The invariant of a container reads its own objects only. *)
Lemma Inv_frame m m' j l :
  Inv comp m j l → (∀ p, p ∈ footprint j l → m' !! p = m !! p) →
  Inv comp m' j l.
Proof.
  intros [Hh Hn Hnd Hhs Hlv Hs] Hsame. split; try done.
  - destruct Hh as (Hlive & Hd & Hf & Hb).
    assert (Hhd : m' !! header j = m !! header j) by (apply Hsame; left).
    destruct (getters_same m m' (header j) Hhd) as (Hf' & Hd' & Hb').
    split; [by rewrite Hhd|]. split; [by rewrite Hd'|].
    split; [intros i; by rewrite Hf'|]. by rewrite Hb'.
  - intros A t B Hl. destruct (Hn A t B Hl) as (Hd & Hb & Hf).
    assert (Ht : m' !! t_addr t = m !! t_addr t).
    { apply Hsame. right. rewrite Hl, map_app. simpl.
      rewrite elem_of_app, elem_of_cons. auto. }
    destruct (getters_same m m' (t_addr t) Ht) as (Hf' & Hd' & Hb').
    split; [by rewrite Hd'|]. split; [by rewrite Hb'|].
    intros i. by rewrite Hf'.
Qed.

Lemma footprint_live m j l p :
  Inv comp m j l → p ∈ footprint j l → is_Some (m !! p).
Proof.
  intros HI Hin. apply elem_of_cons in Hin as [->|Hin].
  - by eapply header_live.
  - apply list_elem_of_fmap in Hin as (t & -> & Hin). by eapply tower_live.
Qed.

Lemma last_ge_footprint i j pre rest :
  last_ge i (header j) pre ∈ footprint j (pre ++ rest).
Proof.
  pose proof (last_ge_in i (header j) pre) as Hin. unfold footprint.
  apply elem_of_cons in Hin as [->|Hin]; [left|right].
  rewrite map_app, elem_of_app. by left.
Qed.

Lemma succ_of_footprint j pre rest :
  succ_of (header j) rest ∈ footprint j (pre ++ rest).
Proof.
  unfold succ_of, footprint. destruct (nxt 0 rest) as [c|] eqn:Hc; simpl.
  - right. apply nxt_in in Hc. rewrite map_app, elem_of_app. by right.
  - left.
Qed.

Lemma succ_of_footprint_cons j pre c rest :
  succ_of (header j) rest ∈ footprint j (pre ++ c :: rest).
Proof.
  unfold succ_of, footprint. destruct (nxt 0 rest) as [x|] eqn:Hc; simpl.
  - right. apply nxt_in in Hc. rewrite map_app, elem_of_app. right.
    simpl. by right.
  - left.
Qed.

(** ** Calls that store no new element *)

Lemma footprint_sublist j j' l l' p :
  header j' = header j → l' `sublist_of` l →
  p ∈ footprint j' l' → p ∈ footprint j l.
Proof.
  intros Hh Hsub. unfold footprint. rewrite Hh, !elem_of_cons.
  intros [->|Hin]; [by left|right].
  apply list_elem_of_fmap in Hin as (t & -> & Hin).
  apply list_elem_of_fmap. exists t. split; [done|].
  by eapply elem_of_sublist.
Qed.

Lemma shrinks_refl m j l : shrinks m j l m j l.
Proof. unfold shrinks. by do 7 (split; [done|]). Qed.

Lemma shrinks_trans m1 j1 l1 m2 j2 l2 m3 j3 l3 :
  shrinks m1 j1 l1 m2 j2 l2 → shrinks m2 j2 l2 m3 j3 l3 →
  shrinks m1 j1 l1 m3 j3 l3.
Proof.
  intros (Hh1 & Hr1 & Hs1 & Hf1 & Hd1 & Hz1 & Hl1 & Hg1)
         (Hh2 & Hr2 & Hs2 & Hf2 & Hd2 & Hz2 & Hl2 & Hg2).
  split; [congruence|]. split; [congruence|].
  split; [by etrans|]. split; [|split; [auto|split; [auto|split; [auto|]]]].
  - intros p Hp. rewrite Hf2; [by apply Hf1|].
    intros Hin. apply Hp. by eapply footprint_sublist.
  - intros p Hp1 Hp3.
    destruct (decide (p ∈ footprint j2 l2)) as [Hp2|Hp2]; [by apply Hg2|].
    destruct (m3 !! p) as [nd|] eqn:Hl; [|done].
    destruct (Hd2 p) as [x Hx]; [by rewrite Hl|].
    rewrite (Hg1 p Hp1 Hp2) in Hx. done.
Qed.

Lemma sublist_remove_middle {X} (pre rest : list X) (c : X) :
  (pre ++ rest) `sublist_of` (pre ++ c :: rest).
Proof. apply sublist_app; [done|]. by apply sublist_cons. Qed.

(** ** The cases of a call, for any fuel that lets it return *)

Lemma insert_cases (draws : nat → bool) fuel m j l v oc m' j' r :
  Inv comp m j l → alloc_fresh m oc = true →
  insert comp draws fuel m j v oc = Some (m', j', r) →
  (∃ A t B, l = A ++ t :: B ∧ equiv comp (t_val t) v ∧ m' = m ∧ j' = j ∧
     r = Normal (Iterator (Some (t_addr t)) (Some (header j)), false))
  ∨ ((∀ t, t ∈ l → ¬ equiv comp (t_val t) v) ∧
     ∃ pre rest, l = pre ++ rest ∧
       passes (λ x, comp x v) pre ∧
       (∀ t, head rest = Some t → comp v (t_val t) = true) ∧
       header j' = header j ∧
       level j' = level j `max` successes draws MAX_LEVEL (rng j) ∧
       rng j' = S (rng j + successes draws MAX_LEVEL (rng j)) ∧
       ((∃ a, oc = AllocOk a ∧ m !! a = None ∧
           r = Normal (Iterator (Some a) (Some (header j)), true) ∧
           size_ j' = size_incr (size_ j) ∧
           Inv comp m' j'
             (pre ++ Tower a v (successes draws MAX_LEVEL (rng j)) :: rest) ∧
           (∀ p, p ≠ a → p ∉ footprint j l → m' !! p = m !! p) ∧
           (∀ p, is_Some (m' !! p) ↔ p = a ∨ is_Some (m !! p)))
        ∨ ((∀ a, oc ≠ AllocOk a) ∧ r = BadAlloc ∧ m' = m ∧
           size_ j' = size_ j ∧ Inv comp m j' l))).
Proof.
  intros HI Hfresh Hins.
  set (F := fuel `max` S (length l `max` MAX_LEVEL)).
  apply (insert_mono _ _ _ F) in Hins; [|lia].
  destruct (stored_dec comp l v (inv_sorted _ _ _ _ HI))
    as [(A & t & B & Hl & Heq)|Hne].
  - left. exists A, t, B.
    rewrite (insert_existing_spec comp draws F m j l A t B v oc HI Hl Heq) in Hins
      by lia.
    by injection Hins as <- <- <-.
  - right. split; [done|].
    destruct (no_equiv_split comp l v (inv_sorted _ _ _ _ HI) Hne)
      as (pre & rest & Hl & Hpass & Hstop & Hhead).
    exists pre, rest. split; [done|]. split; [done|]. split; [done|].
    assert (Hoc : (∃ a, oc = AllocOk a) ∨ (∀ a, oc ≠ AllocOk a)).
    { destruct oc; [right|right|left]; eauto; done. }
    destruct Hoc as [[a ->]|Hoc].
    + apply is_free_true in Hfresh.
      destruct (insert_new_mem comp draws F m j l pre rest v a HI Hl Hfresh Hpass
                  Hstop Hhead) as (m1 & Heq1 & Hf & Hd & Hb & Hlive); [lia|lia|].
      destruct (insert_new_spec comp draws F m j l pre rest v a HI Hl Hfresh Hpass
                  Hstop Hhead) as (m2 & Heq2 & HI2); [lia|lia|].
      cbv zeta in Heq1, Heq2, HI2, Hf.
      rewrite Heq1 in Heq2. injection Heq2 as <-.
      rewrite Heq1 in Hins. injection Hins as <- <- <-. simpl.
      split; [done|]. split; [case_decide; lia|]. split; [done|].
      left. exists a. split; [done|]. split; [done|]. split; [done|].
      split; [done|]. split; [done|]. split; [|done].
      intros p Hpa Hp. apply node_eq_getters.
      * intros i. rewrite Hf, decide_False by done.
        rewrite decide_False; [done|]. intros [_ ->]. apply Hp.
        rewrite Hl. apply last_ge_footprint.
      * by rewrite Hd, decide_False.
      * rewrite Hb, decide_False by done. rewrite decide_False; [done|].
        intros ->. apply Hp. rewrite Hl. apply succ_of_footprint.
    + destruct (insert_throw_spec comp draws F m j l pre rest v oc HI Hl Hpass Hstop
                  Hhead) as (Heq1 & HI1); [lia|lia|done|].
      cbv zeta in Heq1, HI1.
      rewrite Heq1 in Hins. injection Hins as <- <- <-. simpl.
      split; [done|]. split; [case_decide; lia|]. split; [done|].
      right. done.
Qed.

Lemma erase_cases fuel m j l pos m' j' it :
  Inv comp m j l → erase comp fuel m j pos = Some (m', j', it) →
  (m' = m ∧ j' = j ∧ it = end_ j ∧
   (node pos = None ∨
    ∃ p value, node pos = Some p ∧ get_data m p = Some value ∧
      ∀ t, t ∈ l → ¬ equiv comp (t_val t) value))
  ∨ (∃ p value pre c rest,
       node pos = Some p ∧ get_data m p = Some value ∧
       l = pre ++ c :: rest ∧ equiv comp (t_val c) value ∧
       it = Iterator (nxt 0 rest) (Some (header j)) ∧
       header j' = header j ∧ size_ j' = size_decr (size_ j) ∧
       rng j' = rng j ∧ level j' ≤ level j ∧
       Inv comp m' j' (pre ++ rest) ∧ level_minimal j' (pre ++ rest) ∧
       m' !! t_addr c = None ∧
       (∀ a, a ∉ footprint j l → m' !! a = m !! a) ∧
       (∀ a, is_Some (m' !! a) ↔ a ≠ t_addr c ∧ is_Some (m !! a)) ∧
       shrinks m j l m' j' (pre ++ rest)).
Proof.
  intros HI Her.
  set (F := fuel `max` S (length l)).
  apply (erase_mono _ _ F) in Her; [|lia].
  destruct (node pos) as [p|] eqn:Hpos.
  - destruct (get_data m p) as [value|] eqn:Hval.
    2:{ unfold erase, iterator_eq, deref in Her. rewrite Hpos in Her. simpl in Her.
        by rewrite Hval in Her. }
    destruct (stored_dec comp l value (inv_sorted _ _ _ _ HI))
      as [(pre & c & rest & Hl & Heq)|Hne].
    + right.
      destruct (erase_mem comp F m j l pre c rest pos p value HI Hl Hpos Hval Heq)
        as (m1 & lvl1 & Heq1 & HI1 & Hmin & Hle & Hgone & Hf & Hd & Hb & Hlive);
        [lia|].
      cbv zeta in Heq1, HI1, Hmin.
      rewrite Heq1 in Her. injection Her as <- <- <-.
      exists p, value, pre, c, rest. simpl.
      assert (Hfr : ∀ a, a ∉ footprint j l → m1 !! a = m !! a).
      { intros a Ha.
        assert (Hac : a ≠ t_addr c).
        { intros ->. apply Ha. rewrite Hl. unfold footprint. right.
          rewrite map_app, elem_of_app. right. simpl. left. }
        apply node_eq_getters.
        * intros i. rewrite Hf, decide_False by done.
          rewrite decide_False; [done|]. intros [_ ->]. apply Ha.
          rewrite Hl. apply last_ge_footprint.
        * by rewrite Hd, decide_False.
        * rewrite Hb, decide_False by done. rewrite decide_False; [done|].
          intros ->. apply Ha. rewrite Hl. apply succ_of_footprint_cons. }
      do 14 (split; [done|]).
      split; [done|]. split; [done|].
      split; [rewrite Hl; apply sublist_remove_middle|].
      split; [done|]. split; [intros a Ha; by apply Hlive in Ha as [_ ?]|].
      split; [intros Hs; by eapply size_ok_erase|]. split; [done|].
      intros a Ha Hna. destruct (decide (a = t_addr c)) as [->|Hac]; [done|].
      exfalso. apply Hna. unfold footprint in *. simpl.
      rewrite Hl, map_app in Ha. simpl in Ha.
      rewrite map_app. rewrite !elem_of_cons, !elem_of_app in *.
      rewrite elem_of_cons in Ha. intuition congruence.
    + left.
      rewrite (erase_absent_spec comp F m j l pos p value HI Hpos Hval Hne) in Her
        by lia.
      injection Her as <- <- <-. do 3 (split; [done|]). right. eauto.
  - left. rewrite (erase_end_spec comp F m j pos Hpos) in Her.
    injection Her as <- <- <-. do 3 (split; [done|]). by left.
Qed.

Lemma clear_cases fuel m j l m' j' :
  Inv comp m j l → clear fuel m j = Some (m', j') →
  j' = JumpList (header j) 0 0 (rng j) ∧ Inv comp m' j' [] ∧
  (∀ p, p ≠ header j →
        m' !! p = if decide (p ∈ map t_addr l) then None else m !! p).
Proof.
  intros HI Hc.
  set (F := fuel `max` S (length l)).
  apply (clear_mono _ F) in Hc; [|lia].
  destruct (clear_mem comp F m j l HI) as (m1 & Heq & HI1 & Hm1); [lia|].
  rewrite Heq in Hc. by injection Hc as <- <-.
Qed.

Lemma erase_effect fuel m j l pos m' j' it :
  Inv comp m j l → erase comp fuel m j pos = Some (m', j', it) →
  ∃ l', Inv comp m' j' l' ∧ shrinks m j l m' j' l'.
Proof.
  intros HI Her.
  destruct (erase_cases fuel m j l pos m' j' it HI Her)
    as [(-> & -> & _)
       |(p & value & pre & c & rest & _ & _ & Hl & _ & _ & _ & _ & _ & _
         & HI' & _ & _ & _ & _ & Hs)].
  - exists l. split; [done|]. apply shrinks_refl.
  - by exists (pre ++ rest).
Qed.

Lemma erase_range_loop_effect fuel n :
  ∀ m j l first last result m' j' it,
    Inv comp m j l →
    erase_range_loop comp fuel n m j first last result = Some (m', j', it) →
    ∃ l', Inv comp m' j' l' ∧ shrinks m j l m' j' l'.
Proof.
  induction n as [|n IH]; intros m j l first last result m' j' it HI Her;
    [done|]. simpl in Her.
  destruct (iterator_eq first last).
  - injection Her as <- <- _. exists l. split; [done|]. apply shrinks_refl.
  - destruct (incr m first) as [next|]; [|done]. simpl in Her.
    destruct (erase comp fuel m j first) as [[[m1 j1] it1]|] eqn:Heq; [|done].
    simpl in Her.
    destruct (erase_effect _ _ _ _ _ _ _ _ HI Heq) as (l1 & HI1 & Hs1).
    destruct (IH _ _ _ _ _ _ _ _ _ HI1 Her) as (l2 & HI2 & Hs2).
    exists l2. split; [done|]. by eapply shrinks_trans.
Qed.

Lemma erase_key_effect fuel m j l key m' j' n :
  Inv comp m j l → erase_key comp fuel m j key = Some (m', j', n) →
  ∃ l', Inv comp m' j' l' ∧ shrinks m j l m' j' l'.
Proof.
  intros HI Her. unfold erase_key in Her.
  destruct (find comp fuel m j key) as [it|]; [|done]. simpl in Her.
  destruct (negb (iterator_eq it (end_ j))).
  - destruct (erase comp fuel m j it) as [[[m1 j1] it1]|] eqn:Heq; [|done].
    simpl in Her. injection Her as <- <- _. by eapply erase_effect.
  - injection Her as <- <- _. exists l. split; [done|]. apply shrinks_refl.
Qed.

Lemma clear_effect fuel m j l m' j' :
  Inv comp m j l → clear fuel m j = Some (m', j') →
  Inv comp m' j' [] ∧ shrinks m j l m' j' [].
Proof.
  intros HI Hc.
  destruct (clear_cases fuel m j l m' j' HI Hc) as (-> & HI' & Hm').
  split; [done|]. split; [done|]. split; [done|].
  split; [apply sublist_nil_l|]. split; [|split; [|split]].
  - intros p Hp. unfold footprint in Hp. rewrite not_elem_of_cons in Hp.
    destruct Hp as [Hp1 Hp2]. rewrite Hm' by done. by rewrite decide_False.
  - intros p Hp. destruct (decide (p = header j)) as [->|Hne].
    + by eapply header_live.
    + rewrite Hm' in Hp by done. by case_decide; [destruct Hp|].
  - intros _. split; [done|]. done.
  - split; [intros _; by left|].
    intros p Hp Hnp. unfold footprint in *. simpl in Hnp.
    rewrite not_elem_of_cons in Hnp. destruct Hnp as [Hne _].
    rewrite elem_of_cons in Hp. destruct Hp as [?|Hp]; [done|].
    rewrite Hm' by done. by rewrite decide_True.
Qed.

End Effects.

Section Model.
Context {T : Type}.
Variable comp : T → T → bool.
Context `{!StrictWeakOrder comp}.

Implicit Types (m : gmap positive (@Node T)) (l pre rest : list (@tower T)).
Implicit Types (t : @tower T) (p a hd d : positive) (q : option positive).
Implicit Types (A B : list (@tower T)) (j : jump_list).

(** ** The reference model on the stored values *)

Lemma insert_sorted_new pre rest v :
  passes (λ x, comp x v) pre →
  (∀ t, head rest = Some t → comp v (t_val t) = true) →
  insert_sorted comp v (map t_val (pre ++ rest))
  = map t_val pre ++ v :: map t_val rest.
Proof.
  intros Hp Hh. induction pre as [|t pre IH]; simpl.
  - destruct rest as [|r rest]; [done|]. simpl.
    pose proof (Hh r eq_refl) as Hvr.
    rewrite (comp_asym comp _ _ Hvr). by rewrite Hvr.
  - apply Forall_cons in Hp as [Ht Hp]. rewrite Ht. f_equal. by apply IH.
Qed.

Lemma insert_sorted_dup A t B v :
  ascending comp (A ++ t :: B) → equiv comp (t_val t) v →
  insert_sorted comp v (map t_val (A ++ t :: B)) = map t_val (A ++ t :: B).
Proof.
  intros Hs Heq.
  destruct (ascending_equiv_split comp _ A t B v Hs eq_refl Heq) as [Hp _].
  clear Hs. induction A as [|x A IH]; simpl.
  - destruct Heq as [-> ->]. done.
  - apply Forall_cons in Hp as [Hx Hp]. rewrite Hx. f_equal. by apply IH.
Qed.

Lemma remove_equiv_absent l key :
  (∀ t, t ∈ l → ¬ equiv comp (t_val t) key) →
  remove_equiv comp key (map t_val l) = map t_val l.
Proof.
  intros Hne. unfold remove_equiv. induction l as [|t l IH]; [done|]. simpl.
  rewrite filter_cons_True.
  - f_equal. apply IH. intros t' Hin. apply Hne. by right.
  - destruct (comp (t_val t) key) eqn:H1; [done|].
    destruct (comp key (t_val t)) eqn:H2; [done|].
    destruct (Hne t); [left|by split].
Qed.

Lemma remove_equiv_found A t B key :
  ascending comp (A ++ t :: B) → equiv comp (t_val t) key →
  remove_equiv comp key (map t_val (A ++ t :: B)) = map t_val (A ++ B).
Proof.
  intros Hs Heq.
  pose proof (ascending_equiv_unique comp A t B key Hs Heq) as Hne.
  rewrite <- (remove_equiv_absent (A ++ B) key Hne).
  unfold remove_equiv. rewrite !map_app, !filter_app. f_equal. simpl.
  rewrite filter_cons_False; [done|].
  destruct Heq as [-> ->]. done.
Qed.

(** ** Calls return *)

Lemma insert_total (draws : nat → bool) fuel m j l v oc :
  Inv comp m j l → alloc_fresh m oc = true →
  length l < fuel → MAX_LEVEL < fuel →
  is_Some (insert comp draws fuel m j v oc).
Proof.
  intros HI Hfresh Hfuel Hfuel'.
  destruct (stored_dec comp l v (inv_sorted _ _ _ _ HI))
    as [(A & t & B & Hl & Heq)|Hne].
  - rewrite (insert_existing_spec comp draws fuel m j l A t B v oc HI Hl Heq) by lia.
    eauto.
  - destruct (no_equiv_split comp l v (inv_sorted _ _ _ _ HI) Hne)
      as (pre & rest & Hl & Hpass & Hstop & Hhead).
    assert (Hoc : (∃ a, oc = AllocOk a) ∨ (∀ a, oc ≠ AllocOk a)).
    { destruct oc; [right|right|left]; eauto; done. }
    destruct Hoc as [[a ->]|Hoc].
    + apply is_free_true in Hfresh.
      destruct (insert_new_spec comp draws fuel m j l pre rest v a HI Hl Hfresh Hpass
                  Hstop Hhead) as (m1 & Heq1 & _); [lia|lia|].
      cbv zeta in Heq1. rewrite Heq1. eauto.
    + destruct (insert_throw_spec comp draws fuel m j l pre rest v oc HI Hl Hpass
                  Hstop Hhead) as (Heq1 & _); [lia|lia|done|].
      cbv zeta in Heq1. rewrite Heq1. eauto.
Qed.

Lemma erase_key_cases fuel m j l key m' j' n :
  Inv comp m j l → erase_key comp fuel m j key = Some (m', j', n) →
  (n = 1%N ∧ ∃ A t B, l = A ++ t :: B ∧ equiv comp (t_val t) key ∧
     Inv comp m' j' (A ++ B) ∧ shrinks m j l m' j' (A ++ B) ∧
     size_ j' = size_decr (size_ j) ∧ level_minimal j' (A ++ B) ∧
     m' !! t_addr t = None)
  ∨ (n = 0%N ∧ m' = m ∧ j' = j ∧ ∀ t, t ∈ l → ¬ equiv comp (t_val t) key).
Proof.
  intros HI Her. unfold erase_key in Her.
  destruct (find comp fuel m j key) as [it|] eqn:Hfind; [|done].
  set (F := fuel `max` S (length l)).
  apply (find_mono _ _ F) in Hfind; [|lia]. simpl in Her.
  destruct (stored_dec comp l key (inv_sorted _ _ _ _ HI))
    as [(A & t & B & Hl & Heq)|Hne].
  - rewrite (find_found_spec comp F m j l A t B key HI Hl Heq) in Hfind by lia.
    injection Hfind as <-. unfold iterator_eq in Her. simpl in Her.
    destruct (erase comp fuel m j _) as [[[m1 j1] it1]|] eqn:Heq1; [|done].
    simpl in Her. injection Her as <- <- <-. left. split; [done|].
    assert (Htin : t ∈ l).
    { rewrite Hl, elem_of_app, elem_of_cons. auto. }
    destruct (erase_cases comp fuel m j l _ m1 j1 it1 HI Heq1)
      as [(_ & _ & _ & [Hn|(p & value & Hn & Hv & Hnone)])
         |(p & value & pre & c & rest & Hn & Hv & Hl' & Heq' & _ & _ & Hsz & _ & _
           & HI' & Hmin & Hgone & _ & _ & Hs)].
    + done.
    + simpl in Hn. injection Hn as <-.
      rewrite (get_data_tower comp m j l t HI Htin) in Hv. injection Hv as <-.
      destruct (Hnone t Htin). apply (equiv_refl comp).
    + simpl in Hn. injection Hn as <-.
      rewrite (get_data_tower comp m j l t HI Htin) in Hv. injection Hv as <-.
      exists pre, c, rest. split; [done|].
      split; [by apply (swo_equiv_trans _ _ (t_val t))|]. done.
  - rewrite (find_absent_spec comp F m j l key HI Hne) in Hfind by lia.
    injection Hfind as <-. unfold iterator_eq in Her. simpl in Her.
    injection Her as <- <- <-. by right.
Qed.

Lemma erase_key_total fuel m j l key :
  Inv comp m j l → length l < fuel →
  is_Some (erase_key comp fuel m j key).
Proof.
  intros HI Hfuel.
  destruct (stored_dec comp l key (inv_sorted _ _ _ _ HI))
    as [(A & t & B & Hl & Heq)|Hne].
  - destruct (erase_key_found_spec comp fuel m j l A t B key HI Hl Heq Hfuel)
      as (m1 & lvl1 & Heq1 & _).
    cbv zeta in Heq1. rewrite Heq1. eauto.
  - rewrite (erase_key_absent_spec comp fuel m j l key HI Hne Hfuel). eauto.
Qed.

Lemma clear_total fuel m j l :
  Inv comp m j l → length l < fuel → is_Some (clear fuel m j).
Proof.
  intros HI Hfuel. destruct (clear_spec comp fuel m j l HI Hfuel) as (m' & -> & _).
  eauto.
Qed.

(** ** One call of a sequence *)

Lemma step_effect (draws : nat → bool) fuel o m j l m' j' :
  Inv comp m j l → step comp draws fuel o (m, j) = Some (m', j') →
  ∃ l', Inv comp m' j' l' ∧ header j' = header j ∧
    (∀ p, p ∈ footprint j' l' → p ∈ footprint j l ∨ m !! p = None) ∧
    (∀ p, p ∉ footprint j l → is_Some (m !! p) → m' !! p = m !! p) ∧
    (∀ p, is_Some (m' !! p) → is_Some (m !! p) ∨ p ∈ alloc_addrs [o]) ∧
    length l' ≤ S (length l) ∧
    (size_ok j l → (N.of_nat (S (length l)) < SIZE_MOD)%N → size_ok j' l') ∧
    (level_minimal j l → (∀ v oc, o = OpInsert v oc → ∃ a, oc = AllocOk a) →
     level_minimal j' l') ∧
    (∀ xs, model_step comp o (map t_val l) = Some xs → map t_val l' = xs).
Proof.
  intros HI Hs.
  assert (Hshr : ∀ l', Inv comp m' j' l' → shrinks m j l m' j' l' →
    (∀ xs, model_step comp o (map t_val l) = Some xs → map t_val l' = xs) →
    ∃ l', Inv comp m' j' l' ∧ header j' = header j ∧
      (∀ p, p ∈ footprint j' l' → p ∈ footprint j l ∨ m !! p = None) ∧
      (∀ p, p ∉ footprint j l → is_Some (m !! p) → m' !! p = m !! p) ∧
      (∀ p, is_Some (m' !! p) → is_Some (m !! p) ∨ p ∈ alloc_addrs [o]) ∧
      length l' ≤ S (length l) ∧
      (size_ok j l → (N.of_nat (S (length l)) < SIZE_MOD)%N → size_ok j' l') ∧
      (level_minimal j l → (∀ v oc, o = OpInsert v oc → ∃ a, oc = AllocOk a) →
       level_minimal j' l') ∧
      (∀ xs, model_step comp o (map t_val l) = Some xs → map t_val l' = xs)).
  { intros l' HI' (Hh & _ & Hsub & Hfr & Hdom & Hsz & Hlm & _) Hmod.
    exists l'. split; [done|]. split; [done|].
    split; [intros p Hp; left; by eapply footprint_sublist|].
    split; [auto|]. split; [auto|].
    split; [apply sublist_length in Hsub; lia|].
    split; [auto|]. split; [auto|done]. }
  destruct o as [v oc|pos|first last|key|]; simpl in Hs.
  - destruct (alloc_fresh m oc) eqn:Hf; [|done].
    destruct (insert comp draws fuel m j v oc) as [[[m1 j1] r]|] eqn:Hi; [|done].
    simpl in Hs. injection Hs as <- <-.
    destruct (insert_cases comp draws fuel m j l v oc m1 j1 r HI Hf Hi)
      as [(A & t & B & Hl & Heq & -> & -> & _)
         |(Hne & pre & rest & Hl & Hpass & Hhead & Hh & Hlev & Hrng &
           [(a & -> & Hfresh & _ & Hsz & HI' & Hfr & Hdom)
           |(Hoc & _ & -> & Hsz & HI')])].
    + apply (Hshr l HI (shrinks_refl m j l)).
      intros xs Hxs. assert (xs = insert_sorted comp v (map t_val l)) as ->.
      { destruct oc; simpl in Hxs; [| |congruence].
        all: injection Hxs as <-; rewrite Hl;
          symmetry; apply insert_sorted_dup; [|done];
          rewrite <- Hl; apply HI. }
      rewrite Hl. symmetry. apply insert_sorted_dup; [|done].
      rewrite <- Hl. apply HI.
    + eexists. split; [exact HI'|]. split; [done|].
      split; [|split; [|split; [|split; [|split; [|split]]]]].
      * intros p Hp. unfold footprint in *. rewrite Hh in Hp.
        rewrite map_app in Hp. simpl in Hp.
        rewrite elem_of_cons, elem_of_app, elem_of_cons in Hp.
        rewrite Hl, map_app, elem_of_cons, elem_of_app.
        destruct Hp as [->|[?|[->|?]]]; auto.
      * intros p Hp Hlive. apply Hfr; [|done]. intros ->.
        rewrite Hfresh in Hlive. by destruct Hlive.
      * intros p Hp. apply Hdom in Hp as [->|?]; [right; simpl; left|by left].
      * rewrite Hl, !length_app. simpl. lia.
      * intros Hso Hlt. by eapply size_ok_insert.
      * intros Hlm _. rewrite Hl in Hlm.
        apply (insert_level_minimal j j1 pre rest _ Hlm). simpl.
        rewrite Hlev. case_decide; lia.
      * intros xs Hxs. simpl in Hxs. injection Hxs as <-.
        rewrite Hl, (insert_sorted_new pre rest v Hpass Hhead).
        by rewrite map_app.
    + exists l. split; [done|]. split; [done|].
      split; [|split; [|split; [|split; [|split; [|split]]]]].
      * intros p Hp. left. unfold footprint in *. by rewrite <- Hh.
      * done.
      * auto.
      * lia.
      * intros [Hso Hlt] _. split; [congruence|done].
      * intros _ Hok. destruct (Hok v oc eq_refl) as [a ->]. by destruct (Hoc a).
      * intros xs Hxs. destruct oc as [| |a]; simpl in Hxs;
          [congruence|congruence|by destruct (Hoc a)].
  - destruct (erase comp fuel m j pos) as [[[m1 j1] r]|] eqn:He; [|done].
    simpl in Hs. injection Hs as <- <-.
    destruct (erase_effect comp _ _ _ _ _ _ _ _ HI He) as (l' & HI' & Hsh).
    by apply (Hshr l').
  - destruct (erase_range comp fuel m j first last) as [[[m1 j1] r]|] eqn:He;
      [|done].
    simpl in Hs. injection Hs as <- <-.
    destruct (erase_range_loop_effect comp _ _ _ _ _ _ _ _ _ _ _ HI He)
      as (l' & HI' & Hsh).
    by apply (Hshr l').
  - destruct (erase_key comp fuel m j key) as [[[m1 j1] r]|] eqn:He; [|done].
    simpl in Hs. injection Hs as <- <-.
    destruct (erase_key_cases fuel m j l key m1 j1 r HI He)
      as [(_ & A & t & B & Hl & Heq & HI' & Hsh & _)|(_ & -> & -> & Hne)].
    + apply (Hshr (A ++ B) HI' Hsh). intros xs Hxs. simpl in Hxs.
      injection Hxs as <-. rewrite Hl. symmetry.
      apply remove_equiv_found; [|done]. rewrite <- Hl. apply HI.
    + apply (Hshr l HI (shrinks_refl m j l)). intros xs Hxs. simpl in Hxs.
      injection Hxs as <-. symmetry. by apply remove_equiv_absent.
  - destruct (clear_effect comp fuel m j l m' j' HI Hs) as (HI' & Hsh).
    apply (Hshr [] HI' Hsh). intros xs Hxs. simpl in Hxs. by injection Hxs as <-.
Qed.

(** ** Sequences of calls *)

Lemma run_cons (draws : nat → bool) fuel o ops (s : gmap positive (@Node T) * jump_list) :
  run comp draws fuel (o :: ops) s
  = step comp draws fuel o s ≫= run comp draws fuel ops.
Proof. done. Qed.

Lemma run_effect (draws : nat → bool) fuel ops :
  ∀ m j l m' j',
    Inv comp m j l → run comp draws fuel ops (m, j) = Some (m', j') →
    ∃ l', Inv comp m' j' l' ∧ header j' = header j ∧
      length l' ≤ length l + length ops ∧
      (size_ok j l → (N.of_nat (length l + length ops) < SIZE_MOD)%N →
       size_ok j' l') ∧
      (level_minimal j l → forallb no_failure ops = true →
       level_minimal j' l') ∧
      (∀ xs, model_run comp ops (map t_val l) = Some xs → map t_val l' = xs).
Proof.
  induction ops as [|o ops IH]; intros m j l m' j' HI Hr.
  - injection Hr as <- <-. exists l. split; [done|]. split; [done|].
    split; [lia|]. split; [done|]. split; [done|].
    intros xs Hxs. simpl in Hxs. by injection Hxs as <-.
  - rewrite run_cons in Hr.
    destruct (step comp draws fuel o (m, j)) as [[m1 j1]|] eqn:Hs; [|done].
    simpl in Hr.
    destruct (step_effect draws fuel o m j l m1 j1 HI Hs)
      as (l1 & HI1 & Hh1 & _ & _ & _ & Hlen1 & Hsz1 & Hlm1 & Hmod1).
    destruct (IH m1 j1 l1 m' j' HI1 Hr)
      as (l2 & HI2 & Hh2 & Hlen2 & Hsz2 & Hlm2 & Hmod2).
    exists l2. split; [done|]. split; [congruence|].
    simpl. split; [lia|]. split; [|split].
    + intros Hso Hlt. apply Hsz2; [apply Hsz1; [done|lia]|lia].
    + intros Hlm Hall. apply andb_true_iff in Hall as [Ho Hall].
      apply Hlm2; [|done]. apply Hlm1; [done|].
      intros v oc ->. destruct oc; simpl in Ho; try done. eauto.
    + intros xs Hxs.
      destruct (model_step comp o (map t_val l)) as [ys|] eqn:Hys; [|done].
      simpl in Hxs. apply Hmod2. by rewrite (Hmod1 ys eq_refl).
Qed.

Lemma step_total (draws : nat → bool) fuel o m j l :
  Inv comp m j l → is_Some (model_step comp o (map t_val l)) →
  (∀ a, a ∈ alloc_addrs [o] → m !! a = None) →
  length l < fuel → MAX_LEVEL < fuel →
  is_Some (step comp draws fuel o (m, j)).
Proof.
  intros HI Hmod Hfresh Hfuel Hfuel'.
  destruct o as [v oc|pos|first last|key|]; simpl in *.
  - assert (Hf : alloc_fresh m oc = true).
    { destruct oc as [|a|a]; simpl; [done| |];
        unfold is_free; rewrite (Hfresh a); done || left. }
    rewrite Hf.
    destruct (insert_total draws fuel m j l v oc HI Hf Hfuel Hfuel')
      as [[[m1 j1] r] ->].
    simpl. eauto.
  - by destruct Hmod.
  - by destruct Hmod.
  - destruct (erase_key_total fuel m j l key HI Hfuel) as [[[m1 j1] r] ->].
    simpl. eauto.
  - by eapply clear_total.
Qed.

Lemma alloc_addrs_cons (o : @op T) ops :
  alloc_addrs (o :: ops) = alloc_addrs [o] ++ alloc_addrs ops.
Proof. destruct o as [v [| |]| | | |]; simpl; done. Qed.

Lemma run_total (draws : nat → bool) fuel ops :
  ∀ m j l,
    Inv comp m j l → is_Some (model_run comp ops (map t_val l)) →
    NoDup (alloc_addrs ops) → (∀ a, a ∈ alloc_addrs ops → m !! a = None) →
    length l + length ops < fuel → MAX_LEVEL < fuel →
    is_Some (run comp draws fuel ops (m, j)).
Proof.
  induction ops as [|o ops IH]; intros m j l HI Hmod Hnd Hfresh Hfuel Hfuel'.
  - simpl. eauto.
  - rewrite run_cons. rewrite alloc_addrs_cons in Hnd, Hfresh.
    simpl in Hmod, Hfuel.
    destruct (model_step comp o (map t_val l)) as [ys|] eqn:Hys;
      [|by destruct Hmod].
    simpl in Hmod.
    destruct (step_total draws fuel o m j l HI) as [[m1 j1] Hs];
      [by rewrite Hys|intros a Ha; apply Hfresh; rewrite elem_of_app; auto
      |lia|done|].
    rewrite Hs. simpl.
    destruct (step_effect draws fuel o m j l m1 j1 HI Hs)
      as (l1 & HI1 & _ & _ & _ & Hdom & Hlen1 & _ & _ & Hmod1).
    apply (IH m1 j1 l1 HI1).
    + by rewrite (Hmod1 ys Hys).
    + by apply NoDup_app in Hnd as (_ & _ & ?).
    + intros a Ha. destruct (m1 !! a) as [nd|] eqn:Hlive; [|done]. exfalso.
      destruct (Hdom a) as [Hl|Hin]; [by rewrite Hlive| |].
      * rewrite Hfresh in Hl; [by destruct Hl|]. rewrite elem_of_app. auto.
      * apply NoDup_app in Hnd as (_ & Hdisj & _). by apply (Hdisj a).
    + lia.
    + done.
Qed.

(** A second container in the same memory, owning other objects, is not
    touched by the calls on the first. *)
Lemma run_isolated (draws : nat → bool) fuel ops :
  ∀ m j l m' j' j2 l2,
    Inv comp m j l → Inv comp m j2 l2 →
    (∀ p, p ∈ footprint j l → p ∉ footprint j2 l2) →
    run comp draws fuel ops (m, j) = Some (m', j') →
    (∀ p, p ∈ footprint j2 l2 → m' !! p = m !! p) ∧
    ∃ l', Inv comp m' j' l' ∧ (∀ p, p ∈ footprint j' l' → p ∉ footprint j2 l2).
Proof.
  induction ops as [|o ops IH]; intros m j l m' j' j2 l2 HI HI2 Hdisj Hr.
  - injection Hr as <- <-. split; [done|]. by exists l.
  - rewrite run_cons in Hr.
    destruct (step comp draws fuel o (m, j)) as [[m1 j1]|] eqn:Hs; [|done].
    simpl in Hr.
    destruct (step_effect draws fuel o m j l m1 j1 HI Hs)
      as (l1 & HI1 & _ & Hfp & Hfr & _).
    assert (Hsame : ∀ p, p ∈ footprint j2 l2 → m1 !! p = m !! p).
    { intros p Hp. apply Hfr; [|by eapply footprint_live].
      intros Hin. by apply (Hdisj p). }
    assert (HI2' : Inv comp m1 j2 l2) by by eapply Inv_frame.
    destruct (IH m1 j1 l1 m' j' j2 l2 HI1 HI2') as (Hsame' & l' & HI' & Hdisj').
    + intros p Hp Hp2. destruct (Hfp p Hp) as [Hin|Hnone].
      * by apply (Hdisj p).
      * destruct (footprint_live comp m j2 l2 p HI2 Hp2) as [nd Hnd].
        congruence.
    + done.
    + split; [|by exists l'].
      intros p Hp. rewrite Hsame' by done. by apply Hsame.
Qed.

End Model.

Section Lookup.
Context {T : Type}.
Variable comp : T → T → bool.
Context `{!StrictWeakOrder comp}.

Implicit Types (m : gmap positive (@Node T)) (l pre rest : list (@tower T)).
Implicit Types (t : @tower T) (p a hd d : positive) (q : option positive).
Implicit Types (A B : list (@tower T)) (j : jump_list).

(** [clear] leaves the header's backward link null. *)
Lemma clear_backward fuel m j m' j' :
  clear fuel m j = Some (m', j') → get_backward m' (header j) = Some None.
Proof.
  unfold clear. intros Hc.
  destruct (get_forward m (header j) 0) as [cur|]; [|done]. simpl in Hc.
  destruct (clear_loop fuel m (header j) cur) as [m1|]; [|done]. simpl in Hc.
  destruct (for_up _ 0 (MAX_LEVEL + 1) m1) as [m2|]; [|done]. simpl in Hc.
  destruct (set_backward m2 (header j) None) as [m3|] eqn:Hsb; [|done].
  simpl in Hc. injection Hc as <- <-.
  unfold set_backward in Hsb. destruct (m2 !! header j) as [nd|]; [|done].
  simpl in Hsb. injection Hsb as <-.
  rewrite get_backward_insert. by rewrite decide_True.
Qed.

(** The two traversal modes split the towers around a stored key. *)
Lemma upper_split_found A t B key :
  ascending comp (A ++ t :: B) → equiv comp (t_val t) key →
  passes (λ x, negb (comp key x)) (A ++ [t]) ∧
  stops (λ x, negb (comp key x)) B.
Proof.
  intros Hs Heq.
  destruct (ascending_equiv_split comp _ A t B key Hs eq_refl Heq) as [Hp _].
  split.
  - apply Forall_app. split.
    + eapply Forall_impl; [exact Hp|]. simpl. intros x Hx.
      by rewrite (comp_asym comp _ _ Hx).
    + apply Forall_singleton. destruct Heq as [_ ->]. done.
  - apply StronglySorted_app_1_r in Hs. apply StronglySorted_cons in Hs as [Hs _].
    eapply Forall_impl; [exact Hs|]. simpl. intros x Hx.
    by rewrite (comp_equiv_r comp _ _ _ Hx Heq).
Qed.

Lemma upper_split_absent pre rest key :
  ascending comp (pre ++ rest) →
  passes (λ x, comp x key) pre →
  (∀ t, head rest = Some t → comp key (t_val t) = true) →
  passes (λ x, negb (comp key x)) pre ∧ stops (λ x, negb (comp key x)) rest.
Proof.
  intros Hs Hp Hh. split.
  - eapply Forall_impl; [exact Hp|]. simpl. intros x Hx.
    by rewrite (comp_asym comp _ _ Hx).
  - destruct rest as [|r rest]; [constructor|].
    apply (ascending_stops comp).
    + by apply (down_closed_not_after comp).
    + by apply StronglySorted_app_1_r in Hs.
    + by rewrite (Hh r eq_refl).
Qed.

End Lookup.

(** The container [{5}]. *)
Lemma ex_single_Inv : Inv Z.ltb ex_single.1 ex_single.2 [Tower 2 5%Z 2].
Proof.
  pose proof ex_empty_Inv as H.
  insert_step H (@nil (@tower Z)) 5%Z 2%positive.
  exact H.
Qed.

(** The two containers of [ex_two]. *)
Lemma ex_two_Inv :
  Inv Z.ltb ex_two.1 ex_two.2.1 ex_two_a ∧
  Inv Z.ltb ex_two.1 ex_two.2.2 ex_two_b.
Proof.
  set (m0 := (construct (construct (T:=Z) ∅ 1).1 2).1).
  set (a0 := (construct (T:=Z) ∅ 1).2).
  set (b0 := (construct (construct (T:=Z) ∅ 1).1 2).2).
  assert (Ha0 : Inv Z.ltb m0 a0 []).
  { apply (Inv_frame Z.ltb (construct ∅ 1).1); [apply construct_spec|].
    intros p Hp. apply list_elem_of_singleton in Hp as ->. done. }
  assert (Hb0 : Inv Z.ltb m0 b0 []) by apply construct_spec.
  set (m1 := <[4%positive := mkNode (Some 2%Z) [None; None] (Some 3%positive)]>
             (<[3%positive := mkNode (Some 1%Z) [Some 4%positive; Some 4%positive;
                                                 None] (Some 1%positive)]>
             (<[1%positive := mkNode None (replicate 3 (Some 3%positive) ++
                                           replicate 30 None) (Some 4%positive)]>
                m0))).
  assert (Hrun1 : run Z.ltb ex_draws ex_fuel
            [OpInsert 1 (AllocOk 3); OpInsert 2 (AllocOk 4)]%Z (m0, a0)
            = Some (m1, ex_two.2.1)) by (vm_compute; reflexivity).
  assert (Hrun2 : run Z.ltb ex_draws ex_fuel
            [OpInsert 10 (AllocOk 5); OpInsert 20 (AllocOk 6)]%Z (m1, b0)
            = Some (ex_two.1, ex_two.2.2)) by (vm_compute; reflexivity).
  assert (Hdisj : ∀ p, p ∈ footprint a0 (@nil (@tower Z)) →
                       p ∉ footprint b0 (@nil (@tower Z))).
  { by intros ? ->%list_elem_of_singleton ?%list_elem_of_singleton. }
  assert (Ha1 : Inv Z.ltb m1 ex_two.2.1 ex_two_a).
  { pose proof Ha0 as H.
    insert_step H (@nil (@tower Z)) 1%Z 3%positive.
    insert_step H [Tower 3 1%Z 2] 2%Z 4%positive.
    exact H. }
  assert (Hb1 : Inv Z.ltb m1 b0 []).
  { apply (Inv_frame Z.ltb m0); [done|].
    destruct (run_isolated Z.ltb ex_draws ex_fuel _ _ _ _ _ _ _ _ Ha0 Hb0 Hdisj
                Hrun1) as [Hs _]. exact Hs. }
  split.
  - apply (Inv_frame Z.ltb m1); [done|].
    destruct (run_isolated Z.ltb ex_draws ex_fuel _ _ _ _ _ _ _ _ Hb1 Ha1
                ltac:(by intros ? ->%list_elem_of_singleton
                             [?|[?|[?|?%elem_of_nil]%elem_of_cons]%elem_of_cons
                             ]%elem_of_cons) Hrun2) as [Hs _].
    exact Hs.
  - pose proof Hb1 as H.
    insert_step H (@nil (@tower Z)) 10%Z 5%positive.
    insert_step H [Tower 5 10%Z 2] 20%Z 6%positive.
    exact H.
Qed.

Lemma ex_two_disjoint p :
  p ∈ footprint ex_two.2.1 ex_two_a → p ∉ footprint ex_two.2.2 ex_two_b.
Proof.
  intros Hp Hq. vm_compute in Hp, Hq.
  repeat (apply elem_of_cons in Hp as [->|Hp];
          [repeat (apply elem_of_cons in Hq as [Hq|Hq]; [done|]);
           by apply elem_of_nil in Hq|]).
  by apply elem_of_nil in Hp.
Qed.

Section Ranges.
Context {T : Type}.
Variable comp : T → T → bool.
Context `{!StrictWeakOrder comp}.

Implicit Types (m : gmap positive (@Node T)) (l pre rest : list (@tower T)).
Implicit Types (t : @tower T) (p a hd d : positive) (q : option positive).
Implicit Types (A B : list (@tower T)) (j : jump_list).
Implicit Types (ocs : nat → alloc_outcome) (xs : list T).

(** ** One call of [insert], whatever its outcome *)

Lemma sublist_insert_middle {X} (pre rest : list X) (c : X) :
  (pre ++ rest) `sublist_of` (pre ++ c :: rest).
Proof. apply sublist_app; [done|]. by apply sublist_cons. Qed.

Lemma insert_effect (draws : nat → bool) fuel m j l v oc m1 j1 r1 :
  Inv comp m j l → alloc_fresh m oc = true →
  insert comp draws fuel m j v oc = Some (m1, j1, r1) →
  ∃ l1, Inv comp m1 j1 l1 ∧ header j1 = header j ∧
    l `sublist_of` l1 ∧ length l1 ≤ S (length l) ∧
    (∀ p, p ∉ footprint j l → is_Some (m !! p) → m1 !! p = m !! p) ∧
    (∀ p, p ∈ footprint j1 l1 → p ∈ footprint j l ∨ m !! p = None) ∧
    (∀ p, is_Some (m1 !! p) →
          is_Some (m !! p) ∨ (oc = AllocOk p ∧ p ∈ map t_addr l1)) ∧
    (∀ p, is_Some (m !! p) → is_Some (m1 !! p)) ∧
    (size_ok j l → (N.of_nat (S (length l)) < SIZE_MOD)%N → size_ok j1 l1) ∧
    match r1 with
    | Normal _ =>
      map t_val l1 = insert_sorted comp v (map t_val l) ∧
      (level_minimal j l → level_minimal j1 l1)
    | BadAlloc =>
      l1 = l ∧ m1 = m ∧ (∀ a, oc ≠ AllocOk a) ∧
      (∀ t, t ∈ l → ¬ equiv comp (t_val t) v)
    end.
Proof.
  intros HI Hf Hi.
  destruct (insert_cases comp draws fuel m j l v oc m1 j1 r1 HI Hf Hi)
    as [(A & t & B & Hl & Heq & -> & -> & ->)
       |(Hne & pre & rest & Hl & Hpass & Hhead & Hh & Hlev & Hrng &
         [(a & -> & Hfresh & -> & Hsz & HI' & Hfr & Hdom)
         |(Hoc & -> & -> & Hsz & HI')])].
  - exists l. split; [done|]. split; [done|]. split; [done|]. split; [lia|].
    split; [done|]. split; [by left|]. split; [by left|]. split; [done|].
    split; [done|]. split; [|done].
    rewrite Hl. symmetry. apply (insert_sorted_dup comp); [|done].
    rewrite <- Hl. apply HI.
  - eexists. split; [exact HI'|]. split; [done|].
    split; [rewrite Hl; apply sublist_insert_middle|].
    split; [rewrite Hl, !length_app; simpl; lia|].
    split; [|split; [|split; [|split; [|split; [|split]]]]].
    + intros p Hp Hlive. apply Hfr; [|done]. intros ->.
      rewrite Hfresh in Hlive. by destruct Hlive.
    + intros p Hp. unfold footprint in *. rewrite Hh in Hp.
      rewrite map_app in Hp. simpl in Hp.
      rewrite elem_of_cons, elem_of_app, elem_of_cons in Hp.
      rewrite Hl, map_app, elem_of_cons, elem_of_app.
      destruct Hp as [->|[?|[->|?]]]; auto.
    + intros p Hp. apply Hdom in Hp as [->|?]; [right|by left].
      split; [done|]. rewrite map_app, elem_of_app. right. simpl. left.
    + intros p Hp. apply Hdom. by right.
    + intros Hso Hlt. by eapply size_ok_insert.
    + rewrite Hl, (insert_sorted_new comp pre rest v Hpass Hhead).
      by rewrite map_app.
    + intros Hlm. rewrite Hl in Hlm.
      apply (insert_level_minimal j j1 pre rest _ Hlm). simpl.
      rewrite Hlev. case_decide; lia.
  - exists l. split; [done|]. split; [done|]. split; [done|]. split; [lia|].
    split; [done|]. split.
    { intros p Hp. left. unfold footprint in *. by rewrite <- Hh. }
    split; [by left|]. split; [done|]. split; [|done].
    intros [Hso Hlt] _. split; [congruence|done].
Qed.

Lemma fresh_oracle_tail m m' n ocs :
  fresh_oracle m (S n) ocs →
  (∀ p, is_Some (m' !! p) → is_Some (m !! p) ∨ ocs 0 = AllocOk p) →
  fresh_oracle m' n (λ k, ocs (S k)).
Proof.
  intros Hf Hdom k Hk. destruct (Hf (S k)) as [Hfr Hdist]; [lia|]. split.
  - assert (Hfree : ∀ a, is_free m a = true →
              ocs (S k) = AllocOk a ∨ ocs (S k) = ConstructFails a →
              is_free m' a = true).
    { intros a Ha Hoc. unfold is_free in *.
      destruct (m' !! a) as [nd|] eqn:Hl; [|done].
      destruct (Hdom a) as [Hlive|H0]; [eauto| |].
      - destruct (m !! a); [done|by destruct Hlive].
      - destruct (Hdist 0 a) as [Hn1 Hn2]; [lia|done|].
        by destruct Hoc. }
    destruct (ocs (S k)) as [|a|a] eqn:Hoc; simpl in *; [done| |];
      apply Hfree; auto.
  - intros k' a Hk' Hoc. apply (Hdist (S k') a); [lia|done].
Qed.

Lemma fresh_oracle_le m n n' ocs :
  fresh_oracle m n ocs → n' ≤ n → fresh_oracle m n' ocs.
Proof. intros Hf Hle k Hk. apply Hf. lia. Qed.

(** ** The range [insert] *)

Lemma insert_range_effect (draws : nat → bool) fuel xs :
  ∀ m j l ocs m' j' r,
    Inv comp m j l → fresh_oracle m (length xs) ocs →
    insert_range comp draws fuel m j xs ocs = Some (m', j', r) →
    ∃ l' n, Inv comp m' j' l' ∧ header j' = header j ∧
      map t_val l' = insert_all comp (take n xs) (map t_val l) ∧
      l `sublist_of` l' ∧ length l' ≤ length l + n ∧
      (∀ p, p ∉ footprint j l → is_Some (m !! p) → m' !! p = m !! p) ∧
      (∀ p, p ∈ footprint j' l' → p ∈ footprint j l ∨ m !! p = None) ∧
      (∀ p, is_Some (m' !! p) → is_Some (m !! p) ∨ p ∈ map t_addr l') ∧
      (size_ok j l → (N.of_nat (length l + length xs) < SIZE_MOD)%N →
       size_ok j' l') ∧
      match r with
      | Normal _ => n = length xs ∧ (level_minimal j l → level_minimal j' l')
      | BadAlloc =>
        ∃ x, xs !! n = Some x ∧ (∀ a, ocs n ≠ AllocOk a) ∧
             (∀ t, t ∈ l' → ¬ equiv comp (t_val t) x)
      end.
Proof.
  induction xs as [|x xs IH]; intros m j l ocs m' j' r HI Hor Hr.
  - simpl in Hr. injection Hr as <- <- <-. exists l, 0.
    split; [done|]. split; [done|]. split; [done|]. split; [done|].
    split; [lia|].
    split; [done|]. split; [by left|]. split; [by left|]. split; [done|]. done.
  - simpl in Hr.
    destruct (insert comp draws fuel m j x (ocs 0)) as [[[m1 j1] r1]|] eqn:Hi;
      [|done].
    simpl in Hr.
    destruct (Hor 0) as [Hf0 _]; [simpl; lia|].
    destruct (insert_effect draws fuel m j l x (ocs 0) m1 j1 r1 HI Hf0 Hi)
      as (l1 & HI1 & Hh1 & Hsub1 & Hlen1 & Hfr1 & Hfp1 & Hdom1 & Hmono1 & Hsz1
          & Hr1).
    destruct r1 as [res|].
    + destruct Hr1 as [Hmod1 Hlm1].
      assert (Hor1 : fresh_oracle m1 (length xs) (λ k, ocs (S k))).
      { apply (fresh_oracle_tail m); [done|].
        intros p Hp. destruct (Hdom1 p Hp) as [?|[? _]]; auto. }
      destruct (IH m1 j1 l1 _ m' j' r HI1 Hor1 Hr)
        as (l' & n & HI' & Hh' & Hmod' & Hsub' & Hlen' & Hfr' & Hfp' & Hdom' & Hsz'
            & Hr').
      exists l', (S n). split; [done|]. split; [congruence|].
      split; [simpl; unfold insert_all in *; simpl; by rewrite <- Hmod1|].
      split; [by etrans|]. split; [lia|].
      split; [|split; [|split; [|split]]].
      * intros p Hp Hlive. rewrite Hfr'.
        -- by apply Hfr1.
        -- intros Hin. destruct (Hfp1 p Hin) as [?|Hnone]; [done|].
           rewrite Hnone in Hlive. by destruct Hlive.
        -- by apply Hmono1.
      * intros p Hp. destruct (Hfp' p Hp) as [Hin|Hnone].
        -- by apply Hfp1.
        -- right. destruct (m !! p) as [nd|] eqn:Hl; [|done].
           destruct (Hmono1 p) as [nd' Hnd']; [by rewrite Hl|]. congruence.
      * intros p Hp. destruct (Hdom' p Hp) as [Hl1|?]; [|by right].
        destruct (Hdom1 p Hl1) as [?|[_ Hin]]; [by left|right].
        apply list_elem_of_fmap in Hin as (t & -> & Hin).
        apply list_elem_of_fmap. exists t. split; [done|].
        by eapply elem_of_sublist.
      * intros Hso Hlt. simpl in Hlt. apply Hsz'; [apply Hsz1; [done|lia]|lia].
      * destruct r as [res'|].
        -- destruct Hr' as [-> Hlm']. split; [done|]. auto.
        -- done.
    + destruct Hr1 as (-> & -> & Hoc & Hne). injection Hr as <- <- <-.
      exists l, 0. split; [done|]. split; [done|]. split; [done|].
      split; [done|]. split; [lia|].
      split; [done|]. split; [exact Hfp1|]. split; [by left|].
      split; [intros Hso Hlt; apply Hsz1; [done|simpl in Hlt; lia]|].
      exists x. done.
Qed.

Lemma insert_range_total (draws : nat → bool) fuel xs :
  ∀ m j l ocs,
    Inv comp m j l → fresh_oracle m (length xs) ocs →
    length l + length xs < fuel → MAX_LEVEL < fuel →
    is_Some (insert_range comp draws fuel m j xs ocs).
Proof.
  induction xs as [|x xs IH]; intros m j l ocs HI Hor Hfuel Hfuel'.
  - simpl. eauto.
  - simpl in *. destruct (Hor 0) as [Hf0 _]; [lia|].
    destruct (insert_total comp draws fuel m j l x (ocs 0) HI Hf0)
      as [[[m1 j1] r1] Hi]; [lia|done|].
    rewrite Hi. simpl.
    destruct (insert_effect draws fuel m j l x (ocs 0) m1 j1 r1 HI Hf0 Hi)
      as (l1 & HI1 & _ & _ & Hlen1 & _ & _ & Hdom1 & _).
    destruct r1 as [res|]; [|eauto].
    apply (IH m1 j1 l1); [done| |lia|done].
    apply (fresh_oracle_tail m); [done|].
    intros p Hp. destruct (Hdom1 p Hp) as [?|[? _]]; auto.
Qed.

(** ** The values of a range *)







(** Values that come in ascending order are appended one by one. *)
Lemma insert_all_ascending A B :
  ascending comp (A ++ B) →
  insert_all comp (map t_val B) (map t_val A) = map t_val (A ++ B).
Proof.
  revert A. induction B as [|b B IH]; intros A Hs; simpl.
  - by rewrite app_nil_r.
  - replace (A ++ b :: B) with ((A ++ [b]) ++ B) in * by (by rewrite <- app_assoc).
    rewrite <- IH by done. f_equal.
    rewrite <- (app_nil_r A) at 1.
    rewrite (insert_sorted_new comp A [] (t_val b)); [by rewrite map_app|
      |by intros ?].
    apply StronglySorted_app_1_l in Hs.
    apply StronglySorted_app in Hs as (Hlt & _ & _).
    apply Forall_forall. intros t Ht. apply Hlt; [done|left].
Qed.

(** ** The destructor *)

Lemma destroy_spec fuel m j l :
  Inv comp m j l → length l < fuel →
  ∃ m', destroy fuel m j = Some m' ∧
    ∀ p, m' !! p = if decide (p ∈ footprint j l) then None else m !! p.
Proof.
  intros HI Hfuel. unfold destroy.
  destruct (clear_mem comp fuel m j l HI Hfuel) as (m1 & -> & _ & Hm1).
  simpl. eexists. split; [done|]. intros p. unfold footprint.
  destruct (decide (p = header j)) as [->|Hne].
  - rewrite lookup_delete_eq. rewrite decide_True; [done|left].
  - rewrite lookup_delete_ne by done. rewrite Hm1 by done.
    destruct (decide (p ∈ map t_addr l)).
    + rewrite decide_True; [done|by right].
    + rewrite decide_False; [done|]. rewrite not_elem_of_cons. done.
Qed.

End Ranges.

(** The allocator that works through a list of distinct unused addresses
    hands out fresh addresses. *)
Lemma supply_fresh {T} (m : gmap positive (@Node T)) (addrs : list positive) n :
  NoDup addrs → Forall (λ a, is_free m a = true) addrs →
  fresh_oracle m n (supply addrs).
Proof.
  intros Hnd Hfree k _. unfold supply. split.
  - destruct (addrs !! k) as [a|] eqn:Hk; simpl; [|done].
    rewrite Forall_forall in Hfree. apply Hfree. by eapply list_elem_of_lookup_2.
  - intros k' a Hk' Hoc. destruct (addrs !! k') as [a'|] eqn:Hk1; [|done].
    injection Hoc as ->.
    destruct (addrs !! k) as [a2|] eqn:Hk2; [|done]. split; [|done].
    intros [= ->]. pose proof (NoDup_lookup _ _ _ _ Hnd Hk1 Hk2). lia.
Qed.

Section Copies.
Context {T : Type}.
Variable comp : T → T → bool.
Context `{!StrictWeakOrder comp}.

Implicit Types (m : gmap positive (@Node T)) (l lo pre rest : list (@tower T)).
Implicit Types (t : @tower T) (p a hd d : positive) (q : option positive).
Implicit Types (A B : list (@tower T)) (j this other : jump_list).
Implicit Types (ocs : nat → alloc_outcome) (xs : list T).

(** The invariant does not read [size_] or [rng]. *)
Lemma Inv_same_header m j j' l :
  Inv comp m j l → header j' = header j → level j' = level j → Inv comp m j' l.
Proof.
  intros HI Hh Hl. apply (Inv_relevel comp m j); [done|done| |].
  - rewrite Hl. apply HI.
  - rewrite Hl. apply HI.
Qed.

Lemma Inv_fresh_header m j l a nd :
  Inv comp m j l → m !! a = None → Inv comp (<[a := nd]> m) j l.
Proof.
  intros HI Hfresh. apply (Inv_frame comp m); [done|].
  intros p Hp. rewrite lookup_insert_ne; [done|]. intros <-.
  destruct (footprint_live comp m j l a HI Hp) as [x Hx]. congruence.
Qed.

(** A header of its own: the empty container at a fresh address. *)
Lemma Inv_new_header m a lvl sz g :
  lvl = 0 →
  Inv comp (<[a := Node_header MAX_LEVEL]> m) (JumpList a lvl sz g) [].
Proof.
  intros ->. apply (Inv_same_header _ (construct m a).2); [|done|done].
  apply construct_spec.
Qed.

(** Inserting the elements of another container, which owns other
    objects, is inserting the sequence of its values. *)
Lemma insert_range_from_eq (draws : nat → bool) fuel other lo (h : option positive) :
  ∀ B A n m j l ocs,
    Inv comp m j l → Inv comp m other lo → lo = A ++ B →
    (∀ p, p ∈ footprint j l → p ∉ footprint other lo) →
    fresh_oracle m (length B) ocs → length B < n →
    insert_range_from comp draws fuel n m j (Iterator (nxt 0 B) h) (end_ other) ocs
    = insert_range comp draws fuel m j (map t_val B) ocs.
Proof.
  induction B as [|b B IH]; intros A n m j l ocs HI HIo Hlo Hdisj Hor Hn.
  - destruct n; [simpl in Hn; lia|]. done.
  - destruct n as [|n]; [simpl in Hn; lia|]. simpl in Hn.
    cbn [insert_range_from insert_range map nxt]. rewrite decide_True by lia.
    unfold iterator_eq at 1. simpl node. rewrite bool_decide_eq_false_2 by done.
    rewrite (deref_tower comp m other lo b h HIo).
    2:{ rewrite Hlo, elem_of_app, elem_of_cons. auto. }
    simpl.
    destruct (insert comp draws fuel m j (t_val b) (ocs 0)) as [[[m1 j1] r1]|] eqn:Hi;
      [|done].
    simpl. destruct r1 as [res|]; [|done].
    destruct (Hor 0) as [Hf0 _]; [simpl; lia|].
    destruct (insert_effect comp draws fuel m j l (t_val b) (ocs 0) m1 j1 _ HI Hf0 Hi)
      as (l1 & HI1 & Hh1 & _ & _ & Hfr1 & Hfp1 & Hdom1 & _).
    assert (HIo1 : Inv comp m1 other lo).
    { apply (Inv_frame comp m); [done|]. intros p Hp. apply Hfr1.
      - intros Hin. by apply (Hdisj p).
      - by eapply footprint_live. }
    rewrite (incr_spec comp m1 other lo A b B h HIo1 Hlo). simpl.
    apply (IH (A ++ [b]) n m1 j1 l1); try done.
    + by rewrite <- app_assoc.
    + intros p Hp Hpo. destruct (Hfp1 p Hp) as [Hin|Hnone].
      * by apply (Hdisj p).
      * destruct (footprint_live comp m other lo p HIo Hpo) as [x Hx]. congruence.
    + apply (fresh_oracle_tail m); [done|].
      intros p Hp. destruct (Hdom1 p Hp) as [?|[? _]]; auto.
    + lia.
Qed.

Lemma ascending_take n l : ascending comp l → ascending comp (take n l).
Proof.
  intros Hs. rewrite <- (take_drop n l) in Hs.
  by apply StronglySorted_app_1_l in Hs.
Qed.

Lemma insert_all_take_ascending n l :
  ascending comp l →
  insert_all comp (take n (map t_val l)) [] = take n (map t_val l).
Proof.
  intros Hs. rewrite firstn_map.
  change (@nil T) with (map t_val (@nil (@tower T))).
  rewrite (insert_all_ascending comp [] (take n l)); [done|].
  by apply ascending_take.
Qed.

(** The loop of the copy constructor and of the copy assignment, run on a
    container [j] that is empty. *)
Lemma copy_loop_spec (draws : nat → bool) fuel m j other lo ocs :
  Inv comp m j [] → Inv comp m other lo →
  header j ≠ header other → header j ∉ map t_addr lo →
  fresh_oracle m (length lo) ocs →
  length lo < fuel → MAX_LEVEL < fuel →
  ∃ m' j' r l' n,
    begin_ m other = Some (Iterator (nxt 0 lo) (Some (header other))) ∧
    insert_range_from comp draws fuel fuel m j
      (Iterator (nxt 0 lo) (Some (header other))) (end_ other) ocs
    = Some (m', j', r) ∧
    Inv comp m' j' l' ∧ header j' = header j ∧
    map t_val l' = take n (map t_val lo) ∧
    Inv comp m' other lo ∧
    (∀ p, p ≠ header j → is_Some (m !! p) → m' !! p = m !! p) ∧
    (∀ p, p ∈ footprint j' l' → p ∉ footprint other lo) ∧
    (∀ p, p ∈ footprint j' l' → p = header j ∨ m !! p = None) ∧
    (∀ p, is_Some (m' !! p) → is_Some (m !! p) ∨ p ∈ map t_addr l') ∧
    (size_ j = 0%N → (N.of_nat (length lo) < SIZE_MOD)%N → size_ok j' l') ∧
    match r with
    | Normal _ => n = length lo ∧ (level j = 0 → level_minimal j' l')
    | BadAlloc => n < length lo ∧ (∀ a, ocs n ≠ AllocOk a)
    end.
Proof.
  intros HI HIo Hh1 Hh2 Hor Hfuel Hfuel'.
  assert (Hdisj : ∀ p, p ∈ footprint j (@nil (@tower T)) →
                       p ∉ footprint other lo).
  { intros p ->%list_elem_of_singleton. unfold footprint.
    rewrite not_elem_of_cons. done. }
  rewrite (begin_spec comp m other lo HIo).
  rewrite (insert_range_from_eq draws fuel other lo _ lo [] fuel m j [] ocs)
    by done.
  assert (Hor' : fresh_oracle m (length (map t_val lo)) ocs)
    by by rewrite length_map.
  destruct (insert_range_total comp draws fuel (map t_val lo) m j [] ocs HI Hor')
    as [[[m' j'] r] Hr]; [simpl; rewrite length_map; lia|done|].
  destruct (insert_range_effect comp draws fuel _ m j [] ocs m' j' r HI Hor' Hr)
    as (l' & n & HI' & Hh & Hmod & _ & Hlen & Hfr & Hfp & Hdom & Hsz & Hres).
  simpl in Hmod. rewrite (insert_all_take_ascending n lo) in Hmod
    by apply HIo.
  exists m', j', r, l', n. split; [done|]. split; [done|]. split; [done|].
  split; [done|]. split; [done|].
  assert (HIo' : Inv comp m' other lo).
  { apply (Inv_frame comp m); [done|]. intros p Hp. apply Hfr.
    - intros Hin. by apply (Hdisj p).
    - by eapply footprint_live. }
  split; [done|]. split.
  { intros p Hp Hlive. apply Hfr; [|done].
    by intros ->%list_elem_of_singleton. }
  split.
  { intros p Hp Hpo. destruct (Hfp p Hp) as [Hin|Hnone].
    - by apply (Hdisj p).
    - destruct (footprint_live comp m other lo p HIo Hpo) as [x Hx]. congruence. }
  split.
  { intros p Hp. destruct (Hfp p Hp) as [Hin%list_elem_of_singleton|?]; auto. }
  split; [done|]. split.
  { intros Hso Hlt. apply Hsz; [by split|]. simpl. by rewrite length_map. }
  destruct r as [res|].
  - destruct Hres as [-> Hlm]. rewrite length_map. split; [done|].
    intros H0. apply Hlm. by left.
  - destruct Hres as (x & Hx & Hoc & _). apply lookup_lt_Some in Hx.
    rewrite length_map in Hx. done.
Qed.

End Copies.


Section RangeErase.
Context {T : Type}.
Variable comp : T → T → bool.
Context `{!StrictWeakOrder comp}.

Implicit Types (m : gmap positive (@Node T)) (l pre rest : list (@tower T)).
Implicit Types (t c : @tower T) (p a hd d : positive) (q : option positive).
Implicit Types (A B M : list (@tower T)) (j : jump_list).

(** The place of the stored element equivalent to a value is unique. *)
Lemma equiv_split_unique l A t B A' t' B' (v : T) :
  ascending comp l → l = A ++ t :: B → l = A' ++ t' :: B' →
  equiv comp (t_val t) v → equiv comp (t_val t') v →
  A = A' ∧ t = t' ∧ B = B'.
Proof.
  intros Hs Hl Hl' Heq Heq'. rewrite Hl in Hl', Hs.
  pose proof (ascending_equiv_unique comp A t B v Hs Heq) as Hu.
  destruct (app_cons_eq_inv _ _ _ _ _ _ Hl') as [(C & -> & ->)|[(-> & -> & ->)
    |(C & -> & ->)]]; [|done|].
  - destruct (Hu t'); [|done]. rewrite <- app_assoc, !elem_of_app, elem_of_cons.
    auto.
  - destruct (Hu t'); [|done]. rewrite !elem_of_app, elem_of_cons. auto.
Qed.

(** [erase] at the iterator of a stored tower. *)
Lemma erase_at_spec fuel m j l pre c rest (h : option positive) :
  Inv comp m j l → l = pre ++ c :: rest → length l < fuel →
  ∃ m' j',
    erase comp fuel m j (Iterator (Some (t_addr c)) h)
    = Some (m', j', Iterator (nxt 0 rest) (Some (header j))) ∧
    Inv comp m' j' (pre ++ rest) ∧ shrinks m j l m' j' (pre ++ rest) ∧
    level_minimal j' (pre ++ rest) ∧ size_ j' = size_decr (size_ j) ∧
    m' !! t_addr c = None.
Proof.
  intros HI Hl Hfuel.
  assert (Hin : c ∈ l) by (rewrite Hl, elem_of_app, elem_of_cons; auto).
  pose proof (get_data_tower comp m j l c HI Hin) as Hval.
  destruct (erase_spec comp fuel m j l pre c rest (Iterator (Some (t_addr c)) h)
              (t_addr c) (t_val c) HI Hl eq_refl Hval (equiv_refl comp _) Hfuel)
    as (m' & lvl' & He & _).
  cbv zeta in He.
  exists m', (JumpList (header j) lvl' (size_decr (size_ j)) (rng j)).
  split; [exact He|].
  destruct (erase_cases comp fuel m j l _ _ _ _ HI He)
    as [(_ & _ & _ & [Hn|(p & value & Hn & Hv & Hnone)])
       |(p & value & pre' & c' & rest' & Hn & Hv & Hl' & Heq' & _ & _ & _ & _ & _
         & HI' & Hmin & Hgone & _ & _ & Hs)].
  - done.
  - simpl in Hn. injection Hn as <-. rewrite Hval in Hv. injection Hv as <-.
    destruct (Hnone c Hin). apply (equiv_refl comp).
  - simpl in Hn. injection Hn as <-. rewrite Hval in Hv. injection Hv as <-.
    destruct (equiv_split_unique l pre c rest pre' c' rest' (t_val c)
                (inv_sorted _ _ _ _ HI) Hl Hl' (equiv_refl comp _) Heq')
      as (<- & <- & <-).
    done.
Qed.

(** The loop of the range [erase] over the towers [M], which are followed
    by [B]. *)
Lemma erase_range_loop_spec fuel B (h h' : option positive) :
  ∀ M A n m j result,
    Inv comp m j (A ++ M ++ B) → length M < n → length (A ++ M ++ B) < fuel →
    ∃ m' j',
      erase_range_loop comp fuel n m j (Iterator (nxt 0 (M ++ B)) h)
                       (Iterator (nxt 0 B) h') result
      = Some (m', j',
              match M with
              | [] => result
              | _ => Iterator (nxt 0 B) (Some (header j))
              end) ∧
      Inv comp m' j' (A ++ B) ∧ shrinks m j (A ++ M ++ B) m' j' (A ++ B) ∧
      (M ≠ [] → level_minimal j' (A ++ B)) ∧
      (∀ t, t ∈ M → m' !! t_addr t = None).
Proof.
  induction M as [|c M IH]; intros A n m j result HI Hn Hfuel.
  - destruct n; [simpl in Hn; lia|]. simpl. unfold iterator_eq. simpl.
    rewrite bool_decide_eq_true_2 by done.
    exists m, j. split; [done|]. split; [done|].
    split; [apply shrinks_refl|]. split; [done|].
    by intros t ?%elem_of_nil.
  - destruct n as [|n]; [simpl in Hn; lia|]. simpl in Hn.
    assert (Hne : nxt 0 ((c :: M) ++ B) ≠ nxt 0 B).
    { intros Heq. apply (nxt_0_ne (c :: M) B); [|done|done].
      pose proof (inv_nodup _ _ _ _ HI) as Hnd.
      apply NoDup_cons in Hnd as [_ Hnd]. rewrite map_app in Hnd.
      by apply NoDup_app in Hnd as (_ & _ & ?). }
    cbn [erase_range_loop]. unfold iterator_eq at 1. cbn [node].
    rewrite bool_decide_eq_false_2 by done.
    change ((c :: M) ++ B) with (c :: (M ++ B)) in *. cbn [nxt].
    rewrite decide_True by lia.
    rewrite (incr_spec comp m j _ A c (M ++ B) h HI eq_refl). simpl.
    destruct (erase_at_spec fuel m j _ A c (M ++ B) h HI eq_refl Hfuel)
      as (m1 & j1 & -> & HI1 & Hs1 & Hmin1 & Hsz1 & Hgone1).
    simpl.
    destruct (IH A n m1 j1 (Iterator (nxt 0 (M ++ B)) (Some (header j))) HI1)
      as (m' & j' & -> & HI' & Hs' & Hmin' & Hgone'); [lia| |].
    { clear -Hfuel. rewrite !length_app in Hfuel. simpl in Hfuel.
      rewrite length_app in Hfuel. rewrite !length_app. lia. }
    exists m', j'.
    assert (Hh1 : header j1 = header j) by apply Hs1.
    split; [destruct M; [done|by rewrite Hh1]|]. split; [done|].
    split; [by eapply shrinks_trans|]. split.
    + intros _. destruct M as [|c' M]; [|by apply Hmin'].
      destruct Hs' as (_ & _ & _ & _ & _ & _ & Hlm & _). by apply Hlm.
    + intros t Ht. apply elem_of_cons in Ht as [->|Ht]; [|by apply Hgone'].
      destruct (m' !! t_addr c) as [nd|] eqn:Hl; [|done].
      destruct Hs' as (_ & _ & _ & _ & Hdom & _).
      destruct (Hdom (t_addr c)) as [x Hx]; [by rewrite Hl|]. congruence.
Qed.

(** The range [insert] with the container's own elements changes
    nothing: every value is found stored. *)
Lemma insert_own_range (draws : nat → bool) fuel m j l (h : option positive) :
  Inv comp m j l → length l < fuel →
  ∀ B A n ocs, l = A ++ B → length B < n →
    insert_range_from comp draws fuel n m j (Iterator (nxt 0 B) h) (end_ j) ocs
    = Some (m, j, Normal tt).
Proof.
  intros HI Hfuel. induction B as [|b B IH]; intros A n ocs Hl Hn.
  - destruct n; [simpl in Hn; lia|]. done.
  - destruct n as [|n]; [simpl in Hn; lia|]. simpl in Hn.
    cbn [insert_range_from nxt]. rewrite decide_True by lia.
    unfold iterator_eq at 1. simpl node. rewrite bool_decide_eq_false_2 by done.
    rewrite (deref_tower comp m j l b h HI).
    2:{ rewrite Hl, elem_of_app, elem_of_cons. auto. }
    simpl.
    rewrite (insert_existing_spec comp draws fuel m j l A b B (t_val b) (ocs 0) HI
               Hl (equiv_refl comp _) Hfuel).
    simpl. rewrite (incr_spec comp m j l A b B h HI Hl). simpl.
    apply (IH (A ++ [b])); [by rewrite <- app_assoc|lia].
Qed.

End RangeErase.

(** ** Lexicographic comparison of sequences *)

Lemma lex_less_asym {T} (ltT : T → T → bool) (xs ys : list T) :
  (∀ x y, ltT x y = true → ltT y x = false) →
  lex_less ltT xs ys = true → lex_less ltT ys xs = false.
Proof.
  intros Has. revert ys. induction xs as [|x xs IH]; intros [|y ys]; simpl;
    try done.
  destruct (ltT x y) eqn:Hxy.
  - intros _. by rewrite (Has x y Hxy).
  - destruct (ltT y x) eqn:Hyx; [done|]. apply IH.
Qed.

Lemma equal_lists_lex {T} (eqT ltT : T → T → bool) (xs ys : list T) :
  (∀ x y, eqT x y = true ↔ ltT x y = false ∧ ltT y x = false) →
  equal_lists eqT xs ys
  = negb (lex_less ltT xs ys) && negb (lex_less ltT ys xs).
Proof.
  intros Hc. revert ys. induction xs as [|x xs IH]; intros [|y ys]; simpl;
    try done.
  destruct (ltT x y) eqn:Hxy, (ltT y x) eqn:Hyx; simpl.
  - destruct (eqT x y) eqn:He; [|done]. apply Hc in He as [? ?]. congruence.
  - destruct (eqT x y) eqn:He; [|done]. apply Hc in He as [? ?]. congruence.
  - destruct (eqT x y) eqn:He; [|done]. apply Hc in He as [? ?]. congruence.
  - rewrite (proj2 (Hc x y)) by done. simpl. apply IH.
Qed.

Section Ownership.
Context {T : Type}.
Variable comp : T → T → bool.
Context `{!StrictWeakOrder comp}.

Implicit Types (m : gmap positive (@Node T)) (l pre rest : list (@tower T)).
Implicit Types (t c : @tower T) (p a hd d : positive) (q : option positive).
Implicit Types (A B M : list (@tower T)) (j : jump_list).

(** ** What is allocated belongs to the container *)

Lemma shrinks_footprint m j l m' j' l' :
  shrinks m j l m' j' l' →
  (∀ p, p ∈ footprint j' l' → p ∈ footprint j l ∨ m !! p = None) ∧
  (∀ p, p ∉ footprint j' l' →
        m' !! p = if decide (p ∈ footprint j l) then None else m !! p).
Proof.
  intros (Hh & _ & Hsub & Hfr & _ & _ & _ & Hgone). split.
  - intros p Hp. left. by eapply footprint_sublist.
  - intros p Hp. destruct (decide (p ∈ footprint j l)); [by apply Hgone|].
    by apply Hfr.
Qed.

Lemma step_footprint (draws : nat → bool) fuel o m j l m' j' :
  Inv comp m j l → step comp draws fuel o (m, j) = Some (m', j') →
  ∃ l', Inv comp m' j' l' ∧
    (∀ p, p ∈ footprint j' l' → p ∈ footprint j l ∨ m !! p = None) ∧
    (∀ p, p ∉ footprint j' l' →
          m' !! p = if decide (p ∈ footprint j l) then None else m !! p).
Proof.
  intros HI Hs. destruct o as [v oc|pos|first last|key|]; simpl in Hs.
  - destruct (alloc_fresh m oc) eqn:Hf; [|done].
    destruct (insert comp draws fuel m j v oc) as [[[m1 j1] r]|] eqn:Hi; [|done].
    simpl in Hs. injection Hs as <- <-.
    destruct (insert_effect comp draws fuel m j l v oc m1 j1 r HI Hf Hi)
      as (l1 & HI1 & Hh1 & Hsub1 & _ & Hfr1 & Hfp1 & Hdom1 & _).
    exists l1. split; [done|]. split; [done|].
    intros p Hp.
    assert (Hp0 : p ∉ footprint j l).
    { intros Hin. apply Hp. unfold footprint in *. rewrite Hh1.
      apply elem_of_cons in Hin as [->|Hin]; [left|right].
      apply list_elem_of_fmap in Hin as (t & -> & Hin).
      apply list_elem_of_fmap. exists t. split; [done|].
      by eapply elem_of_sublist. }
    rewrite decide_False by done.
    destruct (m !! p) as [nd|] eqn:Hl.
    + rewrite <- Hl. apply Hfr1; [done|]. by rewrite Hl.
    + destruct (m1 !! p) as [nd|] eqn:Hl1; [|done]. exfalso.
      destruct (Hdom1 p) as [Hx|[_ Hin]]; [by rewrite Hl1| |].
      * rewrite Hl in Hx. by destruct Hx.
      * apply Hp. by right.
  - destruct (erase comp fuel m j pos) as [[[m1 j1] r]|] eqn:He; [|done].
    simpl in Hs. injection Hs as <- <-.
    destruct (erase_effect comp _ _ _ _ _ _ _ _ HI He) as (l' & HI' & Hsh).
    exists l'. split; [done|]. by apply shrinks_footprint.
  - destruct (erase_range comp fuel m j first last) as [[[m1 j1] r]|] eqn:He;
      [|done].
    simpl in Hs. injection Hs as <- <-.
    destruct (erase_range_loop_effect comp _ _ _ _ _ _ _ _ _ _ _ HI He)
      as (l' & HI' & Hsh).
    exists l'. split; [done|]. by apply shrinks_footprint.
  - destruct (erase_key comp fuel m j key) as [[[m1 j1] r]|] eqn:He; [|done].
    simpl in Hs. injection Hs as <- <-.
    destruct (erase_key_effect comp _ _ _ _ _ _ _ _ HI He) as (l' & HI' & Hsh).
    exists l'. split; [done|]. by apply shrinks_footprint.
  - destruct (clear_effect comp fuel m j l m' j' HI Hs) as (HI' & Hsh).
    exists []. split; [done|]. by apply shrinks_footprint.
Qed.

Lemma run_footprint (draws : nat → bool) fuel ops :
  ∀ m j l m' j',
    Inv comp m j l → run comp draws fuel ops (m, j) = Some (m', j') →
    ∃ l', Inv comp m' j' l' ∧
      (∀ p, p ∈ footprint j' l' → p ∈ footprint j l ∨ m !! p = None) ∧
      (∀ p, p ∉ footprint j' l' →
            m' !! p = if decide (p ∈ footprint j l) then None else m !! p).
Proof.
  induction ops as [|o ops IH]; intros m j l m' j' HI Hr.
  - injection Hr as <- <-. exists l. split; [done|]. split; [by left|].
    intros p Hp. by rewrite decide_False.
  - rewrite run_cons in Hr.
    destruct (step comp draws fuel o (m, j)) as [[m1 j1]|] eqn:Hs; [|done].
    simpl in Hr.
    destruct (step_footprint draws fuel o m j l m1 j1 HI Hs)
      as (l1 & HI1 & Hfp1 & Hout1).
    destruct (IH m1 j1 l1 m' j' HI1 Hr) as (l2 & HI2 & Hfp2 & Hout2).
    exists l2. split; [done|]. split.
    + intros p Hp. destruct (Hfp2 p Hp) as [Hin|Hnone]; [by apply Hfp1|].
      destruct (decide (p ∈ footprint j1 l1)) as [Hin|Hout]; [by apply Hfp1|].
      rewrite (Hout1 p Hout) in Hnone. case_decide; auto.
    + intros p Hp. rewrite (Hout2 p Hp).
      destruct (decide (p ∈ footprint j1 l1)) as [Hin|Hout].
      * destruct (Hfp1 p Hin) as [?|Hnone]; [by rewrite decide_True|].
        by case_decide.
      * by apply Hout1.
Qed.

End Ownership.


(** * Properties of the remaining members *)

(** X1 (reverse iteration).  On a container that satisfies the invariant,
    traversing from [rbegin()] to [rend()] visits the elements that the
    traversal from [begin()] to [end()] visits, in the opposite order. *)
Theorem reverse_iteration {T} (comp : T → T → bool) `{!StrictWeakOrder comp}
    (fuel : nat) m j l :
  Inv comp m j l → length l < fuel →
  ∃ xs, elements fuel m j = Some xs ∧ relements fuel m j = Some (rev xs).
Proof.
  intros HI Hfuel. exists (map t_val l).
  split; [by apply (elements_spec comp)|by apply (relements_spec comp)].
Qed.

Lemma reverse_iteration_witness :
  ∃ xs, elements ex_fuel ex_state.1 ex_state.2 = Some xs ∧
        relements ex_fuel ex_state.1 ex_state.2 = Some (rev xs).
Proof.
  apply (reverse_iteration Z.ltb ex_fuel _ _ ex_towers ex_Inv).
  vm_compute. lia.
Defined.

(** X2 (increment and decrement are inverse on the elements).  For the
    iterator [it] at a stored element: [++it] followed by [--] is [it]
    again, also when [++it] is [end()]; when [it] is not the first
    element, [--it] is the iterator at the element before it and [++]
    leads back to [it]; and [--end()] is the iterator at the last
    element. *)
Theorem iterator_round_trip {T} (comp : T → T → bool) `{!StrictWeakOrder comp}
    m j l A (t : @tower T) B :
  Inv comp m j l → l = A ++ t :: B →
  let at_ (s : tower) := Iterator (Some (t_addr s)) (Some (header j)) in
  (∃ it', incr m (at_ t) = Some it' ∧ decr m it' = Some (at_ t)) ∧
  (∀ A' s, A = A' ++ [s] →
     decr m (at_ t) = Some (at_ s) ∧ incr m (at_ s) = Some (at_ t) ∧
     deref m (at_ s) = Some (t_val s)) ∧
  (B = [] → decr m (end_ j) = Some (at_ t)).
Proof.
  intros HI Hl at_. split; [|split].
  - exists (Iterator (nxt 0 B) (Some (header j))).
    split; [by apply (incr_spec comp m j l A t B)|].
    by apply (decr_spec comp m j l A t B).
  - intros A' s ->. rewrite <- app_assoc in Hl. simpl in Hl. split; [|split].
    + apply (decr_spec comp m j l A' s (t :: B) HI Hl).
    + apply (incr_spec comp m j l A' s (t :: B) _ HI Hl).
    + apply (deref_tower comp m j l s _ HI).
      rewrite Hl, elem_of_app, elem_of_cons. auto.
  - intros ->. apply (decr_spec comp m j l A t [] HI Hl).
Qed.

Lemma iterator_round_trip_witness :
  (∃ it', incr ex_state.1 (ex_it 6) = Some it' ∧
          decr ex_state.1 it' = Some (ex_it 6)) ∧
  (decr ex_state.1 (ex_it 6) = Some (ex_it 5) ∧
   incr ex_state.1 (ex_it 5) = Some (ex_it 6) ∧
   deref ex_state.1 (ex_it 5) = Some 7%Z) ∧
  decr ex_state.1 (end_ ex_state.2) = Some (ex_it 6).
Proof.
  destruct (iterator_round_trip Z.ltb ex_state.1 ex_state.2 ex_towers
              [Tower 2 1%Z 2; Tower 3 3%Z 1; Tower 4 5%Z 0; Tower 5 7%Z 1]
              (Tower 6 9%Z 2) [] ex_Inv eq_refl) as (H1 & H2 & H3).
  split; [exact H1|]. split; [|exact (H3 eq_refl)].
  exact (H2 [Tower 2 1%Z 2; Tower 3 3%Z 1; Tower 4 5%Z 0] (Tower 5 7%Z 1) eq_refl).
Defined.

(** X3 (decrementing [begin()]).  The first node's backward link is the
    header, and [operator--] does not test for it: on a non-empty
    container [--begin()] is an iterator whose node is the header, which
    is no element and which differs from [end()]. *)
Theorem decrement_begin {T} (comp : T → T → bool) `{!StrictWeakOrder comp}
    m j l (t : @tower T) B :
  Inv comp m j l → l = t :: B →
  ∃ b r, begin_ m j = Some b ∧ deref m b = Some (t_val t) ∧
    decr m b = Some r ∧ node r = Some (header j) ∧
    iterator_eq r (end_ j) = false ∧ header j ∉ map t_addr l.
Proof.
  intros HI Hl.
  exists (Iterator (Some (t_addr t)) (Some (header j))),
         (Iterator (Some (header j)) (Some (header j))).
  split; [|split; [|split; [|split; [done|split; [done|]]]]].
  - rewrite (begin_spec comp m j l HI), Hl. done.
  - apply (deref_tower comp m j l t _ HI). rewrite Hl. left.
  - unfold decr. simpl.
    by rewrite (backward_tower comp m j l [] t B HI Hl).
  - pose proof (inv_nodup _ _ _ _ HI) as Hnd. by apply NoDup_cons in Hnd as [? _].
Qed.

Lemma decrement_begin_witness :
  ∃ b r, begin_ ex_state.1 ex_state.2 = Some b ∧
    deref ex_state.1 b = Some 1%Z ∧
    decr ex_state.1 b = Some r ∧ node r = Some (header ex_state.2) ∧
    iterator_eq r (end_ ex_state.2) = false ∧
    header ex_state.2 ∉ map t_addr ex_towers.
Proof.
  apply (decrement_begin Z.ltb ex_state.1 ex_state.2 ex_towers (Tower 2 1%Z 2)
           [Tower 3 3%Z 1; Tower 4 5%Z 0; Tower 5 7%Z 1; Tower 6 9%Z 2] ex_Inv).
  reflexivity.
Defined.

(** X4 ([--end()] on an empty container).  A container that was just
    constructed or cleared has a null backward link in its header, and
    [--end()] is [end()]; a container whose only element was erased has
    its header's backward link pointing at the header itself, and
    [--end()] is an iterator at the header node. *)
Theorem decrement_end_when_empty {T} (comp : T → T → bool)
    `{!StrictWeakOrder comp} (fuel : nat) m j l (t : @tower T) m0 a0 :
  Inv comp m j l → length l < fuel →
  decr (construct m0 a0).1 (end_ (construct (T:=T) m0 a0).2)
  = Some (end_ (construct (T:=T) m0 a0).2) ∧
  (∃ m' j', clear fuel m j = Some (m', j') ∧ Inv comp m' j' [] ∧
     decr m' (end_ j') = Some (end_ j')) ∧
  (l = [t] →
   ∃ m' j', erase comp fuel m j (Iterator (Some (t_addr t)) (Some (header j)))
            = Some (m', j', end_ j) ∧
     Inv comp m' j' [] ∧ size_ j' = size_decr (size_ j) ∧
     decr m' (end_ j') = Some (Iterator (Some (header j')) (Some (header j')))).
Proof.
  intros HI Hfuel. split; [|split].
  - unfold decr, construct, end_. simpl.
    rewrite get_backward_insert. by rewrite decide_True.
  - destruct (clear_spec comp fuel m j l HI Hfuel) as (m' & Hc & HI' & _).
    exists m', (JumpList (header j) 0 0 (rng j)). split; [done|]. split; [done|].
    unfold decr, end_. simpl. by rewrite (clear_backward fuel m j _ _ Hc).
  - intros Hl.
    assert (Hval : get_data m (t_addr t) = Some (t_val t)).
    { apply (get_data_tower comp m j l t HI). rewrite Hl. left. }
    destruct (erase_mem comp fuel m j l [] t []
                (Iterator (Some (t_addr t)) (Some (header j))) (t_addr t) (t_val t)
                HI Hl eq_refl Hval (equiv_refl comp _) Hfuel)
      as (m' & lvl' & He & HI' & _ & _ & _ & _ & _ & Hb & _).
    cbv zeta in He, HI'. eexists _, _. split; [exact He|]. split; [exact HI'|].
    split; [done|]. unfold decr, end_. simpl. rewrite Hb.
    assert (Hne : header j ≠ t_addr t).
    { pose proof (inv_nodup _ _ _ _ HI) as Hnd. rewrite Hl in Hnd.
      apply NoDup_cons in Hnd as [Hn _]. intros Heq. apply Hn. rewrite Heq.
      simpl. left. }
    rewrite decide_False by done. unfold succ_of. simpl.
    by rewrite decide_True.
Qed.

Lemma decrement_end_when_empty_witness :
  decr ex_empty.1 (end_ ex_empty.2) = Some (end_ ex_empty.2) ∧
  (∃ m' j', clear ex_fuel ex_single.1 ex_single.2 = Some (m', j') ∧
     Inv Z.ltb m' j' [] ∧ decr m' (end_ j') = Some (end_ j')) ∧
  (∃ m' j', erase Z.ltb ex_fuel ex_single.1 ex_single.2 (ex_it 2)
            = Some (m', j', end_ ex_single.2) ∧
     Inv Z.ltb m' j' [] ∧ size_ j' = size_decr (size_ ex_single.2) ∧
     decr m' (end_ j') = Some (Iterator (Some (header j')) (Some (header j')))).
Proof.
  destruct (decrement_end_when_empty Z.ltb ex_fuel ex_single.1 ex_single.2
              [Tower 2 5%Z 2] (Tower 2 5%Z 2) ∅ 1 ex_single_Inv
              ltac:(vm_compute; lia)) as (H1 & H2 & H3).
  split; [exact H1|]. split; [exact H2|]. exact (H3 eq_refl).
Defined.

(** X5 ([contains] and [count]).  On a container that satisfies the
    invariant, [contains(key)] returns whether some element that the
    iteration visits is comparator-equivalent to [key], and [count(key)]
    is 1 when it does and 0 otherwise. *)
Theorem contains_count_semantics {T} (comp : T → T → bool)
    `{!StrictWeakOrder comp} (fuel : nat) m j l (key : T) :
  Inv comp m j l → length l < fuel →
  ∃ xs b, elements fuel m j = Some xs ∧
    contains comp fuel m j key = Some b ∧
    count comp fuel m j key = Some (if b then 1%N else 0%N) ∧
    (b = true ↔ ∃ x, x ∈ xs ∧ equiv comp x key).
Proof.
  intros HI Hfuel. exists (map t_val l).
  destruct (stored_dec comp l key (inv_sorted _ _ _ _ HI))
    as [(A & t & B & Hl & Heq)|Hne].
  - exists true. split; [by apply (elements_spec comp)|].
    unfold contains, count.
    rewrite (find_found_spec comp fuel m j l A t B key HI Hl Heq Hfuel).
    split; [done|]. split; [done|]. split; [|done]. intros _.
    exists (t_val t). split; [|done]. apply list_elem_of_fmap. exists t.
    split; [done|]. rewrite Hl, elem_of_app, elem_of_cons. auto.
  - exists false. split; [by apply (elements_spec comp)|].
    unfold contains, count.
    rewrite (find_absent_spec comp fuel m j l key HI Hne Hfuel).
    split; [done|]. split; [done|]. split; [done|].
    intros (x & Hx & Heq). apply list_elem_of_fmap in Hx as (t & -> & Hin).
    by destruct (Hne t Hin).
Qed.

Lemma contains_count_semantics_witness :
  ∃ xs b, elements ex_fuel ex_state.1 ex_state.2 = Some xs ∧
    contains Z.ltb ex_fuel ex_state.1 ex_state.2 7%Z = Some b ∧
    count Z.ltb ex_fuel ex_state.1 ex_state.2 7%Z
    = Some (if b then 1%N else 0%N) ∧
    (b = true ↔ ∃ x, x ∈ xs ∧ equiv Z.ltb x 7%Z).
Proof.
  apply (contains_count_semantics Z.ltb ex_fuel _ _ ex_towers 7%Z ex_Inv).
  vm_compute. lia.
Defined.

(** X6 (the bounds bracket the key).  On a container that satisfies the
    invariant, when an element equivalent to [key] is stored,
    [lower_bound(key)] is the iterator [find(key)] returns, which
    references that element, [upper_bound(key)] is its successor, and
    [equal_range(key)] is this pair; when none is stored,
    [lower_bound(key)] and [upper_bound(key)] are the same iterator,
    while [find(key)] is [end()] and [equal_range(key)] is the pair of
    [end()]. *)
Theorem bounds_bracket_key {T} (comp : T → T → bool) `{!StrictWeakOrder comp}
    (fuel : nat) m j l (key : T) :
  Inv comp m j l → length l < fuel →
  ∃ lo hi, lower_bound comp fuel m j key = Some lo ∧
    upper_bound comp fuel m j key = Some hi ∧
    ((∃ t, t ∈ l ∧ equiv comp (t_val t) key) →
     find comp fuel m j key = Some lo ∧ incr m lo = Some hi ∧
     equal_range comp fuel m j key = Some (lo, hi) ∧
     ∃ x, deref m lo = Some x ∧ equiv comp x key) ∧
    ((∀ t, t ∈ l → ¬ equiv comp (t_val t) key) →
     lo = hi ∧ find comp fuel m j key = Some (end_ j) ∧
     equal_range comp fuel m j key = Some (end_ j, end_ j)).
Proof.
  intros HI Hfuel.
  pose proof (inv_sorted _ _ _ _ HI) as Hs.
  destruct (stored_dec comp l key Hs) as [(A & t & B & Hl & Heq)|Hne].
  - destruct (ascending_equiv_split comp l A t B key Hs Hl Heq) as [Hp1 Hs1].
    rewrite Hl in Hs. destruct (upper_split_found comp A t B key Hs Heq) as [Hp2 Hs2].
    exists (Iterator (Some (t_addr t)) (Some (header j))),
           (Iterator (nxt 0 B) (Some (header j))).
    split; [apply (lower_bound_spec comp fuel m j l A (t :: B) key HI Hl Hp1 Hs1 Hfuel)|].
    split.
    { apply (upper_bound_spec comp fuel m j l (A ++ [t]) B key HI); try done.
      by rewrite <- app_assoc. }
    split.
    + intros _.
      split; [by apply (find_found_spec comp fuel m j l A t B)|].
      split; [by apply (incr_spec comp m j l A t B)|].
      split; [by apply (equal_range_found_spec comp fuel m j l A t B)|].
      exists (t_val t). split; [|done]. apply (deref_tower comp m j l t _ HI).
      rewrite Hl, elem_of_app, elem_of_cons. auto.
    + intros Hne. destruct (Hne t); [|done].
      rewrite Hl, elem_of_app, elem_of_cons. auto.
  - destruct (no_equiv_split comp l key Hs Hne)
      as (pre & rest & Hl & Hp1 & Hs1 & Hhead).
    rewrite Hl in Hs.
    destruct (upper_split_absent comp pre rest key Hs Hp1 Hhead) as [Hp2 Hs2].
    exists (Iterator (nxt 0 rest) (Some (header j))),
           (Iterator (nxt 0 rest) (Some (header j))).
    split; [by apply (lower_bound_spec comp fuel m j l pre rest key)|].
    split; [by apply (upper_bound_spec comp fuel m j l pre rest key)|].
    split.
    + intros (t & Hin & Heq). by destruct (Hne t Hin).
    + intros _. split; [done|].
      split; [by apply (find_absent_spec comp fuel m j l key)|].
      by apply (equal_range_absent_spec comp fuel m j l key).
Qed.

Lemma bounds_bracket_key_witness :
  (∃ lo hi, lower_bound Z.ltb ex_fuel ex_state.1 ex_state.2 5%Z = Some lo ∧
     upper_bound Z.ltb ex_fuel ex_state.1 ex_state.2 5%Z = Some hi ∧
     find Z.ltb ex_fuel ex_state.1 ex_state.2 5%Z = Some lo ∧
     incr ex_state.1 lo = Some hi ∧
     equal_range Z.ltb ex_fuel ex_state.1 ex_state.2 5%Z = Some (lo, hi) ∧
     ∃ x, deref ex_state.1 lo = Some x ∧ equiv Z.ltb x 5%Z) ∧
  (∃ lo hi, lower_bound Z.ltb ex_fuel ex_state.1 ex_state.2 4%Z = Some lo ∧
     upper_bound Z.ltb ex_fuel ex_state.1 ex_state.2 4%Z = Some hi ∧
     lo = hi ∧
     find Z.ltb ex_fuel ex_state.1 ex_state.2 4%Z = Some (end_ ex_state.2) ∧
     equal_range Z.ltb ex_fuel ex_state.1 ex_state.2 4%Z
     = Some (end_ ex_state.2, end_ ex_state.2)).
Proof.
  split.
  - destruct (bounds_bracket_key Z.ltb ex_fuel _ _ ex_towers 5%Z ex_Inv
                ltac:(vm_compute; lia)) as (lo & hi & Hlo & Hhi & Hin & _).
    exists lo, hi. split; [exact Hlo|]. split; [exact Hhi|]. apply Hin.
    exists (Tower 4 5%Z 0). split; [|split; reflexivity].
    vm_compute. do 2 right. left.
  - destruct (bounds_bracket_key Z.ltb ex_fuel _ _ ex_towers 4%Z ex_Inv
                ltac:(vm_compute; lia)) as (lo & hi & Hlo & Hhi & _ & Hout).
    exists lo, hi. split; [exact Hlo|]. split; [exact Hhi|]. apply Hout.
    apply ex_towers_elem; intros [H1 H2]; vm_compute in H1, H2; congruence.
Defined.

(** X7 ([size()] and [empty()] count the elements).  After any sequence
    of fewer than [2^64] calls of the modifiers on a freshly constructed
    container, [size()] is the number of elements that the iteration
    visits, [empty()] holds exactly when there is none, and so does
    [begin() == end()]. *)
Theorem size_counts_elements {T} (comp : T → T → bool) (draws : nat → bool)
    `{!StrictWeakOrder comp} (fuel : nat) (ops : list op)
    (m0 : gmap positive (@Node T)) (a : positive) m j :
  run comp draws fuel ops (construct m0 a) = Some (m, j) →
  (N.of_nat (length ops) < SIZE_MOD)%N →
  ∃ xs b,
    (∀ fuel', length xs < fuel' → elements fuel' m j = Some xs) ∧
    size j = N.of_nat (length xs) ∧
    (empty j = true ↔ xs = []) ∧
    begin_ m j = Some b ∧ (iterator_eq b (end_ j) = true ↔ xs = []).
Proof.
  intros Hrun Hlen.
  destruct (run_effect comp draws fuel ops _ _ [] m j (construct_spec comp m0 a) Hrun)
    as (l & HI & _ & _ & Hsz & _).
  destruct Hsz as [Hsz _]; [by split|simpl; lia|].
  exists (map t_val l), (Iterator (nxt 0 l) (Some (header j))).
  split; [|split; [|split; [|split]]].
  - intros fuel' Hf. rewrite length_map in Hf. by apply (elements_spec comp).
  - unfold size. by rewrite length_map.
  - unfold empty. rewrite bool_decide_eq_true, Hsz.
    destruct l; simpl; split; (done || lia).
  - by apply (begin_spec comp).
  - unfold iterator_eq. rewrite bool_decide_eq_true. simpl.
    destruct l; simpl; split; done.
Qed.

Lemma size_counts_elements_witness :
  ∃ xs b,
    (∀ fuel', length xs < fuel' →
       elements fuel' ex_history_state.1 ex_history_state.2 = Some xs) ∧
    size ex_history_state.2 = N.of_nat (length xs) ∧
    (empty ex_history_state.2 = true ↔ xs = []) ∧
    begin_ ex_history_state.1 ex_history_state.2 = Some b ∧
    (iterator_eq b (end_ ex_history_state.2) = true ↔ xs = []).
Proof.
  apply (size_counts_elements Z.ltb ex_draws ex_fuel ex_history ∅ 1).
  - vm_compute. reflexivity.
  - vm_compute. reflexivity.
Defined.

(** X8 ([level] and the header's links).  After any sequence of calls of
    the modifiers on a freshly constructed container, [level] is at most
    [MAX_LEVEL] and the header has no link above [level]; when no node
    creation failed in the sequence, [level] is moreover the smallest
    such value: it is 0 or the header has a link at [level]. *)
Theorem level_bounds_header_links {T} (comp : T → T → bool)
    (draws : nat → bool) `{!StrictWeakOrder comp} (fuel : nat) (ops : list op)
    (m0 : gmap positive (@Node T)) (a : positive) m j :
  run comp draws fuel ops (construct m0 a) = Some (m, j) →
  level j ≤ MAX_LEVEL ∧
  (∀ i, level j < i ≤ MAX_LEVEL → get_forward m (header j) i = Some None) ∧
  (forallb no_failure ops = true →
   level j = 0 ∨ ∃ n, get_forward m (header j) (level j) = Some (Some n)).
Proof.
  intros Hrun.
  destruct (run_effect comp draws fuel ops _ _ [] m j (construct_spec comp m0 a) Hrun)
    as (l & HI & _ & _ & _ & Hlm & _).
  pose proof (inv_level _ _ _ _ HI) as Hlev.
  destruct (inv_header _ _ _ _ HI) as (_ & _ & Hfw & _).
  split; [done|]. split.
  - intros i [Hi1 Hi2]. rewrite Hfw, decide_True by done. f_equal.
    apply nxt_None. eapply Forall_impl; [apply (inv_heights _ _ _ _ HI)|].
    simpl. intros t Ht. lia.
  - intros Hok. destruct Hlm as [H0|Hn]; [by left|done|by left|].
    right. rewrite Hfw, decide_True by done.
    destruct (nxt (level j) l) as [n|]; [by exists n|done].
Qed.

Lemma level_bounds_header_links_witness :
  level ex_state.2 ≤ MAX_LEVEL ∧
  (∀ i, level ex_state.2 < i ≤ MAX_LEVEL →
        get_forward ex_state.1 (header ex_state.2) i = Some None) ∧
  (level ex_state.2 = 0 ∨
   ∃ n, get_forward ex_state.1 (header ex_state.2) (level ex_state.2)
        = Some (Some n)).
Proof.
  destruct (level_bounds_header_links Z.ltb ex_draws ex_fuel ex_ops ∅ 1
              ex_state.1 ex_state.2) as (H1 & H2 & H3);
    [vm_compute; reflexivity|].
  split; [exact H1|]. split; [exact H2|]. apply H3. reflexivity.
Defined.

(** X9 (the calls on one container leave the others alone).  When two
    containers in one memory own disjoint sets of objects, any sequence
    of calls of the modifiers on the first changes no object of the
    second: the second keeps its invariant and its elements, and the
    first still owns none of the second's objects. *)
Theorem calls_leave_other_containers_alone {T} (comp : T → T → bool)
    (draws : nat → bool) `{!StrictWeakOrder comp} (fuel : nat) (ops : list op)
    m j1 (l1 : list (@tower T)) j2 l2 m' j1' :
  Inv comp m j1 l1 → Inv comp m j2 l2 →
  (∀ p, p ∈ footprint j1 l1 → p ∉ footprint j2 l2) →
  run comp draws fuel ops (m, j1) = Some (m', j1') →
  Inv comp m' j2 l2 ∧
  (∀ p, p ∈ footprint j2 l2 → m' !! p = m !! p) ∧
  (∀ fuel', length l2 < fuel' →
     elements fuel' m' j2 = Some (map t_val l2) ∧
     elements fuel' m j2 = Some (map t_val l2)) ∧
  ∃ l1', Inv comp m' j1' l1' ∧ (∀ p, p ∈ footprint j1' l1' → p ∉ footprint j2 l2).
Proof.
  intros HI1 HI2 Hdisj Hrun.
  destruct (run_isolated comp draws fuel ops m j1 l1 m' j1' j2 l2 HI1 HI2 Hdisj Hrun)
    as (Hsame & l1' & HI1' & Hdisj').
  assert (HI2' : Inv comp m' j2 l2) by by eapply Inv_frame.
  split; [done|]. split; [done|]. split; [|by exists l1'].
  intros fuel' Hf. split; by apply (elements_spec comp).
Qed.

Lemma calls_leave_other_containers_alone_witness :
  ∃ m' j1',
    run Z.ltb ex_draws ex_fuel ex_calls (ex_two.1, ex_two.2.1) = Some (m', j1') ∧
    Inv Z.ltb m' ex_two.2.2 ex_two_b ∧
    (∀ p, p ∈ footprint ex_two.2.2 ex_two_b → m' !! p = ex_two.1 !! p) ∧
    (∀ fuel', length ex_two_b < fuel' →
       elements fuel' m' ex_two.2.2 = Some [10; 20]%Z ∧
       elements fuel' ex_two.1 ex_two.2.2 = Some [10; 20]%Z) ∧
    ∃ l1', Inv Z.ltb m' j1' l1' ∧
      (∀ p, p ∈ footprint j1' l1' → p ∉ footprint ex_two.2.2 ex_two_b).
Proof.
  eexists _, _. split; [vm_compute; reflexivity|].
  apply (calls_leave_other_containers_alone Z.ltb ex_draws ex_fuel ex_calls
           ex_two.1 ex_two.2.1 ex_two_a ex_two.2.2 ex_two_b
           _ _ (proj1 ex_two_Inv) (proj2 ex_two_Inv) ex_two_disjoint).
  vm_compute. reflexivity.
Defined.

(** X10 (the container refines a sorted sequence).  For a sequence of
    calls of [insert], [erase(key)] and [clear] on a freshly constructed
    container, the iteration afterwards visits the sequence that the
    reference model computes: an insert puts the value at its place in
    the order unless an equivalent value is there or the node creation
    fails, an erase drops the value equivalent to the key, a clear drops
    all.  The calls return when the allocator hands out addresses that
    are distinct and not in use, and the fuel exceeds [MAX_LEVEL] and the
    number of calls. *)
Theorem calls_refine_sorted_sequence {T} (comp : T → T → bool)
    (draws : nat → bool) `{!StrictWeakOrder comp} (fuel : nat) (ops : list op)
    (m0 : gmap positive (@Node T)) (a : positive) (xs : list T) :
  model_run comp ops [] = Some xs →
  (∀ m j, run comp draws fuel ops (construct m0 a) = Some (m, j) →
     ∀ fuel', length xs < fuel' → elements fuel' m j = Some xs) ∧
  (NoDup (a :: alloc_addrs ops) →
   (∀ p, p ∈ alloc_addrs ops → m0 !! p = None) →
   length ops < fuel → MAX_LEVEL < fuel →
   ∃ m j, run comp draws fuel ops (construct m0 a) = Some (m, j)).
Proof.
  intros Hmod. split.
  - intros m j Hrun fuel' Hf.
    destruct (run_effect comp draws fuel ops _ _ [] m j (construct_spec comp m0 a)
                Hrun) as (l & HI & _ & _ & _ & _ & Hxs).
    rewrite <- (Hxs xs Hmod) in *. rewrite length_map in Hf.
    by apply (elements_spec comp).
  - intros Hnd Hfresh Hfuel Hfuel'. apply NoDup_cons in Hnd as [Ha Hnd].
    destruct (run_total comp draws fuel ops (construct m0 a).1 (construct m0 a).2 []
                (construct_spec comp m0 a)) as [[m j] Hrun]; try done.
    + intros p Hp. simpl. rewrite lookup_insert_ne; [by apply Hfresh|].
      by intros <-.
    + exists m, j. by destruct (construct m0 a).
Qed.

Lemma calls_refine_sorted_sequence_witness :
  ∃ m j, run Z.ltb ex_draws ex_fuel ex_calls (construct ∅ 1) = Some (m, j) ∧
    ∀ fuel', 2 < fuel' → elements fuel' m j = Some [2; 4]%Z.
Proof.
  destruct (calls_refine_sorted_sequence Z.ltb ex_draws ex_fuel ex_calls ∅ 1
              [2; 4]%Z) as [Hpart Htot]; [vm_compute; reflexivity|].
  destruct Htot as (m & j & Hrun).
  - apply (bool_decide_unpack _). vm_compute. exact I.
  - intros p _. apply lookup_empty.
  - vm_compute. lia.
  - vm_compute. lia.
  - exists m, j. split; [exact Hrun|]. exact (Hpart m j Hrun).
Defined.

(** X11 (range insertion).  [insert(first, last)] and
    [insert(initializer_list)] on a container that satisfies the
    invariant, with an allocator that hands out unused addresses: the call
    returns or raises; afterwards the iteration visits the old elements
    together with the values of the range up to a position [n], each put
    at its place unless an equivalent element was there, and [size()]
    counts them.  When the call returns, [n] is the length of the range;
    when it raises, [n] is the position of the first value that has no
    equivalent element and whose node creation fails, and the values
    before it stay inserted. *)
Theorem insert_range_semantics {T} (comp : T → T → bool) (draws : nat → bool)
    `{!StrictWeakOrder comp} (fuel : nat) m j (l : list (@tower T)) xs ocs :
  Inv comp m j l → fresh_oracle m (length xs) ocs →
  length l + length xs < fuel → MAX_LEVEL < fuel →
  ∃ m' j' r n,
    insert_range comp draws fuel m j xs ocs = Some (m', j', r) ∧
    (∃ l', Inv comp m' j' l') ∧
    elements fuel m' j' = Some (insert_all comp (take n xs) (map t_val l)) ∧
    (size_ok j l → (N.of_nat (length l + length xs) < SIZE_MOD)%N →
     size j' = N.of_nat (length (insert_all comp (take n xs) (map t_val l)))) ∧
    match r with
    | Normal _ => n = length xs
    | BadAlloc =>
      ∃ x, xs !! n = Some x ∧ (∀ a, ocs n ≠ AllocOk a) ∧
        ∀ y, y ∈ insert_all comp (take n xs) (map t_val l) → ¬ equiv comp y x
    end.
Proof.
  intros HI Hor Hfuel Hfuel'.
  destruct (insert_range_total comp draws fuel xs m j l ocs HI Hor Hfuel Hfuel')
    as [[[m' j'] r] Hr].
  destruct (insert_range_effect comp draws fuel xs m j l ocs m' j' r HI Hor Hr)
    as (l' & n & HI' & _ & Hmod & _ & Hlen & _ & _ & _ & Hsz & Hres).
  assert (Hn : n ≤ length xs).
  { destruct r as [res|].
    - destruct Hres as [-> _]. lia.
    - destruct Hres as (x & Hx & _). apply lookup_lt_Some in Hx. lia. }
  exists m', j', r, n. split; [done|]. split; [by exists l'|].
  rewrite <- Hmod. split; [apply (elements_spec comp); [done|lia]|]. split.
  - intros Hso Hlt. destruct (Hsz Hso Hlt) as [Hs _]. unfold size.
    by rewrite length_map.
  - destruct r as [res|]; [by destruct Hres|].
    destruct Hres as (x & Hx & Hoc & Hne). exists x. split; [done|].
    split; [done|]. intros y Hy. apply list_elem_of_fmap in Hy as (t & -> & Hin).
    by apply Hne.
Qed.

Lemma insert_range_semantics_witness :
  ∃ m' j',
    insert_range Z.ltb ex_draws ex_fuel ex_state.1 ex_state.2
                 [4; 5; 0; 4; 12]%Z (supply [7; 8]%positive)
    = Some (m', j', BadAlloc) ∧
    elements ex_fuel m' j' = Some [1; 3; 4; 5; 7; 9]%Z ∧
    size j' = 6%N.
Proof.
  destruct (insert_range_semantics Z.ltb ex_draws ex_fuel ex_state.1 ex_state.2
              ex_towers [4; 5; 0; 4; 12]%Z (supply [7; 8]%positive) ex_Inv)
    as (m' & j' & r & n & Heq & _ & Hel & Hsz & Hres).
  - apply supply_fresh.
    + apply (bool_decide_unpack _). vm_compute. exact I.
    + repeat constructor.
  - vm_compute. lia.
  - vm_compute. lia.
  - destruct r as [res|].
    + vm_compute in Heq. discriminate Heq.
    + destruct Hres as (x & Hx & Hoc & _).
      assert (n = 2) as ->.
      { destruct n as [|[|[|n]]]; [| |done|].
        - by destruct (Hoc 7%positive).
        - by destruct (Hoc 8%positive).
        - apply lookup_lt_Some in Hx. simpl in Hx.
          vm_compute in Heq. injection Heq as <- <-.
          destruct n as [|[|n]]; simpl in Hx; [| |lia];
            vm_compute in Hel; discriminate Hel. }
      exists m', j'. split; [exact Heq|]. split; [exact Hel|].
      apply Hsz; [apply ex_WF|vm_compute; reflexivity].
Defined.



(** X13 (the destructor releases everything).  On a container that
    satisfies the invariant, the destructor deallocates the header and the
    node of every element, and nothing else: an address holds an object
    afterwards exactly when it held one before that the container did not
    own, and that object is unchanged. *)
Theorem destroy_releases_owned_objects {T} (comp : T → T → bool)
    `{!StrictWeakOrder comp} (fuel : nat) m j (l : list (@tower T)) :
  Inv comp m j l → length l < fuel →
  ∃ m', destroy fuel m j = Some m' ∧
    (∀ p, p ∈ footprint j l → m' !! p = None) ∧
    (∀ p, p ∉ footprint j l → m' !! p = m !! p).
Proof.
  intros HI Hfuel.
  destruct (destroy_spec comp fuel m j l HI Hfuel) as (m' & Hd & Hm').
  exists m'. split; [done|]. split; intros p Hp; rewrite Hm'.
  - by rewrite decide_True.
  - by rewrite decide_False.
Qed.

Lemma destroy_releases_owned_objects_witness :
  ∃ m', destroy ex_fuel ex_two.1 ex_two.2.2 = Some m' ∧
    (∀ p, p ∈ footprint ex_two.2.2 ex_two_b → m' !! p = None) ∧
    (∀ p, p ∉ footprint ex_two.2.2 ex_two_b → m' !! p = ex_two.1 !! p).
Proof.
  apply (destroy_releases_owned_objects Z.ltb ex_fuel ex_two.1 ex_two.2.2
           ex_two_b (proj2 ex_two_Inv)).
  vm_compute. lia.
Defined.



(** X15 (copy assignment).  [a = b] for two containers that own disjoint
    sets of objects, with an allocator that hands out addresses unused
    after the clearing: the old nodes of [a] are released first, [b] is
    untouched, and afterwards [a] holds the first [n] elements of [b] in
    nodes of its own, with [size()] equal to [n].  When the call returns,
    [n] is the size of [b]; when a node creation fails, the exception
    leaves with [a] holding only the elements copied so far. *)
Theorem assign_copy_semantics {T} (comp : T → T → bool) (draws : nat → bool)
    `{!StrictWeakOrder comp} (fuel : nat) m this (l : list (@tower T))
    other lo ocs m1 this1 :
  Inv comp m this l → Inv comp m other lo →
  (∀ p, p ∈ footprint this l → p ∉ footprint other lo) →
  clear fuel m this = Some (m1, this1) →
  fresh_oracle m1 (length lo) ocs →
  length lo < fuel → MAX_LEVEL < fuel → (N.of_nat (length lo) < SIZE_MOD)%N →
  ∃ m' this' r l' n,
    assign_copy comp draws fuel m this other ocs = Some (m', this', r) ∧
    Inv comp m' this' l' ∧ Inv comp m' other lo ∧
    header this' = header this ∧
    elements fuel m' this' = Some (take n (map t_val lo)) ∧
    elements fuel m' other = Some (map t_val lo) ∧
    size this' = N.of_nat (length (take n (map t_val lo))) ∧
    (∀ t, t ∈ l → m1 !! t_addr t = None) ∧
    (∀ p, p ∈ footprint this' l' → p ∉ footprint other lo) ∧
    match r with
    | Normal _ => n = length lo ∧ level_minimal this' l'
    | BadAlloc => n < length lo ∧ ∀ a, ocs n ≠ AllocOk a
    end.
Proof.
  intros HI HIo Hdisj Hc Hor Hfuel Hfuel' Hsize.
  destruct (clear_cases comp fuel m this l m1 this1 HI Hc) as (-> & HI1 & Hm1).
  destruct (clear_effect comp fuel m this l m1 _ HI Hc)
    as (_ & _ & _ & _ & Hfr1 & _).
  assert (HIo1 : Inv comp m1 other lo).
  { apply (Inv_frame comp m); [done|]. intros p Hp. apply Hfr1.
    intros Hin. by apply (Hdisj p). }
  assert (Hhd : header this ∉ footprint other lo).
  { apply Hdisj. left. }
  unfold footprint in Hhd. rewrite not_elem_of_cons in Hhd.
  destruct Hhd as [Hhd1 Hhd2].
  destruct (copy_loop_spec comp draws fuel m1 _ other lo ocs HI1 HIo1)
    as (m' & j' & r & l' & n & Hb & Hr & HI' & Hh & Hmod & HIo' & _ & Hdisj' & _
        & _ & Hsz & Hres); try done.
  unfold assign_copy. rewrite Hc. simpl. rewrite Hb. simpl. rewrite Hr.
  exists m', j', r, l', n. split; [done|]. split; [done|]. split; [done|].
  split; [done|].
  assert (Hn : n ≤ length lo).
  { destruct r; [destruct Hres as [-> _]|destruct Hres as [? _]]; lia. }
  assert (Hlen : length l' = n).
  { apply (f_equal length) in Hmod.
    rewrite length_map, length_take, length_map in Hmod. lia. }
  split; [rewrite <- Hmod; apply (elements_spec comp); [done|lia]|].
  split; [by apply (elements_spec comp)|].
  destruct Hsz as [Hs _]; [done|done|].
  split; [unfold size; by rewrite Hs, <- Hmod, length_map|].
  split.
  { intros t Ht.
    pose proof (inv_nodup _ _ _ _ HI) as Hnd. apply NoDup_cons in Hnd as [Hnh _].
    assert (Hin : t_addr t ∈ map t_addr l) by (apply list_elem_of_fmap; eauto).
    rewrite Hm1; [by rewrite decide_True|]. by intros Heq; rewrite Heq in Hin. }
  split; [done|].
  destruct r as [res|]; [|done]. destruct Hres as [-> Hlm]. split; [done|].
  by apply Hlm.
Qed.

Lemma assign_copy_semantics_witness :
  ∃ m' this' l',
    assign_copy Z.ltb ex_draws ex_fuel ex_two.1 ex_two.2.1 ex_two.2.2
                (supply [4; 7]%positive) = Some (m', this', Normal tt) ∧
    Inv Z.ltb m' this' l' ∧ Inv Z.ltb m' ex_two.2.2 ex_two_b ∧
    elements ex_fuel m' this' = Some [10; 20]%Z ∧
    elements ex_fuel m' ex_two.2.2 = Some [10; 20]%Z ∧
    size this' = 2%N ∧
    (∀ p, p ∈ footprint this' l' → p ∉ footprint ex_two.2.2 ex_two_b).
Proof.
  destruct (clear_spec Z.ltb ex_fuel ex_two.1 ex_two.2.1 _ (proj1 ex_two_Inv))
    as (m1 & Hc & _); [vm_compute; lia|].
  destruct (assign_copy_semantics Z.ltb ex_draws ex_fuel ex_two.1 ex_two.2.1
              ex_two_a ex_two.2.2 ex_two_b (supply [4; 7]%positive) m1
              (JumpList (header ex_two.2.1) 0 0 (rng ex_two.2.1))
              (proj1 ex_two_Inv) (proj2 ex_two_Inv) ex_two_disjoint Hc)
    as (m' & this' & r & l' & n & Heq & HI & HIo & _ & Hel & Helo & Hsz & _
        & Hdisj & Hres).
  - apply supply_fresh.
    + apply (bool_decide_unpack _). vm_compute. exact I.
    + vm_compute in Hc. injection Hc as <-. repeat constructor.
  - vm_compute. lia.
  - vm_compute. lia.
  - vm_compute. reflexivity.
  - destruct r as [[]|]; [|vm_compute in Heq; discriminate Heq].
    destruct Hres as [-> _].
    exists m', this', l'. split; [exact Heq|]. split; [exact HI|].
    split; [exact HIo|]. split; [exact Hel|]. split; [exact Helo|].
    split; [exact Hsz|exact Hdisj].
Defined.

(** X16 (move construction).  The move constructor copies no element:
    the new container takes over the header and the nodes of [other] with
    its size and level, so it has the elements [other] had, at the same
    addresses; [other] gets a new header and is an empty container that
    satisfies the invariant; no existing object changes. *)
Theorem construct_move_semantics {T} (comp : T → T → bool)
    `{!StrictWeakOrder comp} (fuel : nat) m other (lo : list (@tower T))
    (a : positive) :
  Inv comp m other lo → m !! a = None → length lo < fuel →
  ∃ m' this other',
    construct_move m other a = (m', this, other') ∧
    Inv comp m' this lo ∧ Inv comp m' other' [] ∧
    header this = header other ∧ size this = size other ∧
    elements fuel m' this = elements fuel m other ∧
    elements fuel m' other' = Some [] ∧
    size other' = 0%N ∧ empty other' = true ∧
    (level_minimal other lo → level_minimal this lo) ∧
    (∀ p, p ≠ a → m' !! p = m !! p).
Proof.
  intros HIo Hfresh Hfuel. unfold construct_move. eexists _, _, _.
  split; [done|].
  assert (HI : Inv comp (<[a := Node_header MAX_LEVEL]> m)
                 (JumpList (header other) (level other) (size_ other) (rng other))
                 lo).
  { apply Inv_fresh_header; [|done]. by apply (Inv_same_header comp m other). }
  assert (HI' : Inv comp (<[a := Node_header MAX_LEVEL]> m)
                  (JumpList a 0 0 (rng other)) (@nil (@tower T)))
    by by apply Inv_new_header.
  split; [done|]. split; [done|]. split; [done|]. split; [done|].
  split.
  { rewrite (elements_spec comp fuel _ _ lo HI Hfuel).
    by rewrite (elements_spec comp fuel m other lo HIo Hfuel). }
  split; [apply (elements_spec comp fuel _ _ [] HI'); simpl; lia|].
  split; [done|]. split; [done|]. split; [done|].
  intros p Hp. by rewrite lookup_insert_ne.
Qed.

Lemma construct_move_semantics_witness :
  ∃ m' this other',
    construct_move ex_state.1 ex_state.2 7 = (m', this, other') ∧
    Inv Z.ltb m' this ex_towers ∧ Inv Z.ltb m' other' [] ∧
    header this = header ex_state.2 ∧ size this = size ex_state.2 ∧
    elements ex_fuel m' this = elements ex_fuel ex_state.1 ex_state.2 ∧
    elements ex_fuel m' other' = Some [] ∧
    size other' = 0%N ∧ empty other' = true ∧
    (level_minimal ex_state.2 ex_towers → level_minimal this ex_towers) ∧
    (∀ p, p ≠ 7%positive → m' !! p = ex_state.1 !! p).
Proof.
  apply (construct_move_semantics Z.ltb ex_fuel ex_state.1 ex_state.2 ex_towers
           7 ex_Inv).
  - reflexivity.
  - vm_compute. lia.
Defined.

(** X17 (move assignment).  [a = std::move(b)] for two containers that
    own disjoint sets of objects: every node of [a] and its header are
    released, [a] takes over the header and the nodes of [b] and so has
    the elements and the size [b] had, [b] gets a new header and is an
    empty container that satisfies the invariant, and no other object
    changes. *)
Theorem assign_move_semantics {T} (comp : T → T → bool)
    `{!StrictWeakOrder comp} (fuel : nat) m this (l : list (@tower T))
    other lo (a : positive) :
  Inv comp m this l → Inv comp m other lo →
  (∀ p, p ∈ footprint this l → p ∉ footprint other lo) →
  m !! a = None ∨ a ∈ footprint this l →
  length l < fuel → length lo < fuel →
  ∃ m' this' other',
    assign_move fuel m this other a = Some (m', this', other') ∧
    Inv comp m' this' lo ∧ Inv comp m' other' [] ∧
    elements fuel m' this' = Some (map t_val lo) ∧ size this' = size other ∧
    elements fuel m' other' = Some [] ∧ size other' = 0%N ∧
    (∀ p, p ∈ footprint this l → p ≠ a → m' !! p = None) ∧
    (∀ p, p ∉ footprint this l → p ≠ a → m' !! p = m !! p).
Proof.
  intros HI HIo Hdisj Ha Hfuel Hfuelo.
  destruct (destroy_spec comp fuel m this l HI Hfuel) as (m2 & Hd & Hm2).
  unfold destroy in Hd. unfold assign_move.
  destruct (clear fuel m this) as [[m1 this1]|] eqn:Hc; [|done].
  destruct (clear_cases comp fuel m this l m1 this1 HI Hc) as (-> & _ & _).
  simpl in *. injection Hd as Hd. rewrite Hd.
  eexists _, _, _. split; [done|].
  assert (Hao : a ∉ footprint other lo).
  { destruct Ha as [Ha|Ha]; [|by apply Hdisj].
    intros Hin. destruct (footprint_live comp m other lo a HIo Hin) as [x Hx].
    congruence. }
  assert (HI' : Inv comp (<[a := Node_header MAX_LEVEL]> m2)
                  (JumpList (header other) (level other) (size_ other) (rng other))
                  lo).
  { apply (Inv_frame comp m).
    - by apply (Inv_same_header comp m other).
    - intros p Hp. simpl in Hp.
      rewrite lookup_insert_ne by (intros <-; by apply Hao).
      rewrite Hm2, decide_False; [done|]. intros Hin. by apply (Hdisj p). }
  assert (HIe : Inv comp (<[a := Node_header MAX_LEVEL]> m2)
                  (JumpList a 0 0 (rng other)) (@nil (@tower T)))
    by by apply Inv_new_header.
  split; [done|]. split; [done|].
  split; [by apply (elements_spec comp)|]. split; [done|].
  split; [apply (elements_spec comp fuel _ _ [] HIe); simpl; lia|].
  split; [done|]. split.
  - intros p Hp Hpa. rewrite lookup_insert_ne by done.
    by rewrite Hm2, decide_True.
  - intros p Hp Hpa. rewrite lookup_insert_ne by done.
    by rewrite Hm2, decide_False.
Qed.

Lemma assign_move_semantics_witness :
  ∃ m' this' other',
    assign_move ex_fuel ex_two.1 ex_two.2.1 ex_two.2.2 3 = Some (m', this', other') ∧
    Inv Z.ltb m' this' ex_two_b ∧ Inv Z.ltb m' other' [] ∧
    elements ex_fuel m' this' = Some [10; 20]%Z ∧ size this' = size ex_two.2.2 ∧
    elements ex_fuel m' other' = Some [] ∧ size other' = 0%N ∧
    (∀ p, p ∈ footprint ex_two.2.1 ex_two_a → p ≠ 3%positive → m' !! p = None) ∧
    (∀ p, p ∉ footprint ex_two.2.1 ex_two_a → p ≠ 3%positive →
          m' !! p = ex_two.1 !! p).
Proof.
  apply (assign_move_semantics Z.ltb ex_fuel ex_two.1 ex_two.2.1 ex_two_a
           ex_two.2.2 ex_two_b 3 (proj1 ex_two_Inv) (proj2 ex_two_Inv)
           ex_two_disjoint).
  - right. right. left.
  - vm_compute. lia.
  - vm_compute. lia.
Defined.

(** X18 (erasing a range).  On a container that satisfies the invariant,
    [erase(first, last)] for iterators at stored elements (or [last] at
    [end()]) that delimit a non-empty range removes exactly the elements
    from [first] up to, not including, [last]: their nodes are released,
    the other elements stay in order, the invariants on [size_] and
    [level] are (re-)established, and the iterator returned is [last]. *)
Theorem erase_range_semantics {T} (comp : T → T → bool)
    `{!StrictWeakOrder comp} (fuel : nat) m j (A M B : list (@tower T)) :
  Inv comp m j (A ++ M ++ B) → M ≠ [] → length (A ++ M ++ B) < fuel →
  let first := Iterator (nxt 0 (M ++ B)) (Some (header j)) in
  let last := Iterator (nxt 0 B) (Some (header j)) in
  ∃ m' j',
    erase_range comp fuel m j first last = Some (m', j', last) ∧
    Inv comp m' j' (A ++ B) ∧
    elements fuel m' j' = Some (map t_val A ++ map t_val B) ∧
    level_minimal j' (A ++ B) ∧
    (size_ok j (A ++ M ++ B) →
     size j' = (size j - N.of_nat (length M))%N ∧ size_ok j' (A ++ B)) ∧
    (∀ t, t ∈ M → m' !! t_addr t = None) ∧
    (∀ p, p ∉ footprint j (A ++ M ++ B) → m' !! p = m !! p).
Proof.
  intros HI HM Hfuel first last. unfold erase_range.
  destruct (erase_range_loop_spec comp fuel B (Some (header j)) (Some (header j))
              M A fuel m j (end_ j) HI)
    as (m' & j' & He & HI' & Hs & Hmin & Hgone); [|done|].
  { rewrite !length_app in Hfuel. lia. }
  exists m', j'. split; [destruct M; [done|exact He]|]. split; [done|].
  split.
  { rewrite (elements_spec comp fuel m' j' _ HI'); [by rewrite map_app|].
    rewrite !length_app in *. lia. }
  split; [by apply Hmin|].
  destruct Hs as (_ & _ & _ & Hfr & _ & Hsz & _).
  split; [|split; [done|done]].
  intros Hso. destruct (Hsz Hso) as [Hs' Hlt]. split; [|by split].
  unfold size. destruct Hso as [-> _]. rewrite Hs'. rewrite !length_app. lia.
Qed.

Lemma erase_range_semantics_witness :
  ∃ m' j',
    erase_range Z.ltb ex_fuel ex_state.1 ex_state.2 (ex_it 3) (ex_it 6)
    = Some (m', j', ex_it 6) ∧
    Inv Z.ltb m' j' [Tower 2 1%Z 2; Tower 6 9%Z 2] ∧
    elements ex_fuel m' j' = Some [1; 9]%Z ∧
    level_minimal j' [Tower 2 1%Z 2; Tower 6 9%Z 2] ∧
    (size j' = (size ex_state.2 - 3)%N ∧
     size_ok j' [Tower 2 1%Z 2; Tower 6 9%Z 2]) ∧
    (∀ t, t ∈ [Tower 3 3%Z 1; Tower 4 5%Z 0; Tower 5 7%Z 1] →
          m' !! t_addr t = None) ∧
    (∀ p, p ∉ footprint ex_state.2 ex_towers → m' !! p = ex_state.1 !! p).
Proof.
  destruct (erase_range_semantics Z.ltb ex_fuel ex_state.1 ex_state.2
              [Tower 2 1%Z 2] [Tower 3 3%Z 1; Tower 4 5%Z 0; Tower 5 7%Z 1]
              [Tower 6 9%Z 2] ex_Inv)
    as (m' & j' & H1 & H2 & H3 & H4 & H5 & H6 & H7).
  - done.
  - vm_compute. lia.
  - exists m', j'. split; [exact H1|]. split; [exact H2|]. split; [exact H3|].
    split; [exact H4|]. split; [|split; [exact H6|exact H7]].
    apply H5. apply ex_WF.
Defined.

(** X19 (the derived comparison operators).  For two containers whose
    [size()] counts their elements, over an element type whose
    [operator<] is asymmetric and whose [operator==] holds exactly when
    neither element is less than the other (as for the integers):
    exactly one of [a < b], [a == b] and [a > b] holds, [a != b] is the
    negation of [a == b], [a <= b] holds exactly when [a < b] or
    [a == b], and [a >= b] exactly when [a > b] or [a == b]. *)
Theorem comparison_operators_trichotomy {T} (eqT ltT : T → T → bool)
    (fuel : nat) (m : gmap positive (@Node T)) (a b : jump_list)
    (xs ys : list T) :
  elements fuel m a = Some xs → elements fuel m b = Some ys →
  size a = N.of_nat (length xs) → size b = N.of_nat (length ys) →
  (∀ x y, ltT x y = true → ltT y x = false) →
  (∀ x y, eqT x y = true ↔ ltT x y = false ∧ ltT y x = false) →
  ∃ lt eq gt : bool,
    operator_lt ltT fuel m a b = Some lt ∧
    operator_eq eqT fuel m a b = Some eq ∧
    operator_gt ltT fuel m a b = Some gt ∧
    operator_ne eqT fuel m a b = Some (negb eq) ∧
    operator_le ltT fuel m a b = Some (lt || eq) ∧
    operator_ge ltT fuel m a b = Some (gt || eq) ∧
    (lt && negb eq && negb gt) || (negb lt && eq && negb gt)
    || (negb lt && negb eq && gt) = true.
Proof.
  intros Ha Hb Hsa Hsb Has Hc.
  pose proof (operator_lt_spec ltT fuel m a b xs ys Ha Hb) as Hlt.
  pose proof (operator_lt_spec ltT fuel m b a ys xs Hb Ha) as Hgt.
  pose proof (operator_eq_spec eqT fuel m a b xs ys Ha Hb Hsa Hsb) as Heq.
  rewrite (equal_lists_lex eqT ltT xs ys Hc) in Heq.
  pose proof (lex_less_asym ltT xs ys Has) as H1.
  pose proof (lex_less_asym ltT ys xs Has) as H2.
  exists (lex_less ltT xs ys), (negb (lex_less ltT xs ys) && negb (lex_less ltT ys xs)),
         (lex_less ltT ys xs).
  unfold operator_ne, operator_le, operator_gt, operator_ge.
  rewrite Hlt, Hgt, Heq. simpl.
  destruct (lex_less ltT xs ys), (lex_less ltT ys xs); simpl; try done.
  by specialize (H1 eq_refl).
Qed.

Lemma comparison_operators_trichotomy_witness :
  ∃ lt eq gt : bool,
    operator_lt Z.ltb ex_fuel ex_three.1 ex_three.2.1.1 ex_three.2.1.2 = Some lt ∧
    operator_eq Z.eqb ex_fuel ex_three.1 ex_three.2.1.1 ex_three.2.1.2 = Some eq ∧
    operator_gt Z.ltb ex_fuel ex_three.1 ex_three.2.1.1 ex_three.2.1.2 = Some gt ∧
    operator_ne Z.eqb ex_fuel ex_three.1 ex_three.2.1.1 ex_three.2.1.2
    = Some (negb eq) ∧
    operator_le Z.ltb ex_fuel ex_three.1 ex_three.2.1.1 ex_three.2.1.2
    = Some (lt || eq) ∧
    operator_ge Z.ltb ex_fuel ex_three.1 ex_three.2.1.1 ex_three.2.1.2
    = Some (gt || eq) ∧
    (lt && negb eq && negb gt) || (negb lt && eq && negb gt)
    || (negb lt && negb eq && gt) = true.
Proof.
  apply (comparison_operators_trichotomy Z.eqb Z.ltb ex_fuel ex_three.1
           ex_three.2.1.1 ex_three.2.1.2 [1; 2; 3]%Z [1; 2; 4]%Z).
  - vm_compute. reflexivity.
  - vm_compute. reflexivity.
  - vm_compute. reflexivity.
  - vm_compute. reflexivity.
  - intros x y. rewrite Z.ltb_lt, Z.ltb_ge. lia.
  - intros x y. rewrite Z.eqb_eq, !Z.ltb_ge. lia.
Defined.

(** X20 (insert, then erase).  On a container that satisfies the
    invariants, inserting a value that has no equivalent element and then
    erasing at the iterator that [insert] returned, or by the value,
    brings back the container's elements, every node at its address with
    its height, and its size; the new node is released. *)
Theorem insert_then_erase {T} (comp : T → T → bool) (draws : nat → bool)
    `{!StrictWeakOrder comp} (fuel : nat) m j (l : list (@tower T))
    (v : T) (a : positive) :
  Inv comp m j l → size_ok j l → (N.of_nat (S (length l)) < SIZE_MOD)%N →
  (∀ t, t ∈ l → ¬ equiv comp (t_val t) v) → m !! a = None →
  S (length l) < fuel → MAX_LEVEL < fuel →
  ∃ m1 j1 it,
    insert comp draws fuel m j v (AllocOk a) = Some (m1, j1, Normal (it, true)) ∧
    (∃ m2 j2 next,
       erase comp fuel m1 j1 it = Some (m2, j2, next) ∧
       Inv comp m2 j2 l ∧ size j2 = size j ∧ level_minimal j2 l ∧
       elements fuel m2 j2 = elements fuel m j ∧ m2 !! a = None) ∧
    (∃ m2 j2,
       erase_key comp fuel m1 j1 v = Some (m2, j2, 1%N) ∧
       Inv comp m2 j2 l ∧ size j2 = size j ∧ level_minimal j2 l ∧
       elements fuel m2 j2 = elements fuel m j ∧ m2 !! a = None).
Proof.
  intros HI Hso Hlt Hne Hfresh Hfuel Hfuel'.
  destruct (no_equiv_split comp l v (inv_sorted _ _ _ _ HI) Hne)
    as (pre & rest & Hl & Hpass & Hstop & Hhead).
  destruct (insert_new_spec comp draws fuel m j l pre rest v a HI Hl Hfresh Hpass
              Hstop Hhead) as (m1 & Hins & HI1); [lia|done|].
  cbv zeta in Hins, HI1.
  set (h := successes draws MAX_LEVEL (rng j)) in *.
  set (j1 := JumpList (header j) (if decide (level j < h) then h else level j)
                      (size_incr (size_ j)) (S (rng j + h))) in *.
  assert (Hlen1 : length (pre ++ Tower a v h :: rest) < fuel).
  { rewrite Hl in Hfuel. rewrite !length_app in *. simpl. lia. }
  assert (Hsize : size_decr (size_ j1) = size_ j).
  { simpl. destruct Hso as [Hs _]. rewrite Hs.
    rewrite size_incr_small by lia. rewrite size_decr_pos by lia. lia. }
  assert (Hel : ∀ m2 j2, Inv comp m2 j2 l →
                  elements fuel m2 j2 = elements fuel m j).
  { intros m2 j2 HI2. rewrite (elements_spec comp fuel m2 j2 l HI2) by lia.
    by rewrite (elements_spec comp fuel m j l HI) by lia. }
  exists m1, j1, (Iterator (Some a) (Some (header j))).
  split; [done|]. split.
  - destruct (erase_at_spec comp fuel m1 j1 _ pre (Tower a v h) rest
                (Some (header j)) HI1 eq_refl Hlen1)
      as (m2 & j2 & He & HI2 & _ & Hmin & Hsz & Hgone).
    rewrite <- Hl in HI2, Hmin.
    exists m2, j2, (Iterator (nxt 0 rest) (Some (header j1))).
    split; [exact He|]. split; [done|].
    split; [unfold size; by rewrite Hsz, Hsize|].
    split; [done|]. split; [by apply Hel|done].
  - destruct (erase_key_found_spec comp fuel m1 j1 _ pre (Tower a v h) rest v HI1
                eq_refl (equiv_refl comp _) Hlen1)
      as (m2 & lvl2 & He & HI2 & Hmin & _ & Hgone & _).
    cbv zeta in He, HI2, Hmin. rewrite <- Hl in HI2, Hmin.
    eexists _, _. split; [exact He|]. split; [done|].
    split; [unfold size; simpl; exact Hsize|].
    split; [done|]. split; [by apply Hel|done].
Qed.

Lemma insert_then_erase_witness :
  ∃ m1 j1 it,
    insert Z.ltb ex_draws ex_fuel ex_state.1 ex_state.2 4%Z (AllocOk 7)
    = Some (m1, j1, Normal (it, true)) ∧
    (∃ m2 j2 next,
       erase Z.ltb ex_fuel m1 j1 it = Some (m2, j2, next) ∧
       Inv Z.ltb m2 j2 ex_towers ∧ size j2 = size ex_state.2 ∧
       level_minimal j2 ex_towers ∧
       elements ex_fuel m2 j2 = elements ex_fuel ex_state.1 ex_state.2 ∧
       m2 !! 7%positive = None) ∧
    (∃ m2 j2,
       erase_key Z.ltb ex_fuel m1 j1 4%Z = Some (m2, j2, 1%N) ∧
       Inv Z.ltb m2 j2 ex_towers ∧ size j2 = size ex_state.2 ∧
       level_minimal j2 ex_towers ∧
       elements ex_fuel m2 j2 = elements ex_fuel ex_state.1 ex_state.2 ∧
       m2 !! 7%positive = None).
Proof.
  apply (insert_then_erase Z.ltb ex_draws ex_fuel ex_state.1 ex_state.2
           ex_towers 4%Z 7 ex_Inv).
  - apply ex_WF.
  - vm_compute. reflexivity.
  - apply ex_towers_elem; intros [H1 H2]; vm_compute in H1, H2; congruence.
  - reflexivity.
  - vm_compute. lia.
  - vm_compute. lia.
Defined.

(** X21 ([clear]).  On a container that satisfies the invariant, [clear]
    releases the node of every element and nothing else, keeps the
    header, and leaves an empty container that satisfies all invariants:
    size 0, level 0, [begin() == end()], and [find] of every key is
    [end()]. *)
Theorem clear_semantics {T} (comp : T → T → bool) `{!StrictWeakOrder comp}
    (fuel : nat) m j (l : list (@tower T)) :
  Inv comp m j l → length l < fuel →
  ∃ m' j',
    clear fuel m j = Some (m', j') ∧
    WF comp m' j' [] ∧ header j' = header j ∧
    size j' = 0%N ∧ empty j' = true ∧ level j' = 0 ∧
    begin_ m' j' = Some (end_ j') ∧ elements fuel m' j' = Some [] ∧
    (∀ key, find comp fuel m' j' key = Some (end_ j') ∧
            contains comp fuel m' j' key = Some false) ∧
    (∀ t, t ∈ l → m' !! t_addr t = None) ∧
    (∀ p, p ∉ footprint j l → m' !! p = m !! p).
Proof.
  intros HI Hfuel.
  destruct (clear_mem comp fuel m j l HI Hfuel) as (m' & Hc & HI' & Hm').
  destruct (clear_effect comp fuel m j l m' _ HI Hc)
    as (_ & _ & _ & _ & Hfr & _).
  exists m', (JumpList (header j) 0 0 (rng j)).
  assert (Hfind : ∀ key, find comp fuel m' (JumpList (header j) 0 0 (rng j)) key
                        = Some (end_ (JumpList (header j) 0 0 (rng j)))).
  { intros key. apply (find_absent_spec comp fuel m' _ [] key HI'); [|simpl; lia].
    by intros t ?%elem_of_nil. }
  split; [done|]. split; [split; [done|split; [by left|by split]]|].
  split; [done|]. split; [done|]. split; [done|]. split; [done|].
  split; [by rewrite (begin_spec comp m' _ [] HI')|].
  split; [apply (elements_spec comp fuel m' _ [] HI'); simpl; lia|].
  split.
  { intros key. split; [done|]. unfold contains. by rewrite Hfind. }
  split; [|done].
  intros t Ht.
  pose proof (inv_nodup _ _ _ _ HI) as Hnd. apply NoDup_cons in Hnd as [Hnh _].
  assert (Hin : t_addr t ∈ map t_addr l) by (apply list_elem_of_fmap; eauto).
  rewrite Hm'; [by rewrite decide_True|]. by intros Heq; rewrite Heq in Hin.
Qed.

Lemma clear_semantics_witness :
  ∃ m' j',
    clear ex_fuel ex_state.1 ex_state.2 = Some (m', j') ∧
    WF Z.ltb m' j' [] ∧ header j' = header ex_state.2 ∧
    size j' = 0%N ∧ empty j' = true ∧ level j' = 0 ∧
    begin_ m' j' = Some (end_ j') ∧ elements ex_fuel m' j' = Some [] ∧
    (∀ key, find Z.ltb ex_fuel m' j' key = Some (end_ j') ∧
            contains Z.ltb ex_fuel m' j' key = Some false) ∧
    (∀ t, t ∈ ex_towers → m' !! t_addr t = None) ∧
    (∀ p, p ∉ footprint ex_state.2 ex_towers → m' !! p = ex_state.1 !! p).
Proof.
  apply (clear_semantics Z.ltb ex_fuel ex_state.1 ex_state.2 ex_towers ex_Inv).
  vm_compute. lia.
Defined.

(** X22 (inserting a container's own range).  On a container that
    satisfies the invariant, [jl.insert(jl.begin(), jl.end())] returns
    and changes neither the container nor the memory, whatever the
    allocator would do: every value is found stored. *)
Theorem insert_own_range_is_noop {T} (comp : T → T → bool)
    (draws : nat → bool) `{!StrictWeakOrder comp} (fuel : nat) m j
    (l : list (@tower T)) ocs :
  Inv comp m j l → length l < fuel →
  ∃ b, begin_ m j = Some b ∧
    insert_range_from comp draws fuel fuel m j b (end_ j) ocs
    = Some (m, j, Normal tt).
Proof.
  intros HI Hfuel. exists (Iterator (nxt 0 l) (Some (header j))).
  split; [by apply (begin_spec comp)|].
  by apply (insert_own_range comp draws fuel m j l _ HI Hfuel l []).
Qed.

Lemma insert_own_range_is_noop_witness :
  ∃ b, begin_ ex_state.1 ex_state.2 = Some b ∧
    insert_range_from Z.ltb ex_draws ex_fuel ex_fuel ex_state.1 ex_state.2 b
                      (end_ ex_state.2) (λ _, AllocFails)
    = Some (ex_state.1, ex_state.2, Normal tt).
Proof.
  apply (insert_own_range_is_noop Z.ltb ex_draws ex_fuel ex_state.1 ex_state.2
           ex_towers (λ _, AllocFails) ex_Inv).
  vm_compute. lia.
Defined.

(** X23 (no node is leaked).  After any sequence of calls of the
    modifiers on a container constructed at an unused address, also with
    failed node creations, the objects allocated since then are exactly
    the header and the nodes of the stored elements: every other address
    holds what it held before the construction, and the destructor
    brings the memory back to what it was. *)
Theorem no_node_is_leaked {T} (comp : T → T → bool) (draws : nat → bool)
    `{!StrictWeakOrder comp} (fuel : nat) (ops : list op)
    (m0 : gmap positive (@Node T)) (a : positive) m j :
  m0 !! a = None →
  run comp draws fuel ops (construct m0 a) = Some (m, j) →
  ∃ l, Inv comp m j l ∧
    (∀ p, p ∉ footprint j l → m !! p = m0 !! p) ∧
    (∀ p, p ∈ footprint j l → m0 !! p = None ∧ is_Some (m !! p)) ∧
    (∀ fuel', length l < fuel' → destroy fuel' m j = Some m0).
Proof.
  intros Hfresh Hrun.
  destruct (run_footprint comp draws fuel ops _ _ [] m j (construct_spec comp m0 a)
              Hrun) as (l & HI & Hfp & Hout).
  simpl in Hfp, Hout.
  assert (Hout' : ∀ p, p ∉ footprint j l → m !! p = m0 !! p).
  { intros p Hp. rewrite (Hout p Hp). unfold footprint. simpl.
    destruct (decide (p ∈ [a])) as [->%list_elem_of_singleton|Hne]; [done|].
    rewrite lookup_insert_ne; [done|]. intros <-. apply Hne. left. }
  assert (Hin' : ∀ p, p ∈ footprint j l → m0 !! p = None).
  { intros p Hp. destruct (Hfp p Hp) as [->%list_elem_of_singleton|Hnone];
      [done|].
    destruct (decide (p = a)) as [->|Hne]; [done|].
    by rewrite lookup_insert_ne in Hnone. }
  exists l. split; [done|]. split; [done|]. split.
  - intros p Hp. split; [by apply Hin'|]. by apply (footprint_live comp m j l).
  - intros fuel' Hf.
    destruct (destroy_spec comp fuel' m j l HI Hf) as (m' & -> & Hm').
    f_equal. apply map_eq. intros p. rewrite Hm'.
    destruct (decide (p ∈ footprint j l)); [by rewrite Hin'|by apply Hout'].
Qed.

Lemma no_node_is_leaked_witness :
  ∃ l, Inv Z.ltb ex_history_state.1 ex_history_state.2 l ∧
    (∀ p, p ∉ footprint ex_history_state.2 l →
          ex_history_state.1 !! p = (∅ : gmap positive (@Node Z)) !! p) ∧
    (∀ p, p ∈ footprint ex_history_state.2 l →
          (∅ : gmap positive (@Node Z)) !! p = None ∧
          is_Some (ex_history_state.1 !! p)) ∧
    (∀ fuel', length l < fuel' →
       destroy fuel' ex_history_state.1 ex_history_state.2 = Some ∅).
Proof.
  apply (no_node_is_leaked Z.ltb ex_draws ex_fuel ex_history ∅ 1).
  - reflexivity.
  - vm_compute. reflexivity.
Defined.

(** X24 (iterators to other elements stay valid).  On a container that
    satisfies the invariant, an [insert], whatever its outcome, keeps the
    node of every stored element at its address with its value, and so
    does an [erase] for every element that is not equivalent to the value
    at the erased position: iterators and references to them stay
    valid. *)
Theorem other_iterators_stay_valid {T} (comp : T → T → bool)
    (draws : nat → bool) `{!StrictWeakOrder comp} (fuel : nat) m j
    (l : list (@tower T)) :
  Inv comp m j l →
  (∀ v oc m' j' r, alloc_fresh m oc = true →
     insert comp draws fuel m j v oc = Some (m', j', r) →
     ∀ t h, t ∈ l →
       deref m' (Iterator (Some (t_addr t)) h) = Some (t_val t)) ∧
  (∀ pos m' j' it, erase comp fuel m j pos = Some (m', j', it) →
     ∀ t h, t ∈ l →
       (∀ v, deref m pos = Some v → ¬ equiv comp (t_val t) v) →
       deref m' (Iterator (Some (t_addr t)) h) = Some (t_val t)).
Proof.
  intros HI. split.
  - intros v oc m' j' r Hf Hi t h Ht.
    destruct (insert_effect comp draws fuel m j l v oc m' j' r HI Hf Hi)
      as (l1 & HI1 & _ & Hsub & _).
    apply (deref_tower comp m' j' l1 t h HI1). by eapply elem_of_sublist.
  - intros pos m' j' it He t h Ht Hne.
    destruct (erase_cases comp fuel m j l pos m' j' it HI He)
      as [(-> & -> & _)
         |(p & value & pre & c & rest & Hn & Hv & Hl & Heq & _ & _ & _ & _ & _
           & HI' & _)].
    + by apply (deref_tower comp m j l).
    + apply (deref_tower comp m' j' _ t h HI').
      rewrite Hl in Ht. rewrite elem_of_app, elem_of_cons in Ht.
      rewrite elem_of_app. destruct Ht as [?|[->|?]]; [by left| |by right].
      destruct (Hne value); [|done]. unfold deref. rewrite Hn. simpl. done.
Qed.

Lemma other_iterators_stay_valid_witness :
  (∀ m' j' r,
     insert Z.ltb ex_draws ex_fuel ex_state.1 ex_state.2 4%Z (AllocOk 7)
     = Some (m', j', r) →
     ∀ t h, t ∈ ex_towers →
       deref m' (Iterator (Some (t_addr t)) h) = Some (t_val t)) ∧
  (∀ m' j' it, erase Z.ltb ex_fuel ex_state.1 ex_state.2 (ex_it 4)
               = Some (m', j', it) →
     deref m' (ex_it 6) = Some 9%Z).
Proof.
  destruct (other_iterators_stay_valid Z.ltb ex_draws ex_fuel ex_state.1
              ex_state.2 ex_towers ex_Inv) as [Hins Her].
  split.
  - intros m' j' r. apply Hins. reflexivity.
  - intros m' j' it He.
    apply (Her (ex_it 4) m' j' it He (Tower 6 9%Z 2)).
    + vm_compute. do 4 right. left.
    + intros v Hv. vm_compute in Hv. injection Hv as <-.
      intros [H1 H2]. vm_compute in H1, H2. congruence.
Defined.

(** X25 (assignment from an initializer list).  On a container that
    satisfies the invariant, with an allocator that hands out addresses
    unused after the clearing: the old nodes are released, and afterwards
    the iteration visits the values of the list up to a position [n], put
    one after the other at their places, and [size()] counts them; [n]
    is the length of the list when the call returns, and the position of
    the value whose node creation failed when it raises. *)
Theorem assign_list_semantics {T} (comp : T → T → bool) (draws : nat → bool)
    `{!StrictWeakOrder comp} (fuel : nat) m this (l : list (@tower T))
    xs ocs m1 this1 :
  Inv comp m this l → clear fuel m this = Some (m1, this1) →
  fresh_oracle m1 (length xs) ocs →
  length xs < fuel → MAX_LEVEL < fuel → (N.of_nat (length xs) < SIZE_MOD)%N →
  ∃ m' this' r n,
    assign_list comp draws fuel m this xs ocs = Some (m', this', r) ∧
    (∃ l', Inv comp m' this' l') ∧ header this' = header this ∧
    elements fuel m' this' = Some (insert_all comp (take n xs) []) ∧
    size this' = N.of_nat (length (insert_all comp (take n xs) [])) ∧
    (∀ t, t ∈ l → m1 !! t_addr t = None) ∧
    match r with
    | Normal _ => n = length xs
    | BadAlloc => ∃ x, xs !! n = Some x ∧ ∀ a, ocs n ≠ AllocOk a
    end.
Proof.
  intros HI Hc Hor Hfuel Hfuel' Hsize.
  destruct (clear_cases comp fuel m this l m1 this1 HI Hc) as (-> & HI1 & Hm1).
  unfold assign_list. rewrite Hc. simpl.
  destruct (insert_range_total comp draws fuel xs m1 _ [] ocs HI1 Hor)
    as [[[m' j'] r] Hr]; [simpl; lia|done|].
  destruct (insert_range_effect comp draws fuel xs m1 _ [] ocs m' j' r HI1 Hor Hr)
    as (l' & n & HI' & Hh & Hmod & _ & Hlen & _ & _ & _ & Hsz & Hres).
  simpl in Hmod, Hlen.
  assert (Hn : n ≤ length xs).
  { destruct r as [res|].
    - destruct Hres as [-> _]. lia.
    - destruct Hres as (x & Hx & _). apply lookup_lt_Some in Hx. lia. }
  rewrite Hr. exists m', j', r, n. split; [done|]. split; [by exists l'|].
  split; [done|]. rewrite <- Hmod.
  split; [apply (elements_spec comp); [done|lia]|].
  destruct Hsz as [Hs _]; [by split|simpl; lia|].
  split; [unfold size; by rewrite Hs, length_map|]. split.
  { intros t Ht.
    pose proof (inv_nodup _ _ _ _ HI) as Hnd. apply NoDup_cons in Hnd as [Hnh _].
    assert (Hin : t_addr t ∈ map t_addr l) by (apply list_elem_of_fmap; eauto).
    rewrite Hm1; [by rewrite decide_True|]. by intros Heq; rewrite Heq in Hin. }
  destruct r as [res|]; [by destruct Hres|].
  destruct Hres as (x & Hx & Hoc & _). by exists x.
Qed.

Lemma assign_list_semantics_witness :
  ∃ m' this',
    assign_list Z.ltb ex_draws ex_fuel ex_state.1 ex_state.2 [8; 2; 8]%Z
                (supply [2; 3; 4]%positive) = Some (m', this', Normal tt) ∧
    (∃ l', Inv Z.ltb m' this' l') ∧
    elements ex_fuel m' this' = Some [2; 8]%Z ∧ size this' = 2%N.
Proof.
  destruct (clear_spec Z.ltb ex_fuel ex_state.1 ex_state.2 _ ex_Inv)
    as (m1 & Hc & _); [vm_compute; lia|].
  destruct (assign_list_semantics Z.ltb ex_draws ex_fuel ex_state.1 ex_state.2
              ex_towers [8; 2; 8]%Z (supply [2; 3; 4]%positive) m1
              (JumpList (header ex_state.2) 0 0 (rng ex_state.2)) ex_Inv Hc)
    as (m' & this' & r & n & Heq & HI & _ & Hel & Hsz & _ & Hres).
  - apply supply_fresh.
    + apply (bool_decide_unpack _). vm_compute. exact I.
    + vm_compute in Hc. injection Hc as <-. repeat constructor.
  - vm_compute. lia.
  - vm_compute. lia.
  - vm_compute. reflexivity.
  - destruct r as [[]|]; [|vm_compute in Heq; discriminate Heq].
    rewrite Hres in Hel, Hsz.
    exists m', this'. split; [exact Heq|]. split; [exact HI|].
    split; [exact Hel|exact Hsz].
Defined.
